(** * SPIRAL (pyspiral): a shallow embedding of the language engine

    The development embeds the parts of the Python implementation that the
    specification's evaluator, CFG executor, scheduler and race detector
    statements are about:

    - [types.py]: the type, value and expression universes, the value
      predicates, [hash_value] and [type_equal];
    - [errors.py]: the error codes, [SPIRALError.to_value] and the
      validation results;
    - [env.py]: the persistent value environment;
    - [domains/registry.py]: the operator registry;
    - [domains/core.py], [domains/list.py], [domains/set.py]: the
      implementations of the operators;
    - [evaluator.py]: the big-step expression evaluator and
      [evaluate_program];
    - [lir/evaluator.py]: the CFG executor;
    - [scheduler.py]: the task table of [DefaultTaskScheduler] and
      [AsyncBarrier];
    - [detectors.py]: the race detector and the deadlock detector.

    Conventions.  Values are objects of frozen dataclasses: reading a field
    as an attribute ([v.kind]) is pattern matching on [value]; a subscript
    ([v["params"]]) or a call of [get] on a value raises in Python, and does
    so here ([value_getitem], [value_get]).  Expressions, instructions,
    terminators and documents are dictionaries, read by key
    ([expr["kind"]], [ins.get("kind")]): each is an inductive type or a
    record, read by pattern matching.  The dictionary that
    [SPIRALError.to_value] builds is no value; a result that may be either
    is a [returned].  Python dictionaries keyed by strings are
    [gmap string _]; dictionaries whose iteration order is observed are
    association lists.  Python exceptions are the [Raise]
    outcome of a small state-and-exception monad; the mutable evaluation
    context and the host's source of uuids are its state. *)

From Stdlib Require Import ZArith String List PrimFloat Floats Lia.
From stdpp Require Import base option list gmap strings pretty.

Set Warnings "-register-all,-clear-no-such-hyp".
Local Open Scope string_scope.
Local Open Scope Z_scope.

(** ** Error codes ([errors.py], [ErrorCodes]) *)

(** [ErrorCodes] is a string enumeration: a member is its string value. *)
Module ErrorCodes.
Definition TYPE_ERROR : string := "TypeError".
Definition ARITY_ERROR : string := "ArityError".
Definition DOMAIN_ERROR : string := "DomainError".
Definition DIVIDE_BY_ZERO : string := "DivideByZero".
Definition UNKNOWN_OPERATOR : string := "UnknownOperator".
Definition UNKNOWN_DEFINITION : string := "UnknownDefinition".
Definition UNBOUND_IDENTIFIER : string := "UnboundIdentifier".
Definition NON_TERMINATION : string := "NonTermination".
Definition TIMEOUT_ERROR : string := "TimeoutError".
Definition SELECT_TIMEOUT : string := "SelectTimeout".
Definition VALIDATION_ERROR : string := "ValidationError".
End ErrorCodes.

(** ** Types ([types.py], the [Type] union) *)

Inductive ty : Type :=
| BoolType
| IntType
| FloatType
| StringType
| SetType (of_ : ty)
| ListType (of_ : ty)
| MapType (key value : ty)
| OptionType (of_ : ty)
| OpaqueType (name : string)
| FnType (params : list ty) (returns : ty) (optional_params : option (list bool))
| RefType (of_ : ty)
| VoidType
| FutureType (of_ : ty)
| ChannelType (channel_type : string) (of_ : ty)
| TaskType (returns : ty)
| AsyncFnType (params : list ty) (returns : ty).

Definition ty_kind (t : ty) : string :=
  match t with
  | BoolType => "bool"
  | IntType => "int"
  | FloatType => "float"
  | StringType => "string"
  | SetType _ => "set"
  | ListType _ => "list"
  | MapType _ _ => "map"
  | OptionType _ => "option"
  | OpaqueType _ => "opaque"
  | FnType _ _ _ => "fn"
  | RefType _ => "ref"
  | VoidType => "void"
  | FutureType _ => "future"
  | ChannelType _ _ => "channel"
  | TaskType _ => "task"
  | AsyncFnType _ _ => "async"
  end.

(** ** Values and expressions ([types.py], the [Value] and [Expr] unions)

    [raw] is what a literal carries in its [value] field before the
    evaluator converts it: a datum of the document ([None], a boolean, a
    number, a string, a list) or an object that already has a [kind].  The
    literal rule stores such payloads unconverted in option, opaque and map
    values, so those carry [raw].

    An operand written [Union[str, Expr]] in the source (a node reference or
    an inline expression) is a [string + expr]. *)

Unset Elimination Schemes.

Inductive raw : Type :=
| RNone
| RBool (b : bool)
| RInt (z : Z)
| RFloat (f : float)
| RStr (s : string)
| RList (l : list raw)
| RObj (v : value)

with value : Type :=
| BoolVal (b : bool)
| IntVal (z : Z)
| FloatVal (f : float)
| StringVal (s : string)
| ListVal (l : list value)
| SetVal (s : gset string)
| MapVal (m : gmap string raw)
| OptionVal (o : option raw)
| OpaqueVal (name : string) (payload : raw)
| ClosureVal (params : list LambdaParam) (body : expr) (env : gmap string value)
| VoidVal
| RefCellVal (v : value)
| ErrorVal (code : string) (message : option string) (meta : option (gmap string value))
| FutureVal (task_id : string) (status : string) (v : option value)
| ChannelVal (id : string) (channel_type : string)
| TaskVal (id : string) (return_type : ty)
| SelectResultVal (index : Z) (v : value)

with expr : Type :=
| LitExpr (type_annotation : ty) (v : raw)
| RefExpr (id : string)
| VarExpr (name : string)
| CallExpr (ns name : string) (args : list (string + expr))
| IfExpr (cond then_branch else_branch : string + expr)
| LetExpr (name : string) (v body : string + expr)
| AirRefExpr (ns name : string) (args : list string)
| PredicateExpr (name : string) (v : string)
| LambdaExpr (params : list (string + LambdaParam)) (body : string)
| CallFnExpr (fn : string) (args : list string)
| FixExpr (fn : string)
| EirSeqExpr (first then_ : string)
| EirAssignExpr (target : string) (v : string)
| EirWhileExpr (cond body : string)
| EirForExpr (var init cond update body : string)
| EirIterExpr (var iter body : string)
| EirEffectExpr (op : string) (args : list string)
| EirRefCellExpr (target : string)
| EirDerefExpr (target : string)
| EirTryExpr (try_body catch_param catch_body : string) (fallback : option string)
| PirParExpr (branches : list string)
| PirSpawnExpr (task : string)
| PirAwaitExpr (future : string) (timeout fallback : option string)
| PirChannelExpr (channel_type : string) (buffer_size : option string)
| PirSendExpr (channel v : string)
| PirRecvExpr (channel : string)
| PirSelectExpr (futures : list string) (timeout fallback : option string)
| PirRaceExpr (tasks : list string)

with LambdaParam : Type :=
| mkLambdaParam (name : string) (type : option ty) (optional : bool)
                (default : option expr).

Set Elimination Schemes.

Definition param_name (p : LambdaParam) : string :=
  match p with mkLambdaParam n _ _ _ => n end.
Definition param_optional (p : LambdaParam) : bool :=
  match p with mkLambdaParam _ _ o _ => o end.
Definition param_default (p : LambdaParam) : option expr :=
  match p with mkLambdaParam _ _ _ d => d end.

(** The [kind] field of a value. *)
Definition kind (v : value) : string :=
  match v with
  | BoolVal _ => "bool"
  | IntVal _ => "int"
  | FloatVal _ => "float"
  | StringVal _ => "string"
  | ListVal _ => "list"
  | SetVal _ => "set"
  | MapVal _ => "map"
  | OptionVal _ => "option"
  | OpaqueVal _ _ => "opaque"
  | ClosureVal _ _ _ => "closure"
  | VoidVal => "void"
  | RefCellVal _ => "refCell"
  | ErrorVal _ _ _ => "error"
  | FutureVal _ _ _ => "future"
  | ChannelVal _ _ => "channel"
  | TaskVal _ _ => "task"
  | SelectResultVal _ _ => "selectResult"
  end.

(** Type guards ([is_error], [is_closure], [is_ref_cell]). *)
Definition is_error (v : value) : bool :=
  match v with ErrorVal _ _ _ => true | _ => false end.
Definition is_closure (v : value) : bool :=
  match v with ClosureVal _ _ _ => true | _ => false end.
Definition is_ref_cell (v : value) : bool :=
  match v with RefCellVal _ => true | _ => false end.

(** Value constructors that do more than apply a constructor. *)
Definition error_val (code : string) (message : string) : value :=
  ErrorVal code (Some message) None.
Definition undefined_val : value := OptionVal None.

(** ** The host

    What the Python runtime supplies and the repository does not define:
    the conversions [int()], [float()] and [str()] applied to a literal's
    payload ([None] when the conversion raises), the rendering of a float,
    and the stream of uuids ([uuid4_hex n] is the hexadecimal form of the
    [n]-th uuid the process draws). *)

Class Host : Type := {
  py_int : raw -> option Z;
  py_float : raw -> option float;
  py_str : raw -> string;
  float_str : float -> string;
  uuid4_hex : nat -> string;
}.

(** Python truthiness of a literal payload ([bool(value)]). *)
Definition py_bool (r : raw) : bool :=
  match r with
  | RNone => false
  | RBool b => b
  | RInt z => negb (z =? 0)
  | RFloat f => negb (PrimFloat.eqb f PrimFloat.zero)
  | RStr s => negb (String.eqb s "")
  | RList l => match l with [] => false | _ => true end
  | RObj _ => true
  end.

(** [str(b)] for a boolean. *)
Definition bool_str (b : bool) : string := if b then "True" else "False".

(** ** Exceptions, outcomes and the evaluation monad *)

Inductive pyexn : Type :=
| SPIRALError (code : string) (message : string)
| AssertionError (message : string)
| HostError (what : string).

Inductive outcome (A : Type) : Type :=
| Ret (a : A)
| Raise (e : pyexn)
| OutOfFuel.
Arguments Ret {A} a.
Arguments Raise {A} e.
Arguments OutOfFuel {A}.

(** [EvalContext] ([evaluator.py]); [steps] is the field the evaluator
    mutates. *)
Record EvalContext : Type := mkEvalContext {
  steps : Z;
  max_steps : Z;
  trace : bool;
}.

(** The state an evaluation runs in: its context and the number of uuids the
    host has drawn so far. *)
Record World : Type := mkWorld {
  ctx : EvalContext;
  uuid_drawn : nat;
}.

(** Computations over a mutable state [S] that return or raise. *)
Definition St (S A : Type) : Type := S -> outcome A * S.

Definition ret {S A} (a : A) : St S A := fun w => (Ret a, w).
Definition raise {S A} (e : pyexn) : St S A := fun w => (Raise e, w).
Definition out_of_fuel {S A} : St S A := fun w => (OutOfFuel, w).
Definition bind {S A B} (m : St S A) (k : A -> St S B) : St S B :=
  fun w =>
    match m w with
    | (Ret a, w') => k a w'
    | (Raise e, w') => (Raise e, w')
    | (OutOfFuel, w') => (OutOfFuel, w')
    end.

Notation "x <- m ;; k" := (bind m (fun x => k))
  (at level 100, m at next level, right associativity, only parsing).
Notation "m ;;; k" := (bind m (fun _ => k))
  (at level 100, right associativity, only parsing).

(** The expression evaluator's monad. *)
Abbreviation M := (St World).

(** [uuid.uuid4().hex]: draws the next uuid. *)
Definition uuid4 `{Host} : M string :=
  fun w => (Ret (uuid4_hex (uuid_drawn w)),
            mkWorld (ctx w) (S (uuid_drawn w))).

(** ** [hash_value] ([types.py]) *)

Fixpoint hash_value `{Host} (v : value) : M string :=
  match v with
  | BoolVal b => ret ("b:" ++ bool_str b)
  | IntVal z => ret ("i:" ++ pretty z)
  | FloatVal f => ret ("f:" ++ float_str f)
  | StringVal s => ret ("s:" ++ s)
  | OptionVal None | OptionVal (Some RNone) => ret "o:none"
  | OptionVal (Some (RObj v')) =>
      h <- hash_value v' ;; ret ("o:some:" ++ h)
  | OptionVal (Some _) =>
      (* the payload has no [kind] attribute *)
      raise (HostError "AttributeError")
  | _ =>
      (* Complex types use object identity *)
      u <- uuid4 ;; ret ("ref:" ++ String.substring 0 8 u)
  end.

(** ** Value environments ([env.py], [ValueEnv]) *)

Abbreviation ValueEnv := (gmap string value).

(** [ValueEnv(bindings)] copies the dictionary it is given. *)
Definition mkValueEnv (bindings : gmap string value) : ValueEnv := bindings.
Definition bindings (env : ValueEnv) : gmap string value := env.
Definition empty_value_env : ValueEnv := ∅.
Definition lookup_value (env : ValueEnv) (name : string) : option value :=
  env !! name.
Definition extend_value_env (env : ValueEnv) (name : string) (v : value)
  : ValueEnv := <[name := v]> env.

(** ** The operator registry ([domains/registry.py]) *)

(** What calling an operator's implementation does: return a value, raise a
    [SPIRALError] (code and metadata), or raise another exception (its
    [str]). *)
Inductive impl_result : Type :=
| ImplRet (v : value)
| ImplSPIRALError (code : string) (meta : option (gmap string value))
| ImplException (msg : string).

Record Operator : Type := mkOperator {
  op_ns : string;
  op_name : string;
  op_params : list ty;
  op_returns : ty;
  op_pure : bool;
  op_impl : list value -> impl_result;
}.

Abbreviation OperatorRegistry := (gmap string Operator).

Definition qualified_name (ns name : string) : string := ns ++ ":" ++ name.

Definition registry_lookup (reg : OperatorRegistry) (ns name : string)
  : option Operator := reg !! qualified_name ns name.

(** ** What a call hands back

    The source annotates the results of the evaluators as [Value], and
    they are objects of the value classes, with one exception:
    [SPIRALError.to_value] builds a dictionary with the keys [kind], [code]
    and, when the error has metadata, [meta].  The evaluators hand it back
    in place of a value where an implementation raised a [SPIRALError]. *)
Inductive returned : Type :=
| Val (v : value)
| ErrorDict (code : string) (meta : option (gmap string value)).

(** [SPIRALError.to_value]. *)
Definition to_value (code : string) (meta : option (gmap string value))
  : returned := ErrorDict code meta.

(** The object [is_error(r)] reads the attribute [kind] of.  The dictionary
    of [to_value] has keys and no attributes: the read raises
    [AttributeError]. *)
Definition value_of {S} (r : returned) : St S value :=
  match r with
  | Val v => ret v
  | ErrorDict _ _ => raise (HostError "AttributeError")
  end.

(** A rule that hands back an object of the value classes. *)
Definition returns_value {S} (m : St S value) : St S returned :=
  v <- m ;; ret (Val v).

(** [v[key]] for a value [v].  The value classes are frozen dataclasses
    and define no [__getitem__]: the subscript raises [TypeError], whatever
    the key. *)
Definition value_getitem {S A} (v : value) (key : string) : St S A :=
  raise (HostError "TypeError").

(** [v.get(key)] for a value [v].  The value classes have no method [get]:
    the call raises [AttributeError]. *)
Definition value_get {S A} (v : value) (key : string) : St S A :=
  raise (HostError "AttributeError").

(** The [try: op.impl(...) except ...] block shared by the evaluators:
    [inl v] is the value the implementation returned, [inr r] what the
    [except] clauses hand back. *)
Definition apply_impl (op : Operator) (arg_values : list value) : value + returned :=
  match op_impl op arg_values with
  | ImplRet v => inl v
  | ImplSPIRALError code meta => inr (to_value code meta)
  | ImplException msg => inr (Val (error_val ErrorCodes.DOMAIN_ERROR msg))
  end.

(** ** The expression evaluator ([evaluator.py], class [Evaluator]) *)

Record EvalOptions : Type := mkEvalOptions {
  opt_max_steps : Z;
  opt_trace : bool;
}.
Definition default_EvalOptions : EvalOptions := mkEvalOptions 10000 false.

(** [_check_steps]: count the step, then compare with the budget. *)
Definition _check_steps : M unit :=
  fun w =>
    let state := ctx w in
    let state' := mkEvalContext (steps state + 1) (max_steps state) (trace state) in
    let w' := mkWorld state' (uuid_drawn w) in
    if steps state' >? max_steps state'
    then (Raise (SPIRALError ErrorCodes.NON_TERMINATION
                   "Expression evaluation did not terminate"), w')
    else (Ret tt, w').

(** A host conversion that may raise. *)
Definition from_host {S A} (what : string) (o : option A) : St S A :=
  match o with
  | Some a => ret a
  | None => raise (HostError what)
  end.

Fixpoint mapM {S A B} (f : A -> St S B) (l : list A) : St S (list B) :=
  match l with
  | [] => ret []
  | a :: l' => b <- f a ;; bs <- mapM f l' ;; ret (b :: bs)
  end.

(** ["value" in val_obj] for an object that has a [kind]. *)
Definition has_value_field (v : value) : bool :=
  match v with
  | ClosureVal _ _ _ | VoidVal | ErrorVal _ _ _ | ChannelVal _ _ | TaskVal _ _ => false
  | _ => true
  end.

(** One turn of the list literal's loop: the values it appends. *)
Definition lit_list_elem `{Host} (list_elem_type : ty) (elem : raw)
  : M (list value) :=
  match elem with
  | RObj val_obj =>
      if has_value_field val_obj then
        match val_obj with
        | IntVal z => ret [IntVal z]
        | BoolVal b => ret [BoolVal b]
        | StringVal s => ret [StringVal s]
        | FloatVal f => ret [FloatVal f]
        | _ => ret [val_obj]
        end
      else ret []
  | _ =>
      match list_elem_type with
      | IntType => z <- from_host "int" (py_int elem) ;; ret [IntVal z]
      | BoolType => ret [BoolVal (py_bool elem)]
      | StringType => ret [StringVal (py_str elem)]
      | FloatType => f <- from_host "float" (py_float elem) ;; ret [FloatVal f]
      | _ => z <- from_host "int" (py_int elem) ;; ret [IntVal z]
      end
  end.

(** [hash_value(v)] for an element of a set or map literal. *)
Definition hash_raw `{Host} (r : raw) : M string :=
  match r with
  | RObj v => hash_value v
  | _ => raise (HostError "AttributeError")
  end.

(** One turn of the map literal's loop: [for k, v in value]. *)
Definition lit_map_entry `{Host} (entry : raw) : M (string * raw) :=
  match entry with
  | RList [k; v] => h <- hash_raw k ;; ret (h, v)
  | _ => raise (HostError "unpack")
  end.

Definition _eval_lit `{Host} (type_annotation : ty) (v : raw) : M value :=
  match type_annotation with
  | VoidType => ret VoidVal
  | BoolType => ret (BoolVal (py_bool v))
  | IntType => z <- from_host "int" (py_int v) ;; ret (IntVal z)
  | FloatType => f <- from_host "float" (py_float v) ;; ret (FloatVal f)
  | StringType => ret (StringVal (py_str v))
  | ListType list_elem_type =>
      match v with
      | RList l =>
          ls <- mapM (lit_list_elem list_elem_type) l ;;
          ret (ListVal (concat ls))
      | _ => ret (error_val ErrorCodes.TYPE_ERROR "List value must be array")
      end
  | SetType _ =>
      match v with
      | RList l => hs <- mapM hash_raw l ;; ret (SetVal (list_to_set hs))
      | _ => ret (error_val ErrorCodes.TYPE_ERROR "Set value must be array")
      end
  | MapType _ _ =>
      match v with
      | RList l =>
          kvs <- mapM lit_map_entry l ;;
          ret (MapVal (foldl (fun map_dict kv => <[kv.1 := kv.2]> map_dict) ∅ kvs))
      | _ => ret (error_val ErrorCodes.TYPE_ERROR "Map value must be array")
      end
  | OptionType _ =>
      ret (OptionVal (match v with RNone => None | _ => Some v end))
  | OpaqueType name => ret (OpaqueVal name v)
  | _ =>
      ret (error_val ErrorCodes.TYPE_ERROR
             ("Cannot create literal for type: " ++ ty_kind type_annotation))
  end.

Definition _eval_var (name : string) (env : ValueEnv) : M value :=
  match lookup_value env name with
  | None => ret (error_val ErrorCodes.UNBOUND_IDENTIFIER ("Unbound identifier: " ++ name))
  | Some v => ret v
  end.

Definition _eval_ref (ref_id : string) (env : ValueEnv) : M value :=
  match env !! ref_id with
  | Some ref_value => ret ref_value
  | None =>
      ret (error_val ErrorCodes.DOMAIN_ERROR
             ("Ref must be resolved during program evaluation: " ++ ref_id))
  end.

(** The text an f-string shows for an operand that is a node reference. *)
Definition ref_text (x : string + expr) : string :=
  match x with inl s => s | inr _ => "" end.

Definition is_inline (x : string + expr) : bool :=
  match x with inl _ => false | inr _ => true end.

Section Evaluator.
Context `{Host}.
Variable registry : OperatorRegistry.
(** [self._eval_expr], the evaluator the rules below call back into. *)
Variable ev : expr -> ValueEnv -> M returned.

(** The argument loop of [_eval_call]: [inl v] is an early [return v],
    [inr arg_values] the completed list. *)
Fixpoint eval_call_args (env : ValueEnv) (args : list (string + expr))
    (arg_values : list value) : M (value + list value) :=
  match args with
  | [] => ret (inr arg_values)
  | inl arg :: rest =>
      match lookup_value env arg with
      | None =>
          ret (inl (error_val ErrorCodes.UNBOUND_IDENTIFIER
                      ("Unbound identifier: " ++ arg)))
      | Some v => eval_call_args env rest (arg_values ++ [v])
      end
  | inr arg :: rest =>
      r <- ev arg env ;;
      v <- value_of r ;;
      if is_error v then ret (inl v)
      else eval_call_args env rest (arg_values ++ [v])
  end.

Definition _eval_call (ns name : string) (args : list (string + expr))
    (env : ValueEnv) : M returned :=
  let has_inline_args := existsb is_inline args in
  if negb has_inline_args then
    ret (Val (error_val ErrorCodes.DOMAIN_ERROR
                "Call must be resolved during program evaluation"))
  else
    r <- eval_call_args env args [] ;;
    match r with
    | inl early => ret (Val early)
    | inr arg_values =>
        match registry_lookup registry ns name with
        | None =>
            ret (Val (error_val ErrorCodes.UNKNOWN_OPERATOR
                        ("Unknown operator: " ++ ns ++ ":" ++ name)))
        | Some op =>
            if negb (length (op_params op) =? length arg_values)%nat then
              ret (Val (error_val ErrorCodes.ARITY_ERROR
                          ("Arity mismatch: " ++ pretty (length (op_params op))
                           ++ " expected, " ++ pretty (length arg_values) ++ " given")))
            else
              match apply_impl op arg_values with
              | inl v => ret (Val v)
              | inr err => ret err
              end
        end
    end.

(** The local helper [get_value] of [_eval_if] and [_eval_let]; it closes
    over the [env] of the enclosing call. *)
Definition get_value (env : ValueEnv) (ref_or_expr : string + expr)
    : M (option returned) :=
  match ref_or_expr with
  | inl s => ret (Val <$> lookup_value env s)
  | inr e => r <- ev e env ;; ret (Some r)
  end.

Definition unbound (x : string + expr) : value :=
  error_val ErrorCodes.UNBOUND_IDENTIFIER ("Unbound identifier: " ++ ref_text x).

Definition _eval_if (cond then_branch else_branch : string + expr)
    (env : ValueEnv) : M returned :=
  cond_value <- get_value env cond ;;
  match cond_value with
  | None => ret (Val (unbound cond))
  | Some cond_value =>
      cond_value <- value_of cond_value ;;
      if is_error cond_value then ret (Val cond_value)
      else
        match cond_value with
        | BoolVal true =>
            then_value <- get_value env then_branch ;;
            match then_value with
            | None => ret (Val (unbound then_branch))
            | Some then_value => ret then_value
            end
        | _ =>
            else_value <- get_value env else_branch ;;
            match else_value with
            | None => ret (Val (unbound else_branch))
            | Some else_value => ret else_value
            end
        end
  end.

Definition _eval_let (name : string) (v body : string + expr)
    (env : ValueEnv) : M returned :=
  value_result <- get_value env v ;;
  match value_result with
  | None => ret (Val (unbound v))
  | Some value_result =>
      value_result <- value_of value_result ;;
      if is_error value_result then ret (Val value_result)
      else
        let extended_env := extend_value_env env name value_result in
        (* [get_value] still reads [env] *)
        body_result <- get_value env body ;;
        match body_result with
        | None => ret (Val (unbound body))
        | Some body_result => ret body_result
        end
  end.

Definition _eval_lambda (e : expr) (params : list (string + LambdaParam))
    (env : ValueEnv) : M value :=
  let params :=
    map (fun p => match p with
                  | inl p => mkLambdaParam p None false None
                  | inr p => p
                  end) params in
  ret (ClosureVal params e (bindings env)).

(** The argument loop of [_eval_call_expr]. *)
Fixpoint lookup_args (env : ValueEnv) (args : list string)
    (arg_values : list value) : value + list value :=
  match args with
  | [] => inr arg_values
  | arg_id :: rest =>
      match lookup_value env arg_id with
      | None =>
          inl (error_val ErrorCodes.UNBOUND_IDENTIFIER
                 ("Argument not found: " ++ arg_id))
      | Some arg_value =>
          if is_error arg_value then inl arg_value
          else lookup_args env rest (arg_values ++ [arg_value])
      end
  end.

(** The parameter loop of [_eval_call_expr], from index [i] on:
    [inl v] is an early [return v], [inr call_env] the environment the
    body runs in. *)
Fixpoint bind_params (fn_env : gmap string value) (params : list LambdaParam)
    (arg_values : list value) (i : nat) (call_env : ValueEnv)
    : M (value + ValueEnv) :=
  match params with
  | [] => ret (inr call_env)
  | param :: rest =>
      let param_name := param_name param in
      match arg_values !! i with
      | Some arg_value =>
          bind_params fn_env rest arg_values (S i)
            (extend_value_env call_env param_name arg_value)
      | None =>
          if param_optional param then
            match param_default param with
            | Some default_expr =>
                let default_env := mkValueEnv fn_env in
                default_val <- ev default_expr default_env ;;
                default_val <- value_of default_val ;;
                if is_error default_val then ret (inl default_val)
                else
                  bind_params fn_env rest arg_values (S i)
                    (extend_value_env call_env param_name default_val)
            | None =>
                bind_params fn_env rest arg_values (S i)
                  (extend_value_env call_env param_name undefined_val)
            end
          else
            ret (inl (error_val ErrorCodes.ARITY_ERROR
                        ("Missing required parameter: " ++ param_name)))
      end
  end.

Definition min_arity (params : list LambdaParam) : nat :=
  length (filter (fun p => negb (param_optional p)) params).
Definition max_arity (params : list LambdaParam) : nat := length params.

Definition _eval_call_expr (fn : string) (args : list string)
    (env : ValueEnv) : M returned :=
  match lookup_value env fn with
  | None =>
      ret (Val (error_val ErrorCodes.UNBOUND_IDENTIFIER ("Function not found: " ++ fn)))
  | Some fn_value =>
      if is_error fn_value then ret (Val fn_value)
      else if negb (is_closure fn_value) then
        ret (Val (error_val ErrorCodes.TYPE_ERROR
                    ("Expected closure, got: " ++ kind fn_value)))
      else
        match lookup_args env args [] with
        | inl early => ret (Val early)
        | inr arg_values =>
            (* [fn_value["params"]]: the subscript raises *)
            params <- value_getitem fn_value "params" ;;
            let min_arity := min_arity params in
            params <- value_getitem fn_value "params" ;;
            let max_arity := max_arity params in
            if (length arg_values <? min_arity)%nat then
              ret (Val (error_val ErrorCodes.ARITY_ERROR
                          ("Arity error: expected at least "
                           ++ pretty min_arity ++ " args, got "
                           ++ pretty (length arg_values))))
            else if (max_arity <? length arg_values)%nat then
              ret (Val (error_val ErrorCodes.ARITY_ERROR
                          ("Arity error: expected at most "
                           ++ pretty max_arity ++ " args, got "
                           ++ pretty (length arg_values))))
            else
              fn_env <- value_getitem fn_value "env" ;;
              params <- value_getitem fn_value "params" ;;
              r <- bind_params fn_env params arg_values 0 (mkValueEnv fn_env) ;;
              match r with
              | inl early => ret (Val early)
              | inr call_env =>
                  body_expr <- value_getitem fn_value "body" ;;
                  ev body_expr call_env
              end
        end
  end.

Definition _eval_fix (fn : string) (env : ValueEnv) : M returned :=
  match lookup_value env fn with
  | None =>
      ret (Val (error_val ErrorCodes.UNBOUND_IDENTIFIER ("Function not found: " ++ fn)))
  | Some fn_value =>
      if is_error fn_value then ret (Val fn_value)
      else if negb (is_closure fn_value) then
        ret (Val (error_val ErrorCodes.TYPE_ERROR
                    ("Expected closure, got: " ++ kind fn_value)))
      else
        (* [fn_value["params"]]: the subscript raises *)
        params <- value_getitem fn_value "params" ;;
        match params with
        | [param] =>
            let param_name := param_name param in
            let extended_env := extend_value_env env param_name fn_value in
            body_expr <- value_getitem fn_value "body" ;;
            ev body_expr extended_env
        | _ =>
            ret (Val (error_val ErrorCodes.TYPE_ERROR
                        "fix requires a single-parameter lambda"))
        end
  end.
End Evaluator.

(** EIR forms: operands are node references looked up in the environment. *)

Definition _eval_seq (first then_ : string) (env : ValueEnv) : M value :=
  match lookup_value env first with
  | None =>
      ret (error_val ErrorCodes.UNBOUND_IDENTIFIER ("Unbound identifier in seq: " ++ first))
  | Some first_value =>
      if is_error first_value then ret first_value
      else
        match lookup_value env then_ with
        | None =>
            ret (error_val ErrorCodes.UNBOUND_IDENTIFIER
                   ("Unbound identifier in seq: " ++ then_))
        | Some then_value => ret then_value
        end
  end.

Definition _eval_assign (target value_ref : string) (env : ValueEnv) : M value :=
  match lookup_value env value_ref with
  | None =>
      ret (error_val ErrorCodes.UNBOUND_IDENTIFIER
             ("Unbound identifier in assign: " ++ value_ref))
  | Some value_result =>
      if is_error value_result then ret value_result else ret VoidVal
  end.

Definition _eval_ref_cell (target : string) (env : ValueEnv) : M value :=
  match lookup_value env target with
  | None =>
      ret (error_val ErrorCodes.UNBOUND_IDENTIFIER
             ("Unbound identifier in refCell: " ++ target))
  | Some target_value => ret (RefCellVal target_value)
  end.

Definition _eval_deref (target : string) (env : ValueEnv) : M value :=
  match lookup_value env target with
  | None =>
      ret (error_val ErrorCodes.UNBOUND_IDENTIFIER
             ("Unbound identifier in deref: " ++ target))
  | Some target_value =>
      if is_error target_value then ret target_value
      else
        match target_value with
        | RefCellVal v => ret v
        | _ =>
            ret (error_val ErrorCodes.TYPE_ERROR
                   ("Expected refCell, got: " ++ kind target_value))
        end
  end.

Definition _eval_try (try_body catch_param catch_body : string)
    (fallback : option string) (env : ValueEnv) : M value :=
  match lookup_value env try_body with
  | None =>
      ret (error_val ErrorCodes.UNBOUND_IDENTIFIER
             ("Unbound identifier in try: " ++ try_body))
  | Some try_value =>
      if is_error try_value then
        let error_env := extend_value_env env catch_param try_value in
        match lookup_value error_env catch_body with
        | None =>
            ret (error_val ErrorCodes.UNBOUND_IDENTIFIER
                   ("Unbound identifier in catch: " ++ catch_body))
        | Some catch_value => ret catch_value
        end
      else
        match fallback with
        | Some fallback =>
            match lookup_value env fallback with
            | None =>
                ret (error_val ErrorCodes.UNBOUND_IDENTIFIER
                       ("Unbound identifier in fallback: " ++ fallback))
            | Some fallback_value => ret fallback_value
            end
        | None => ret try_value
        end
  end.

Definition pir_error (kind : string) : value :=
  error_val ErrorCodes.DOMAIN_ERROR ("PIR expressions require AsyncEvaluator: " ++ kind).

(** The dispatch of [_eval_expr] on the expression's kind, after the step
    check. *)
Definition dispatch `{Host} (registry : OperatorRegistry)
    (ev : expr -> ValueEnv -> M returned) (e : expr) (env : ValueEnv) : M returned :=
  match e with
  | LitExpr t v => returns_value (_eval_lit t v)
  | VarExpr name => returns_value (_eval_var name env)
  | RefExpr id => returns_value (_eval_ref id env)
  | CallExpr ns name args => _eval_call registry ev ns name args env
  | IfExpr c t f => _eval_if ev c t f env
  | LetExpr name v body => _eval_let ev name v body env
  | AirRefExpr _ _ _ =>
      ret (Val (error_val ErrorCodes.DOMAIN_ERROR
                  "AirRef must be resolved during program evaluation"))
  | PredicateExpr _ _ =>
      ret (Val (error_val ErrorCodes.DOMAIN_ERROR
                  "Predicate must be resolved during program evaluation"))
  | LambdaExpr params _ => returns_value (_eval_lambda e params env)
  | CallFnExpr fn args => _eval_call_expr ev fn args env
  | FixExpr fn => _eval_fix ev fn env
  | EirSeqExpr first then_ => returns_value (_eval_seq first then_ env)
  | EirAssignExpr target v => returns_value (_eval_assign target v env)
  | EirWhileExpr _ _ => ret (Val VoidVal)
  | EirForExpr _ _ _ _ _ => ret (Val VoidVal)
  | EirIterExpr _ _ _ => ret (Val VoidVal)
  | EirEffectExpr _ _ => ret (Val VoidVal)
  | EirRefCellExpr target => returns_value (_eval_ref_cell target env)
  | EirDerefExpr target => returns_value (_eval_deref target env)
  | EirTryExpr b p c fb => returns_value (_eval_try b p c fb env)
  | PirParExpr _ => ret (Val (pir_error "par"))
  | PirSpawnExpr _ => ret (Val (pir_error "spawn"))
  | PirAwaitExpr _ _ _ => ret (Val (pir_error "await"))
  | PirChannelExpr _ _ => ret (Val (pir_error "channel"))
  | PirSendExpr _ _ => ret (Val (pir_error "send"))
  | PirRecvExpr _ => ret (Val (pir_error "recv"))
  | PirSelectExpr _ _ _ => ret (Val (pir_error "select"))
  | PirRaceExpr _ => ret (Val (pir_error "race"))
  end.

(** [_eval_expr].  Every call counts a step first and raises once the
    budget is exceeded, so the depth of the recursion is bounded by the
    budget; [fuel] is that depth, and [evaluate_ends] below shows that the
    fuel [evaluate] supplies is never exhausted. *)
Fixpoint _eval_expr `{Host} (registry : OperatorRegistry) (fuel : nat)
    (e : expr) (env : ValueEnv) : M returned :=
  _check_steps ;;;
  match fuel with
  | O => out_of_fuel
  | S fuel' => dispatch registry (_eval_expr registry fuel') e env
  end.

(** [Evaluator.evaluate]: a fresh context with [steps = 0]; [drawn] is the
    number of uuids the host has drawn before the call. *)
Definition evaluate `{Host} (registry : OperatorRegistry) (e : expr)
    (env : ValueEnv) (options : option EvalOptions) (drawn : nat)
    : outcome returned * World :=
  let opts := default default_EvalOptions options in
  let state := mkEvalContext 0 (opt_max_steps opts) (opt_trace opts) in
  _eval_expr registry (Z.to_nat (max_steps state)) e env (mkWorld state drawn).

(** [Evaluator.evaluate_with_state]. *)
Definition evaluate_with_state `{Host} (registry : OperatorRegistry) (e : expr)
    (env : ValueEnv) (state : EvalContext) (drawn : nat)
    : outcome returned * World :=
  _eval_expr registry (Z.to_nat (max_steps state - steps state)) e env
    (mkWorld state drawn).

(** ** The effect registry ([effects.py]) *)

Record EffectOp : Type := mkEffectOp {
  eff_name : string;
  eff_params : list ty;
  eff_returns : ty;
  eff_pure : bool;
  eff_fn : list value -> impl_result;
}.

Abbreviation EffectRegistry := (gmap string EffectOp).

Definition lookup_effect (registry : EffectRegistry) (name : string)
  : option EffectOp := registry !! name.

(** ** LIR documents ([types.py]) *)

Record PhiSource : Type := mkPhiSource {
  src_block : string;
  src_id : string;
}.

Inductive LirInstruction : Type :=
| LirInsAssign (target : string) (v : expr)
| LirInsCall (target callee : string) (args : list string)
| LirInsOp (target ns name : string) (args : list string)
| LirInsPhi (target : string) (sources : list PhiSource)
| LirInsEffect (target op : string) (args : list string)
| LirInsAssignRef (target v : string).

Inductive LirTerminator : Type :=
| LirTermJump (to : string)
| LirTermBranch (cond then_branch else_branch : string)
| LirTermReturn (v : option string)
| LirTermExit (code : option string).

Record LirBlock : Type := mkLirBlock {
  block_id : string;
  instructions : list LirInstruction;
  terminator : LirTerminator;
}.

Inductive LirHybridNode : Type :=
| ExprNode (id : string) (type_annotation : option ty) (e : expr)
| LirBlockNode (id : string) (type_annotation : option ty)
               (blocks : list LirBlock) (entry : string).

Definition node_id (n : LirHybridNode) : string :=
  match n with ExprNode id _ _ => id | LirBlockNode id _ _ _ => id end.

Record LIRDocument : Type := mkLIRDocument {
  doc_version : string;
  doc_nodes : option (list LirHybridNode);
  doc_result : string;
}.

(** ** The CFG executor ([lir/evaluator.py], class [LIREvaluator]) *)

Record LIREvalOptions : Type := mkLIREvalOptions {
  lir_opt_max_steps : Z;
  lir_opt_trace : bool;
}.
Definition default_LIREvalOptions : LIREvalOptions := mkLIREvalOptions 10000 false.

Record EffectRecord : Type := mkEffectRecord {
  rec_op : string;
  rec_args : list value;
}.

Record LIRRuntimeState : Type := mkLIRRuntimeState {
  vars : gmap string value;
  return_value : option value;
  effects : list EffectRecord;
  lir_steps : Z;
  lir_max_steps : Z;
  predecessor : option string;
}.

Definition set_vars (f : gmap string value -> gmap string value)
    (s : LIRRuntimeState) : LIRRuntimeState :=
  mkLIRRuntimeState (f (vars s)) (return_value s) (effects s) (lir_steps s)
    (lir_max_steps s) (predecessor s).
Definition set_return_value (v : value) (s : LIRRuntimeState) : LIRRuntimeState :=
  mkLIRRuntimeState (vars s) (Some v) (effects s) (lir_steps s)
    (lir_max_steps s) (predecessor s).
Definition add_effect (r : EffectRecord) (s : LIRRuntimeState) : LIRRuntimeState :=
  mkLIRRuntimeState (vars s) (return_value s) (effects s ++ [r]) (lir_steps s)
    (lir_max_steps s) (predecessor s).
Definition count_step (s : LIRRuntimeState) : LIRRuntimeState :=
  mkLIRRuntimeState (vars s) (return_value s) (effects s) (lir_steps s + 1)
    (lir_max_steps s) (predecessor s).
Definition set_predecessor (b : string) (s : LIRRuntimeState) : LIRRuntimeState :=
  mkLIRRuntimeState (vars s) (return_value s) (effects s) (lir_steps s)
    (lir_max_steps s) (Some b).

(** The executor's monad. *)
Abbreviation L := (St LIRRuntimeState).

Definition get_state : L LIRRuntimeState := fun s => (Ret s, s).
Definition modify (f : LIRRuntimeState -> LIRRuntimeState) : L unit :=
  fun s => (Ret tt, f s).

(** Truthiness of an optional string ([if state.predecessor:],
    [if term.get("value"):]). *)
Definition truthy (o : option string) : option string :=
  match o with
  | Some s => if String.eqb s "" then None else Some s
  | None => None
  end.

(** [_evaluate_expr]: literals and variables only. *)
Definition _evaluate_expr `{Host} (e : expr) (env : gmap string value)
  : L value :=
  match e with
  | LitExpr t v =>
      match t with
      | BoolType => ret (BoolVal (py_bool v))
      | IntType => z <- from_host "int" (py_int v) ;; ret (IntVal z)
      | FloatType => f <- from_host "float" (py_float v) ;; ret (FloatVal f)
      | StringType => ret (StringVal (py_str v))
      | VoidType => ret VoidVal
      | _ =>
          ret (error_val ErrorCodes.TYPE_ERROR
                 "Complex literals not yet supported in LIR")
      end
  | VarExpr name =>
      match env !! name with
      | None =>
          ret (error_val ErrorCodes.UNBOUND_IDENTIFIER ("Unbound identifier: " ++ name))
      | Some v => ret v
      end
  | _ =>
      ret (error_val ErrorCodes.DOMAIN_ERROR
             "Complex expressions not yet supported in LIR")
  end.

(** The operand loop shared by [_execute_call], [_execute_op] and
    [_execute_effect]: [inl v] is an early [return v]. *)
Fixpoint lir_args (vars : gmap string value) (args : list string)
    (arg_values : list value) : value + list value :=
  match args with
  | [] => inr arg_values
  | arg_id :: rest =>
      match vars !! arg_id with
      | None =>
          inl (error_val ErrorCodes.UNBOUND_IDENTIFIER
                 ("Argument not found: " ++ arg_id))
      | Some arg_value =>
          if is_error arg_value then inl arg_value
          else lir_args vars rest (arg_values ++ [arg_value])
      end
  end.

(** The two loops of [_execute_phi]. *)
Fixpoint phi_by_predecessor (vars : gmap string value) (pred : string)
    (sources : list PhiSource) : option value :=
  match sources with
  | [] => None
  | source :: rest =>
      if String.eqb (src_block source) pred then
        match vars !! src_id source with
        | Some v =>
            if negb (is_error v) then Some v
            else phi_by_predecessor vars pred rest
        | None => phi_by_predecessor vars pred rest
        end
      else phi_by_predecessor vars pred rest
  end.

Fixpoint phi_fallback (vars : gmap string value) (sources : list PhiSource)
    : option value :=
  match sources with
  | [] => None
  | source :: rest =>
      match vars !! src_id source with
      | Some v =>
          if negb (is_error v) then Some v else phi_fallback vars rest
      | None => phi_fallback vars rest
      end
  end.

Section LIREvaluator.
Context `{Host}.
Variable registry : OperatorRegistry.
Variable effect_registry : EffectRegistry.

(** Instructions return [None] on success and an error value on failure;
    [_execute_op] and [_execute_effect] may also hand back the dictionary of
    [to_value]. *)

Definition _execute_assign (target : string) (e : expr) : L (option value) :=
  state <- get_state ;;
  v <- _evaluate_expr e (vars state) ;;
  if is_error v then ret (Some v)
  else modify (set_vars (insert target v)) ;;; ret None.

Definition _execute_call (target : string) (args : list string)
    : L (option value) :=
  state <- get_state ;;
  match lir_args (vars state) args [] with
  | inl early => ret (Some early)
  | inr _ =>
      modify (set_vars (insert target
                (error_val ErrorCodes.DOMAIN_ERROR "Call not yet implemented in LIR"))) ;;;
      ret None
  end.

Definition _execute_op (target ns name : string) (args : list string)
    : L (option returned) :=
  state <- get_state ;;
  match lir_args (vars state) args [] with
  | inl early => ret (Some (Val early))
  | inr arg_values =>
      match registry_lookup registry ns name with
      | None =>
          ret (Some (Val (error_val ErrorCodes.UNKNOWN_OPERATOR
                            ("Unknown operator: " ++ ns ++ ":" ++ name))))
      | Some op =>
          if negb (length (op_params op) =? length arg_values)%nat then
            ret (Some (Val (error_val ErrorCodes.ARITY_ERROR
                              ("Operator " ++ ns ++ ":" ++ name ++ " expects "
                               ++ pretty (length (op_params op)) ++ " args, got "
                               ++ pretty (length arg_values)))))
          else
            match apply_impl op arg_values with
            | inl result => modify (set_vars (insert target result)) ;;; ret None
            | inr err => ret (Some err)
            end
      end
  end.

Definition _execute_phi (target : string) (sources : list PhiSource)
    : L (option value) :=
  state <- get_state ;;
  let phi_value :=
    match truthy (predecessor state) with
    | Some pred => phi_by_predecessor (vars state) pred sources
    | None => None
    end in
  let phi_value :=
    match phi_value with
    | Some v => Some v
    | None => phi_fallback (vars state) sources
    end in
  match phi_value with
  | None =>
      ret (Some (error_val ErrorCodes.DOMAIN_ERROR
                   ("Phi node has no valid sources: " ++ target)))
  | Some v => modify (set_vars (insert target v)) ;;; ret None
  end.

Definition _execute_effect (target op : string) (args : list string)
    : L (option returned) :=
  match lookup_effect effect_registry op with
  | None =>
      ret (Some (Val (error_val ErrorCodes.UNKNOWN_OPERATOR
                        ("Unknown effect operation: " ++ op))))
  | Some effect_op =>
      state <- get_state ;;
      match lir_args (vars state) args [] with
      | inl early => ret (Some (Val early))
      | inr arg_values =>
          if negb (length (eff_params effect_op) =? length arg_values)%nat then
            ret (Some (Val (error_val ErrorCodes.ARITY_ERROR
                              ("Effect " ++ op ++ " expects "
                               ++ pretty (length (eff_params effect_op)) ++ " args, got "
                               ++ pretty (length arg_values)))))
          else
            modify (add_effect (mkEffectRecord op arg_values)) ;;;
            match eff_fn effect_op arg_values with
            | ImplRet result => modify (set_vars (insert target result)) ;;; ret None
            | ImplSPIRALError code meta => ret (Some (to_value code meta))
            | ImplException msg =>
                ret (Some (Val (error_val ErrorCodes.DOMAIN_ERROR msg)))
            end
      end
  end.

Definition _execute_assign_ref (target v : string) : L (option value) :=
  state <- get_state ;;
  match vars state !! v with
  | None =>
      ret (Some (error_val ErrorCodes.UNBOUND_IDENTIFIER ("Value not found: " ++ v)))
  | Some val =>
      if is_error val then ret (Some val)
      else
        let ref_cell_id := target ++ "_ref" in
        modify (set_vars (insert ref_cell_id val)) ;;; ret None
  end.

(** An instruction that hands back [None] or an object of the value
    classes. *)
Definition returns_error (m : L (option value)) : L (option returned) :=
  r <- m ;; ret (Val <$> r).

Definition _execute_instruction (ins : LirInstruction) : L (option returned) :=
  match ins with
  | LirInsAssign target e => returns_error (_execute_assign target e)
  | LirInsCall target _ args => returns_error (_execute_call target args)
  | LirInsOp target ns name args => _execute_op target ns name args
  | LirInsPhi target sources => returns_error (_execute_phi target sources)
  | LirInsEffect target op args => _execute_effect target op args
  | LirInsAssignRef target v => returns_error (_execute_assign_ref target v)
  end.

Definition non_termination (message : string) : value :=
  error_val ErrorCodes.NON_TERMINATION message.

(** [_execute_block]: the loop over [block.instructions]. *)
Fixpoint _execute_block (instrs : list LirInstruction) : L (option returned) :=
  match instrs with
  | [] => ret None
  | ins :: rest =>
      modify count_step ;;;
      state <- get_state ;;
      if lir_steps state >? lir_max_steps state then
        ret (Some (Val (non_termination "Block execution exceeded maximum steps")))
      else
        result <- _execute_instruction ins ;;
        match result with
        | Some err => ret (Some err)
        | None => _execute_block rest
        end
  end.

(** [_execute_terminator]: [inl b] is the next block id, [inr v] the value
    the execution ends with. *)
Definition _execute_terminator (term : LirTerminator) : L (string + value) :=
  state <- get_state ;;
  match term with
  | LirTermJump to => ret (inl to)
  | LirTermBranch cond then_branch else_branch =>
      match vars state !! cond with
      | None =>
          ret (inr (error_val ErrorCodes.UNBOUND_IDENTIFIER
                      ("Condition variable not found: " ++ cond)))
      | Some cond_value =>
          if is_error cond_value then ret (inr cond_value)
          else
            (* [cond_value.get("kind")]: the call raises *)
            cond_kind <- value_get cond_value "kind" ;;
            if negb (String.eqb cond_kind "bool") then
              cond_kind <- value_get cond_value "kind" ;;
              ret (inr (error_val ErrorCodes.TYPE_ERROR
                          ("Branch condition must be bool, got: " ++ cond_kind)))
            else
              b <- value_getitem cond_value "value" ;;
              ret (inl (if b : bool then then_branch else else_branch))
      end
  | LirTermReturn v =>
      match truthy v with
      | Some v =>
          match vars state !! v with
          | None =>
              ret (inr (error_val ErrorCodes.UNBOUND_IDENTIFIER
                          ("Return value not found: " ++ v)))
          | Some return_value =>
              modify (set_return_value return_value) ;;; ret (inr return_value)
          end
      | None => ret (inr VoidVal)
      end
  | LirTermExit code =>
      match truthy code with
      | Some code =>
          match vars state !! code with
          | Some code_value => ret (inr code_value)
          | None => ret (inr VoidVal)
          end
      | None => ret (inr VoidVal)
      end
  end.

Definition find_block (blocks : list LirBlock) (id : string) : option LirBlock :=
  find (fun b => String.eqb (block_id b) id) blocks.

(** One turn of the [while current_block_id:] loop of [evaluate], after
    the check for a revisit: find the block, execute its instructions and
    its terminator, remember it as the predecessor and go on with [loop]. *)
Definition run_block (loop : string -> gset string -> L returned)
    (blocks : list LirBlock) (current_block_id : string)
    (executed_blocks : gset string) : L returned :=
  match find_block blocks current_block_id with
  | None =>
      ret (Val (error_val ErrorCodes.VALIDATION_ERROR
                  ("Block not found: " ++ current_block_id)))
  | Some current_block =>
      ins_result <- _execute_block (instructions current_block) ;;
      match ins_result with
      | Some err => ret err
      | None =>
          term_result <- _execute_terminator (terminator current_block) ;;
          match term_result with
          | inr v => ret (Val v)
          | inl next =>
              modify (set_predecessor current_block_id) ;;;
              loop next executed_blocks
          end
      end
  end.

(** The [while current_block_id:] loop of [evaluate].  [fuel] bounds the
    number of iterations; [cfg_loop_spec] below shows that [cfg_fuel]
    iterations always suffice. *)
Fixpoint cfg_loop (fuel : nat) (blocks : list LirBlock)
    (current_block_id : string) (executed_blocks : gset string) : L returned :=
  if String.eqb current_block_id "" then
    state <- get_state ;;
    ret (Val (default VoidVal (return_value state)))
  else
    match fuel with
    | O => out_of_fuel
    | S fuel' =>
        if bool_decide (current_block_id ∈ executed_blocks) then
          modify count_step ;;;
          state <- get_state ;;
          if lir_steps state >? lir_max_steps state then
            ret (Val (non_termination "LIR execution exceeded maximum steps"))
          else
            run_block (cfg_loop fuel' blocks) blocks current_block_id
              executed_blocks
        else
          run_block (cfg_loop fuel' blocks) blocks current_block_id
            ({[current_block_id]} ∪ executed_blocks)
    end.

(** Iterations that always suffice: every iteration that continues either
    enters a block for the first time or counts a step. *)
Definition cfg_fuel (blocks : list LirBlock) (state : LIRRuntimeState) : nat :=
  S (length blocks + Z.to_nat (lir_max_steps state - lir_steps state)).

Definition node_map (nodes : option (list LirHybridNode))
  : gmap string LirHybridNode :=
  foldl (fun m node => <[node_id node := node]> m) ∅ (default [] nodes).

(** [LIREvaluator.evaluate]: the result, the final runtime state and the
    number of uuids drawn.  For an expression node the method imports
    [empty_defs] from [pyspiral.types], which does not define it (it is a
    function of [env.py]): the import raises [ImportError] before anything
    is evaluated. *)
Definition lir_evaluate (options : option LIREvalOptions) (doc : LIRDocument)
    (inputs : option (gmap string value)) (drawn : nat)
    : outcome returned * LIRRuntimeState * nat :=
  let options := default default_LIREvalOptions options in
  let state :=
    mkLIRRuntimeState (default ∅ inputs) None [] 0 (lir_opt_max_steps options) None in
  match node_map (doc_nodes doc) !! doc_result doc with
  | None =>
      (Ret (Val (error_val ErrorCodes.VALIDATION_ERROR
                   ("Result node not found: " ++ doc_result doc))), state, drawn)
  | Some (ExprNode _ _ e) =>
      (Raise (HostError "ImportError"), state, drawn)
  | Some (LirBlockNode _ _ blocks entry) =>
      match find_block blocks entry with
      | None =>
          (Ret (Val (error_val ErrorCodes.VALIDATION_ERROR
                       ("Entry block not found: " ++ entry))), state, drawn)
      | Some _ =>
          let '(r, state') := cfg_loop (cfg_fuel blocks state) blocks entry ∅ state in
          (r, state', drawn)
      end
  end.
End LIREvaluator.

(** ** The default task scheduler ([scheduler.py], [DefaultTaskScheduler])

    The scheduler's table maps a task id to a [Task] object; the coroutine
    [run_task] that [spawn] starts keeps a reference to the object it was
    started for and writes the outcome into it when the body ends.  Objects
    are therefore kept in a store and named by the index at which they were
    allocated; the table holds indices.  The event loop is the environment:
    its decisions appear as the events [TaskReturns] and [TaskRaises]. *)

Inductive TaskStatus : Type := PENDING | COMPLETED | FAILED.

Inductive FutureState : Type :=
| FutPending
| FutResult (v : value)
| FutException
| FutCancelled.

Definition future_done (f : FutureState) : bool :=
  match f with FutPending => false | _ => true end.

Record Task : Type := mkTask {
  task_id : string;
  future : FutureState;
  status : TaskStatus;
  result : option value;
}.

Record DefaultTaskScheduler : Type := mkDefaultTaskScheduler {
  _tasks : gmap string nat;
  task_objects : list Task;
  _global_steps : Z;
  _global_max_steps : Z;
  _yield_interval : Z;
  _current_task_id : string;
}.

(** [DefaultTaskScheduler(global_max_steps, yield_interval)]. *)
Definition new_scheduler (global_max_steps yield_interval : Z)
  : DefaultTaskScheduler :=
  mkDefaultTaskScheduler ∅ [] 0 global_max_steps yield_interval "main".

Definition with_tasks (tasks : gmap string nat) (objects : list Task)
    (s : DefaultTaskScheduler) : DefaultTaskScheduler :=
  mkDefaultTaskScheduler tasks objects (_global_steps s) (_global_max_steps s)
    (_yield_interval s) (_current_task_id s).

(** [spawn]: a fresh pending task object replaces the table's entry. *)
Definition spawn (id : string) (s : DefaultTaskScheduler) : DefaultTaskScheduler :=
  let task := mkTask id FutPending PENDING None in
  with_tasks (<[id := length (task_objects s)]> (_tasks s))
             (task_objects s ++ [task]) s.

(** The body of the task object [h] returned [v] ([run_task], the [try]
    branch). *)
Definition task_returns (h : nat) (v : value) (s : DefaultTaskScheduler)
  : DefaultTaskScheduler :=
  with_tasks (_tasks s)
    (alter (fun t => mkTask (task_id t)
                       (if future_done (future t) then future t else FutResult v)
                       COMPLETED (Some v)) h (task_objects s)) s.

(** The body of the task object [h] raised ([run_task], the [except]
    branch). *)
Definition task_raises (h : nat) (s : DefaultTaskScheduler) : DefaultTaskScheduler :=
  with_tasks (_tasks s)
    (alter (fun t => mkTask (task_id t)
                       (if future_done (future t) then future t else FutException)
                       FAILED (result t)) h (task_objects s)) s.

Definition cancel (id : string) (s : DefaultTaskScheduler) : DefaultTaskScheduler :=
  match _tasks s !! id with
  | None => s
  | Some h =>
      with_tasks (delete id (_tasks s))
        (alter (fun t => mkTask (task_id t)
                           (if future_done (future t) then future t else FutCancelled)
                           FAILED (result t)) h (task_objects s)) s
  end.

Definition is_complete (id : string) (s : DefaultTaskScheduler) : bool :=
  match _tasks s !! id with
  | None => true
  | Some h =>
      match task_objects s !! h with
      | Some task =>
          match status task with
          | COMPLETED | FAILED => true
          | PENDING => false
          end
      | None => true
      end
  end.

Inductive SchedulerEvent : Type :=
| Spawn (id : string)
| TaskReturns (h : nat) (v : value)
| TaskRaises (h : nat)
| Cancel (id : string).

Definition scheduler_step (s : DefaultTaskScheduler) (ev : SchedulerEvent)
  : DefaultTaskScheduler :=
  match ev with
  | Spawn id => spawn id s
  | TaskReturns h v => task_returns h v s
  | TaskRaises h => task_raises h s
  | Cancel id => cancel id s
  end.

Definition scheduler_run (s : DefaultTaskScheduler) (evs : list SchedulerEvent)
  : DefaultTaskScheduler := foldl scheduler_step s evs.

(** ** The race detector ([detectors.py], [RaceDetector]) *)

Record DetectionOptions : Type := mkDetectionOptions {
  enable_race_detection : bool;
  enable_deadlock_detection : bool;
  deadlock_timeout : Z;
  detailed_race_reports : bool;
  auto_detect : bool;
}.
Definition default_DetectionOptions : DetectionOptions :=
  mkDetectionOptions true true 5000 true false.

Inductive AccessType : Type := Read | Write.
Definition access_type_str (t : AccessType) : string :=
  match t with Read => "read" | Write => "write" end.

Record MemoryAccess : Type := mkMemoryAccess {
  acc_task_id : string;
  acc_location : string;
  acc_type : AccessType;
  acc_value : value;
  acc_timestamp : float;
  happens_before : gset string;
}.

Inductive ConflictType : Type := W_W | W_R | R_W.

Record RaceCondition : Type := mkRaceCondition {
  race_location : string;
  race_tasks : string * string;
  race_access_types : AccessType * AccessType;
  conflict_type : ConflictType;
  description : string;
}.

(** [accesses] is a dictionary that [detect_races] iterates: an association
    list in insertion order, one entry per location. *)
Record RaceDetector : Type := mkRaceDetector {
  _options : DetectionOptions;
  accesses : list (string * list MemoryAccess);
  sync_points : gmap string (gset string);
  access_counter : Z;
}.

Definition new_race_detector (options : option DetectionOptions) : RaceDetector :=
  mkRaceDetector (default default_DetectionOptions options) [] ∅ 0.

(** [self.accesses[location].append(access)], creating the entry when the
    location is new. *)
Fixpoint append_access (location : string) (access : MemoryAccess)
    (table : list (string * list MemoryAccess)) : list (string * list MemoryAccess) :=
  match table with
  | [] => [(location, [access])]
  | (l, accs) :: rest =>
      if String.eqb l location then (l, (accs ++ [access])%list) :: rest
      else (l, accs) :: append_access location access rest
  end.

Definition _has_happens_before (access1 access2 : MemoryAccess) : bool :=
  if bool_decide (acc_task_id access2 ∈ happens_before access1) then true
  else if bool_decide (acc_task_id access1 ∈ happens_before access2) then true
  else existsb (fun ancestor_id => bool_decide (ancestor_id ∈ happens_before access2))
         (elements (happens_before access1)).

Definition _get_conflict_type (access1 access2 : MemoryAccess) : option ConflictType :=
  match acc_type access1, acc_type access2 with
  | Write, Write => Some W_W
  | Write, Read => Some W_R
  | Read, Write => Some R_W
  | Read, Read => None
  end.

Definition _generate_race_description (location task1 task2 : string)
    (type1 type2 : AccessType) : string :=
  "Potential data race at location " ++ String (Ascii.ascii_of_nat 34) location
  ++ String (Ascii.ascii_of_nat 34) ": task " ++ String (Ascii.ascii_of_nat 34) task1
  ++ String (Ascii.ascii_of_nat 34) " performs " ++ access_type_str type1
  ++ " and task " ++ String (Ascii.ascii_of_nat 34) task2
  ++ String (Ascii.ascii_of_nat 34) " performs " ++ access_type_str type2
  ++ " without happens-before ordering. This could lead to undefined behavior.".

Definition _check_pair_for_race (location : string) (access1 access2 : MemoryAccess)
  : option RaceCondition :=
  if String.eqb (acc_task_id access1) (acc_task_id access2) then None
  else if _has_happens_before access1 access2 then None
  else
    match _get_conflict_type access1 access2 with
    | None => None
    | Some conflict_type =>
        Some (mkRaceCondition location
                (acc_task_id access1, acc_task_id access2)
                (acc_type access1, acc_type access2)
                conflict_type
                (_generate_race_description location (acc_task_id access1)
                   (acc_task_id access2) (acc_type access1) (acc_type access2)))
    end.

(** The loops over [i] and [j > i] for one location. *)
Fixpoint races_at (location : string) (accs : list MemoryAccess)
    : list RaceCondition :=
  match accs with
  | [] => []
  | access1 :: rest =>
      (omap (_check_pair_for_race location access1) rest ++ races_at location rest)%list
  end.

Definition detect_races (d : RaceDetector) : list RaceCondition :=
  if negb (enable_race_detection (_options d)) then []
  else concat (map (fun '(location, accs) => races_at location accs) (accesses d)).

(** [record_access]; [now] is the clock reading.  With [auto_detect] the
    source also runs [detect_races] every hundredth access and logs a
    warning, which changes nothing in the detector. *)
Definition record_access (task_id location : string) (access_type : AccessType)
    (v : value) (now : float) (d : RaceDetector) : RaceDetector :=
  if negb (enable_race_detection (_options d)) then d
  else
    let access :=
      mkMemoryAccess task_id location access_type v now
        (default ∅ (sync_points d !! task_id)) in
    mkRaceDetector (_options d) (append_access location access (accesses d))
      (sync_points d) (access_counter d + 1).

Definition record_sync_point (task_id : string) (sync_task_ids : list string)
    (d : RaceDetector) : RaceDetector :=
  if negb (enable_race_detection (_options d)) then d
  else
    mkRaceDetector (_options d) (accesses d)
      (<[task_id := default ∅ (sync_points d !! task_id) ∪ list_to_set sync_task_ids]>
         (sync_points d))
      (access_counter d).

Definition clear (d : RaceDetector) : RaceDetector :=
  mkRaceDetector (_options d) [] ∅ 0.

Inductive DetectorCall : Type :=
| RecordAccess (task_id location : string) (access_type : AccessType)
               (v : value) (now : float)
| RecordSyncPoint (task_id : string) (sync_task_ids : list string)
| Clear.

Definition detector_step (d : RaceDetector) (c : DetectorCall) : RaceDetector :=
  match c with
  | RecordAccess t l a v now => record_access t l a v now d
  | RecordSyncPoint t ids => record_sync_point t ids d
  | Clear => clear d
  end.

Definition detector_run (d : RaceDetector) (calls : list DetectorCall)
  : RaceDetector := foldl detector_step d calls.

(** ** A host for closed examples

    Conversions of payloads that already have the requested type; the
    [n]-th uuid starts with the eight hexadecimal digits of [n].  The
    examples contain no float, and this host renders every float as the
    empty string. *)

Definition hex_digit (d : N) : string :=
  String.substring (N.to_nat d) 1 "0123456789abcdef".

Fixpoint hex_digits (k : nat) (n : N) : string :=
  match k with
  | O => ""
  | S k' => hex_digits k' (n / 16)%N ++ hex_digit (n mod 16)%N
  end.

#[export] Instance sample_host : Host := {|
  py_int r :=
    match r with
    | RInt z => Some z
    | RBool b => Some (if b then 1 else 0)
    | _ => None
    end;
  py_float r := match r with RFloat f => Some f | _ => None end;
  py_str r := match r with RStr s => s | _ => "" end;
  float_str _ := "";
  uuid4_hex n := hex_digits 8 (N.of_nat n) ++ "000000000000000000000000";
|}.


(** * Further parts of the engine *)

(** ** Type equality ([types.py], [type_equal]) *)

(** [type_equal] compares the kinds first and then the fields of the kind;
    on function types it compares the parameter lists pairwise and the
    return types, and does not read [optional_params]. *)
Fixpoint type_equal (a b : ty) : bool :=
  match a, b with
  | BoolType, BoolType | IntType, IntType | FloatType, FloatType
  | StringType, StringType | VoidType, VoidType => true
  | SetType a_of, SetType b_of => type_equal a_of b_of
  | ListType a_of, ListType b_of => type_equal a_of b_of
  | OptionType a_of, OptionType b_of => type_equal a_of b_of
  | RefType a_of, RefType b_of => type_equal a_of b_of
  | FutureType a_of, FutureType b_of => type_equal a_of b_of
  | ChannelType a_channel_type a_of, ChannelType b_channel_type b_of =>
      String.eqb a_channel_type b_channel_type && type_equal a_of b_of
  | MapType a_key a_value, MapType b_key b_value =>
      type_equal a_key b_key && type_equal a_value b_value
  | OpaqueType a_name, OpaqueType b_name => String.eqb a_name b_name
  | FnType a_params a_returns _, FnType b_params b_returns _ =>
      if negb (length a_params =? length b_params)%nat then false
      else if (fix zip_equal (pas pbs : list ty) : bool :=
                 match pas, pbs with
                 | pa :: pas', pb :: pbs' =>
                     if negb (type_equal pa pb) then false else zip_equal pas' pbs'
                 | _, _ => true
                 end) a_params b_params
      then type_equal a_returns b_returns
      else false
  | TaskType a_returns, TaskType b_returns => type_equal a_returns b_returns
  | AsyncFnType a_params a_returns, AsyncFnType b_params b_returns =>
      if negb (length a_params =? length b_params)%nat then false
      else if (fix zip_equal (pas pbs : list ty) : bool :=
                 match pas, pbs with
                 | pa :: pas', pb :: pbs' =>
                     if negb (type_equal pa pb) then false else zip_equal pas' pbs'
                 | _, _ => true
                 end) a_params b_params
      then type_equal a_returns b_returns
      else false
  | _, _ => false
  end.

Definition is_primitive_type (t : ty) : bool :=
  match t with
  | BoolType | IntType | FloatType | StringType | VoidType => true
  | _ => false
  end.

(** ** Combining validation results ([errors.py]) *)

(** A validation error carries a path, a message and the offending datum;
    a validation result carries a flag, its errors and a value. *)
Record ValidationError (Any : Type) : Type := mkValidationError {
  err_path : string;
  err_message : string;
  err_value : option Any;
}.
Arguments mkValidationError {Any} _ _ _.
Arguments err_path {Any} _.
Arguments err_message {Any} _.
Arguments err_value {Any} _.

Record ValidationResult (Any V : Type) : Type := mkValidationResult {
  vr_valid : bool;
  vr_errors : list (ValidationError Any);
  vr_value : option V;
}.
Arguments mkValidationResult {Any V} _ _ _.
Arguments vr_valid {Any V} _.
Arguments vr_errors {Any V} _.
Arguments vr_value {Any V} _.

Definition valid_result {Any V} (v : V) : ValidationResult Any V :=
  mkValidationResult true [] (Some v).

Definition invalid_result {Any V} (errors : list (ValidationError Any))
  : ValidationResult Any V :=
  mkValidationResult false errors None.

(** [combine_results]: the loop extends [all_errors] with each result's
    errors; the values kept are those that are not [None]. *)
Definition combine_results {Any V} (results : list (ValidationResult Any V))
  : ValidationResult Any (list V) :=
  let all_errors :=
    foldl (fun all_errors r => (all_errors ++ vr_errors r)%list) [] results in
  match all_errors with
  | _ :: _ => invalid_result all_errors
  | [] => valid_result (omap vr_value results)
  end.

(** ** Environments ([env.py]) *)

(** [ValueEnv.extend_many]: the bindings are written in list order into a
    copy of the dictionary. *)
Definition extend_many (env : ValueEnv) (bs : list (string * value)) : ValueEnv :=
  foldl (fun new_bindings b => <[b.1 := b.2]> new_bindings) (bindings env) bs.

(** ** The operator registry object ([domains/registry.py]) *)

(** What the registry's methods raise: [ValueError] for a duplicate
    registration, [KeyError] for an operator that is not registered, and
    [TypeError] for a wrong argument count or a wrong argument type (the
    exceptions' messages are made of the data recorded here). *)
Inductive registry_error : Type :=
| AlreadyRegistered (key : string)
| NotRegistered (ns name : string)
| ArityMismatch (ns name : string) (expected got : nat)
| ArgumentMismatch (ns name : string) (i : nat) (expected got : ty).

Definition check_arity (op : Operator) (arg_count : nat) : bool :=
  (length (op_params op) =? arg_count)%nat.

Definition op_qualified_name (op : Operator) : string :=
  op_ns op ++ ":" ++ op_name op.

(** [register] mutates the registry: the result is the exception raised,
    if any, and the registry afterwards. *)
Definition register (operator : Operator) (reg : OperatorRegistry)
  : option registry_error * OperatorRegistry :=
  let key := op_qualified_name operator in
  match reg !! key with
  | Some _ => (Some (AlreadyRegistered key), reg)
  | None => (None, <[key := operator]> reg)
  end.

(** [register_all]: the loop stops at the first registration that raises;
    what was registered before stays registered. *)
Fixpoint register_all (operators : list Operator) (reg : OperatorRegistry)
  : option registry_error * OperatorRegistry :=
  match operators with
  | [] => (None, reg)
  | op :: rest =>
      match register op reg with
      | (Some e, reg') => (Some e, reg')
      | (None, reg') => register_all rest reg'
      end
  end.

Definition registry_get (reg : OperatorRegistry) (ns name : string)
  : registry_error + Operator :=
  match registry_lookup reg ns name with
  | None => inl (NotRegistered ns name)
  | Some op => inr op
  end.

Definition registry_has (reg : OperatorRegistry) (ns name : string) : bool :=
  bool_decide (is_Some (reg !! (ns ++ ":" ++ name))).

(** The loop of [check_call] over [zip(op.params, arg_types)], from index
    [i] on: the first pair that is not [type_equal]. *)
Fixpoint first_mismatch (i : nat) (params arg_types : list ty)
  : option (nat * ty * ty) :=
  match params, arg_types with
  | expected :: params', got :: arg_types' =>
      if negb (type_equal expected got) then Some (i, expected, got)
      else first_mismatch (S i) params' arg_types'
  | _, _ => None
  end.

Definition check_call (reg : OperatorRegistry) (ns name : string)
    (arg_types : list ty) : registry_error + ty :=
  match registry_get reg ns name with
  | inl e => inl e
  | inr op =>
      if negb (check_arity op (length arg_types)) then
        inl (ArityMismatch ns name (length (op_params op)) (length arg_types))
      else
        match first_mismatch 0 (op_params op) arg_types with
        | Some (i, expected, got) => inl (ArgumentMismatch ns name i expected got)
        | None => inr (op_returns op)
        end
  end.

(** ** The core domain ([domains/core.py])

    The operators' implementations, as functions of their arguments; an
    exception an implementation raises is the [ImplException] result with
    the exception's text.  Python integers are unbounded ([Z]); floats are
    binary64. *)

Module CoreDomain.

(** [float(n)] for an integer: the nearest float, ties to even;
    [OverflowError] when the integer is too large. *)
Definition float_of_int (n : Z) : string + float :=
  match SpecFloat.binary_normalize prec emax n 0 false with
  | SpecFloat.S754_infinity _ => inl "int too large to convert to float"
  | sf => inr (SF2Prim sf)
  end.

(** [int(x)] for a float: truncation toward zero. *)
Definition int_of_float (x : float) : string + Z :=
  match Prim2SF x with
  | SpecFloat.S754_zero _ => inr 0
  | SpecFloat.S754_finite s m e =>
      let n := if 0 <=? e then Z.pos m * 2 ^ e else Z.pos m / 2 ^ (- e) in
      inr (if s then - n else n)
  | SpecFloat.S754_infinity _ => inl "cannot convert float infinity to integer"
  | SpecFloat.S754_nan => inl "cannot convert float NaN to integer"
  end.

(** [v.message or v.code] for an error value. *)
Definition message_or_code (v : value) : string :=
  match v with
  | ErrorVal code (Some message) _ =>
      if String.eqb message "" then code else message
  | ErrorVal code None _ => code
  | _ => ""
  end.

(** Continue with the result of a step that may raise. *)
Definition try_ {A} (r : string + A) (k : A -> impl_result) : impl_result :=
  match r with
  | inl msg => ImplException msg
  | inr a => k a
  end.

Definition expect_int (v : value) : string + Z :=
  match v with
  | IntVal z => inr z
  | ErrorVal _ _ _ => inl (message_or_code v)
  | _ => inl ("Expected int, got " ++ kind v)
  end.

Definition get_numeric (v : value) : string + float :=
  match v with
  | IntVal z => float_of_int z
  | FloatVal f => inr f
  | ErrorVal _ _ _ => inl (message_or_code v)
  | _ => inl ("Expected numeric, got " ++ kind v)
  end.

Definition _add_impl (a b : value) : impl_result :=
  if is_error a then ImplRet a
  else if is_error b then ImplRet b
  else
    match a, b with
    | IntVal x, IntVal y => ImplRet (IntVal (x + y))
    | _, _ =>
        try_ (get_numeric a) (fun x =>
        try_ (get_numeric b) (fun y => ImplRet (FloatVal (x + y)%float)))
    end.

Definition _sub_impl (a b : value) : impl_result :=
  if is_error a then ImplRet a
  else if is_error b then ImplRet b
  else
    match a, b with
    | IntVal x, IntVal y => ImplRet (IntVal (x - y))
    | _, _ =>
        try_ (get_numeric a) (fun x =>
        try_ (get_numeric b) (fun y => ImplRet (FloatVal (x - y)%float)))
    end.

Definition _mul_impl (a b : value) : impl_result :=
  if is_error a then ImplRet a
  else if is_error b then ImplRet b
  else
    match a, b with
    | IntVal x, IntVal y => ImplRet (IntVal (x * y))
    | _, _ =>
        try_ (get_numeric a) (fun x =>
        try_ (get_numeric b) (fun y => ImplRet (FloatVal (x * y)%float)))
    end.

(** [div]: the divisor is read and compared with zero first; two integers
    are divided as floats and the quotient truncated. *)
Definition _div_impl (a b : value) : impl_result :=
  if is_error a then ImplRet a
  else if is_error b then ImplRet b
  else
    try_ (get_numeric b) (fun bv =>
      if PrimFloat.eqb bv 0%float then
        ImplRet (error_val ErrorCodes.DIVIDE_BY_ZERO "Division by zero")
      else
        match a, b with
        | IntVal x, IntVal _ =>
            try_ (float_of_int x) (fun xf =>
            try_ (int_of_float (xf / bv)%float) (fun q => ImplRet (IntVal q)))
        | _, _ =>
            try_ (get_numeric a) (fun x => ImplRet (FloatVal (x / bv)%float))
        end).

(** [mod]: integers only; Python's [%] takes the sign of the divisor, as
    [Z.modulo] does. *)
Definition _mod_impl (a b : value) : impl_result :=
  if is_error a then ImplRet a
  else if is_error b then ImplRet b
  else
    try_ (expect_int b) (fun bv =>
      if bv =? 0 then
        ImplRet (error_val ErrorCodes.DIVIDE_BY_ZERO "Modulo by zero")
      else
        try_ (expect_int a) (fun av => ImplRet (IntVal (av mod bv)))).

Definition _neg_impl (a : value) : impl_result :=
  if is_error a then ImplRet a
  else
    match a with
    | IntVal x => ImplRet (IntVal (- x))
    | FloatVal x => ImplRet (FloatVal (- x)%float)
    | _ => ImplRet (error_val ErrorCodes.TYPE_ERROR "Expected numeric value")
    end.

Definition _eq_impl (a b : value) : impl_result :=
  if is_error a then ImplRet a
  else if is_error b then ImplRet b
  else
    match a, b with
    | IntVal x, IntVal y => ImplRet (BoolVal (x =? y))
    | FloatVal x, FloatVal y => ImplRet (BoolVal (PrimFloat.eqb x y))
    | StringVal x, StringVal y => ImplRet (BoolVal (String.eqb x y))
    | _, _ =>
        try_ (get_numeric a) (fun x =>
        try_ (get_numeric b) (fun y => ImplRet (BoolVal (PrimFloat.eqb x y))))
    end.

Definition _neq_impl (a b : value) : impl_result :=
  if is_error a then ImplRet a
  else if is_error b then ImplRet b
  else
    match a, b with
    | IntVal x, IntVal y => ImplRet (BoolVal (negb (x =? y)))
    | FloatVal x, FloatVal y => ImplRet (BoolVal (negb (PrimFloat.eqb x y)))
    | StringVal x, StringVal y => ImplRet (BoolVal (negb (String.eqb x y)))
    | _, _ =>
        try_ (get_numeric a) (fun x =>
        try_ (get_numeric b) (fun y => ImplRet (BoolVal (negb (PrimFloat.eqb x y)))))
    end.

Definition _lt_impl (a b : value) : impl_result :=
  if is_error a then ImplRet a
  else if is_error b then ImplRet b
  else
    try_ (get_numeric a) (fun x =>
    try_ (get_numeric b) (fun y => ImplRet (BoolVal (PrimFloat.ltb x y)))).

Definition _lte_impl (a b : value) : impl_result :=
  if is_error a then ImplRet a
  else if is_error b then ImplRet b
  else
    try_ (get_numeric a) (fun x =>
    try_ (get_numeric b) (fun y => ImplRet (BoolVal (PrimFloat.leb x y)))).

Definition _gt_impl (a b : value) : impl_result :=
  if is_error a then ImplRet a
  else if is_error b then ImplRet b
  else
    try_ (get_numeric a) (fun x =>
    try_ (get_numeric b) (fun y => ImplRet (BoolVal (PrimFloat.ltb y x)))).

Definition _gte_impl (a b : value) : impl_result :=
  if is_error a then ImplRet a
  else if is_error b then ImplRet b
  else
    try_ (get_numeric a) (fun x =>
    try_ (get_numeric b) (fun y => ImplRet (BoolVal (PrimFloat.leb y x)))).

Definition _concat_impl (a b : value) : impl_result :=
  if is_error a then ImplRet a
  else if is_error b then ImplRet b
  else
    match a, b with
    | StringVal x, StringVal y => ImplRet (StringVal (x ++ y))
    | _, _ => ImplRet (error_val ErrorCodes.TYPE_ERROR "concat expects string arguments")
    end.

(** [substring]: a negative start counts as zero; the slice
    [str_val[start_val:end_val]] is taken with
    [0 <= start_val < len(str_val)] and [start_val <= end_val <= len(str_val)]. *)
Definition _substring_impl (s start length : value) : impl_result :=
  if is_error s then ImplRet s
  else if is_error start then ImplRet start
  else if is_error length then ImplRet length
  else
    match s with
    | StringVal str_val =>
        match start, length with
        | IntVal start_val, IntVal length_val =>
            let len := Z.of_nat (String.length str_val) in
            let start_val := if start_val <? 0 then 0 else start_val in
            if len <=? start_val then ImplRet (StringVal "")
            else if length_val <? 0 then ImplRet (StringVal "")
            else
              let end_val := Z.min (start_val + length_val) len in
              ImplRet (StringVal (String.substring (Z.to_nat start_val)
                                    (Z.to_nat (end_val - start_val)) str_val))
        | _, _ =>
            ImplRet (error_val ErrorCodes.TYPE_ERROR "substring expects int indices")
        end
    | _ =>
        ImplRet (error_val ErrorCodes.TYPE_ERROR
                   "substring expects string as first argument")
    end.

End CoreDomain.

(** ** The list domain ([domains/list.py]) *)

Module ListDomain.

Definition _length_impl (a : value) : impl_result :=
  if is_error a then ImplRet a
  else
    match a with
    | ListVal l => ImplRet (IntVal (Z.of_nat (length l)))
    | _ => ImplRet (error_val ErrorCodes.TYPE_ERROR "Expected list value")
    end.

Definition _concat_impl (a b : value) : impl_result :=
  if is_error a then ImplRet a
  else if is_error b then ImplRet b
  else
    match a, b with
    | ListVal x, ListVal y => ImplRet (ListVal (x ++ y))
    | _, _ => ImplRet (error_val ErrorCodes.TYPE_ERROR "Expected list values")
    end.

Definition _nth_impl (a b : value) : impl_result :=
  if is_error a then ImplRet a
  else if is_error b then ImplRet b
  else
    match a with
    | ListVal l =>
        match b with
        | IntVal idx =>
            if (idx <? 0) || (Z.of_nat (length l) <=? idx) then
              ImplRet (error_val ErrorCodes.DOMAIN_ERROR
                         ("Index out of bounds: " ++ pretty idx))
            else
              match l !! Z.to_nat idx with
              | Some result => ImplRet result
              | None => ImplException "list index out of range"
              end
        | _ => ImplRet (error_val ErrorCodes.TYPE_ERROR "Expected int index")
        end
    | _ => ImplRet (error_val ErrorCodes.TYPE_ERROR "Expected list value")
    end.

Definition _reverse_impl (a : value) : impl_result :=
  if is_error a then ImplRet a
  else
    match a with
    | ListVal l => ImplRet (ListVal (reverse l))
    | _ => ImplRet (error_val ErrorCodes.TYPE_ERROR "Expected list value")
    end.

(** [a.value[:n]] with [0 <= n]. *)
Definition _take_impl (a b : value) : impl_result :=
  if is_error a then ImplRet a
  else if is_error b then ImplRet b
  else
    match a with
    | ListVal l =>
        match b with
        | IntVal n =>
            if n <? 0 then
              ImplRet (error_val ErrorCodes.DOMAIN_ERROR
                         ("Count must be non-negative: " ++ pretty n))
            else ImplRet (ListVal (take (Z.to_nat n) l))
        | _ => ImplRet (error_val ErrorCodes.TYPE_ERROR "Expected int count")
        end
    | _ => ImplRet (error_val ErrorCodes.TYPE_ERROR "Expected list value")
    end.

(** [a.value[n:]] with [0 <= n]. *)
Definition _drop_impl (a b : value) : impl_result :=
  if is_error a then ImplRet a
  else if is_error b then ImplRet b
  else
    match a with
    | ListVal l =>
        match b with
        | IntVal n =>
            if n <? 0 then
              ImplRet (error_val ErrorCodes.DOMAIN_ERROR
                         ("Count must be non-negative: " ++ pretty n))
            else ImplRet (ListVal (drop (Z.to_nat n) l))
        | _ => ImplRet (error_val ErrorCodes.TYPE_ERROR "Expected int count")
        end
    | _ => ImplRet (error_val ErrorCodes.TYPE_ERROR "Expected list value")
    end.

(** [a.value[start:end]] with [0 <= start <= end]. *)
Definition _slice_impl (a b c : value) : impl_result :=
  if is_error a then ImplRet a
  else if is_error b then ImplRet b
  else if is_error c then ImplRet c
  else
    match a with
    | ListVal l =>
        match b, c with
        | IntVal start, IntVal end_ =>
            if start <? 0 then
              ImplRet (error_val ErrorCodes.DOMAIN_ERROR
                         ("Start index must be non-negative: " ++ pretty start))
            else if end_ <? start then
              ImplRet (error_val ErrorCodes.DOMAIN_ERROR
                         ("End index must be >= start: " ++ pretty end_ ++ " < "
                          ++ pretty start))
            else
              ImplRet (ListVal (take (Z.to_nat end_ - Z.to_nat start)%nat
                                  (drop (Z.to_nat start) l)))
        | _, _ => ImplRet (error_val ErrorCodes.TYPE_ERROR "Expected int indices")
        end
    | _ => ImplRet (error_val ErrorCodes.TYPE_ERROR "Expected list value")
    end.

End ListDomain.

(** ** The set domain ([domains/set.py])

    A set value holds the hashes of its elements.  [contains] hashes the
    element it is asked about, so it runs in the evaluation monad. *)

Module SetDomain.

Definition _union_impl (a b : value) : impl_result :=
  if is_error a then ImplRet a
  else if is_error b then ImplRet b
  else
    match a, b with
    | SetVal x, SetVal y => ImplRet (SetVal (x ∪ y))
    | _, _ => ImplRet (error_val ErrorCodes.TYPE_ERROR "Expected set values")
    end.

Definition _intersect_impl (a b : value) : impl_result :=
  if is_error a then ImplRet a
  else if is_error b then ImplRet b
  else
    match a, b with
    | SetVal x, SetVal y => ImplRet (SetVal (x ∩ y))
    | _, _ => ImplRet (error_val ErrorCodes.TYPE_ERROR "Expected set values")
    end.

Definition _difference_impl (a b : value) : impl_result :=
  if is_error a then ImplRet a
  else if is_error b then ImplRet b
  else
    match a, b with
    | SetVal x, SetVal y => ImplRet (SetVal (x ∖ y))
    | _, _ => ImplRet (error_val ErrorCodes.TYPE_ERROR "Expected set values")
    end.

Definition _contains_impl `{Host} (a b : value) : M value :=
  if is_error a then ret a
  else if is_error b then ret b
  else
    match a with
    | SetVal x => h <- hash_value b ;; ret (BoolVal (bool_decide (h ∈ x)))
    | _ => ret (error_val ErrorCodes.TYPE_ERROR "Expected set value")
    end.

Definition _size_impl (a : value) : impl_result :=
  if is_error a then ImplRet a
  else
    match a with
    | SetVal x => ImplRet (IntVal (Z.of_nat (size x)))
    | _ => ImplRet (error_val ErrorCodes.TYPE_ERROR "Expected set value")
    end.

Definition _is_subset_impl (a b : value) : impl_result :=
  if is_error a then ImplRet a
  else if is_error b then ImplRet b
  else
    match a, b with
    | SetVal x, SetVal y => ImplRet (BoolVal (bool_decide (x ⊆ y)))
    | _, _ => ImplRet (error_val ErrorCodes.TYPE_ERROR "Expected set values")
    end.

Definition _is_disjoint_impl (a b : value) : impl_result :=
  if is_error a then ImplRet a
  else if is_error b then ImplRet b
  else
    match a, b with
    | SetVal x, SetVal y => ImplRet (BoolVal (bool_decide (x ## y)))
    | _, _ => ImplRet (error_val ErrorCodes.TYPE_ERROR "Expected set values")
    end.

End SetDomain.

(** ** Program evaluation ([evaluator.py], [evaluate_program])

    A node of a document is an expression node when it has an [expr] and a
    block node otherwise. *)

Record ProgramNode : Type := mkProgramNode {
  pn_id : string;
  pn_expr : option expr;
}.

(** [doc.get("nodes", [])] and [doc.get("result", "")]. *)
Record ProgramDocument : Type := mkProgramDocument {
  prog_nodes : option (list ProgramNode);
  prog_result : option string;
}.

(** The loop over the nodes: [inl v] is the early [return value] of a node
    whose value is an error value, [inr node_values] the table when the
    loop completes.  Every expression is evaluated in [env]; the number of
    uuids drawn so far is threaded through the calls of [evaluate]. *)
Fixpoint evaluate_nodes `{Host} (registry : OperatorRegistry)
    (nodes : list ProgramNode) (env : ValueEnv) (options : option EvalOptions)
    (node_values : gmap string value) (drawn : nat)
    : outcome (value + gmap string value) * nat :=
  match nodes with
  | [] => (Ret (inr node_values), drawn)
  | node :: rest =>
      match pn_expr node with
      | Some e =>
          let '(r, w) := evaluate registry e env options drawn in
          match r with
          | Ret (Val v) =>
              let node_values := <[pn_id node := v]> node_values in
              if is_error v then (Ret (inl v), uuid_drawn w)
              else evaluate_nodes registry rest env options node_values (uuid_drawn w)
          | Ret (ErrorDict _ _) =>
              (* [is_error(value)] reads [value.kind] *)
              (Raise (HostError "AttributeError"), uuid_drawn w)
          | Raise exn => (Raise exn, uuid_drawn w)
          | OutOfFuel => (OutOfFuel, uuid_drawn w)
          end
      | None =>
          evaluate_nodes registry rest env options
            (<[pn_id node := VoidVal]> node_values) drawn
      end
  end.

Definition evaluate_program `{Host} (doc : ProgramDocument)
    (registry : OperatorRegistry) (inputs : option (gmap string value))
    (options : option EvalOptions) (drawn : nat) : outcome value * nat :=
  let nodes := default [] (prog_nodes doc) in
  let result_ref := default "" (prog_result doc) in
  let env := mkValueEnv (default ∅ inputs) in
  match evaluate_nodes registry nodes env options ∅ drawn with
  | (Ret (inl v), drawn') => (Ret v, drawn')
  | (Ret (inr node_values), drawn') =>
      match node_values !! result_ref with
      | None =>
          (Ret (error_val ErrorCodes.DOMAIN_ERROR
                  ("Result node not evaluated: " ++ result_ref)), drawn')
      | Some result_value => (Ret result_value, drawn')
      end
  | (Raise exn, drawn') => (Raise exn, drawn')
  | (OutOfFuel, drawn') => (OutOfFuel, drawn')
  end.

(** ** More of the default task scheduler ([scheduler.py]) *)

Definition active_task_count (s : DefaultTaskScheduler) : nat := size (_tasks s).

Definition global_steps (s : DefaultTaskScheduler) : Z := _global_steps s.

(** What [await_task] does for its caller: it raises [ValueError] when the
    table has no entry, returns a value, re-raises what the task's body
    raised, raises [CancelledError], or suspends until the task's future is
    done. *)
Inductive await_result : Type :=
| AwaitNotFound
| AwaitReturns (v : value)
| AwaitRaises
| AwaitCancelled
| AwaitSuspends.

Definition await_task (id : string) (s : DefaultTaskScheduler) : await_result :=
  match _tasks s !! id with
  | None => AwaitNotFound
  | Some h =>
      match task_objects s !! h with
      | None => AwaitNotFound
      | Some task =>
          match status task, result task with
          | COMPLETED, Some cached => AwaitReturns cached
          | _, _ =>
              match future task with
              | FutResult v => AwaitReturns v
              | FutException => AwaitRaises
              | FutCancelled => AwaitCancelled
              | FutPending => AwaitSuspends
              end
          end
      end
  end.

(** What [check_global_steps] does after counting the step: it raises
    [RuntimeError] beyond the limit, otherwise it takes the counter modulo
    the yield interval, which raises [ZeroDivisionError] for an interval of
    zero, and yields to the event loop when the remainder is zero. *)
Inductive step_check : Type :=
| StepLimitExceeded
| StepZeroDivision
| StepCounted (yields : bool).

Definition check_global_steps (s : DefaultTaskScheduler)
  : step_check * DefaultTaskScheduler :=
  let s' :=
    mkDefaultTaskScheduler (_tasks s) (task_objects s) (_global_steps s + 1)
      (_global_max_steps s) (_yield_interval s) (_current_task_id s) in
  if _global_steps s' >? _global_max_steps s' then (StepLimitExceeded, s')
  else if _yield_interval s' =? 0 then (StepZeroDivision, s')
  else (StepCounted (_global_steps s' mod _yield_interval s' =? 0), s').

(** ** The barrier ([scheduler.py], [AsyncBarrier])

    The futures that [wait] creates are kept in a store and named by the
    index at which they were created; [true] marks a future that is done. *)

Record AsyncBarrier : Type := mkAsyncBarrier {
  _count : Z;
  _waiting : list nat;
  _release_in_progress : bool;
  barrier_futures : list bool;
}.

(** [AsyncBarrier(count)] raises [ValueError] for a count that is not
    positive. *)
Definition new_barrier (count : Z) : option AsyncBarrier :=
  if count <=? 0 then None else Some (mkAsyncBarrier count [] false []).

(** What [wait] does for its caller: it goes on at once, or it suspends on
    a new future. *)
Inductive wait_result : Type :=
| WaitProceeds
| WaitSuspends (future : nat).

(** [waiter.set_result(None)] for every waiter that is not done. *)
Definition release (waiters : list nat) (futures : list bool) : list bool :=
  foldl (fun futures waiter => <[waiter := true]> futures) futures waiters.

Definition barrier_wait (b : AsyncBarrier) : wait_result * AsyncBarrier :=
  let count := _count b - 1 in
  if count =? 0 then
    if negb (_release_in_progress b) then
      (WaitProceeds,
       mkAsyncBarrier count [] false (release (_waiting b) (barrier_futures b)))
    else
      (WaitProceeds,
       mkAsyncBarrier count (_waiting b) (_release_in_progress b) (barrier_futures b))
  else
    let future := length (barrier_futures b) in
    (WaitSuspends future,
     mkAsyncBarrier count (_waiting b ++ [future]) (_release_in_progress b)
       (barrier_futures b ++ [false])).

(** [reset(count)]: [None] is the [ValueError]. *)
Definition barrier_reset (count : Z) (b : AsyncBarrier) : option AsyncBarrier :=
  if count <=? 0 then None
  else Some (mkAsyncBarrier count [] false (barrier_futures b)).

(** ** Statistics of the race detector ([detectors.py], [RaceDetector.get_stats]) *)

Record RaceStats : Type := mkRaceStats {
  total_accesses : nat;
  locations : nat;
  sync_points_count : nat;
}.

Definition get_stats (d : RaceDetector) : RaceStats :=
  mkRaceStats
    (foldr Nat.add 0%nat (map (fun entry => length entry.2) (accesses d)))
    (length (accesses d))
    (size (sync_points d)).

(** ** Dictionaries whose order of insertion is observed

    A Python dictionary that the code iterates is an association list with
    one entry per key, in the order in which the keys were first set. *)

Fixpoint alist_get {A} (k : string) (l : list (string * A)) : option A :=
  match l with
  | [] => None
  | (k', v) :: rest => if String.eqb k' k then Some v else alist_get k rest
  end.

(** [d[k] = v]: an existing key keeps its place, a new key goes last. *)
Fixpoint alist_set {A} (k : string) (v : A) (l : list (string * A))
  : list (string * A) :=
  match l with
  | [] => [(k, v)]
  | (k', v') :: rest =>
      if String.eqb k' k then (k', v) :: rest else (k', v') :: alist_set k v rest
  end.

(** [del d[k]]. *)
Fixpoint alist_del {A} (k : string) (l : list (string * A)) : list (string * A) :=
  match l with
  | [] => []
  | (k', v') :: rest =>
      if String.eqb k' k then rest else (k', v') :: alist_del k rest
  end.

(** ** The order in which a set is iterated

    Python does not say in which order [for x in s] visits a set of
    strings.  Two sets with the same elements may be visited in different
    orders, but one set is visited in the same order each time as long as
    it is not changed.  [iter o s] is the order for the set [o] of the
    detector while its elements are [s], some enumeration of them. *)

Inductive set_object : Type :=
| WaitingLocks (task_id : string)   (* [wait_graph[task_id]] *)
| Dependencies (task_id : string).  (* [task_graph[task_id]] *)

Class SetIteration : Type := {
  iter : set_object -> gset string -> list string;
  iter_elements : forall o s, iter o s ≡ₚ elements s;
}.

(** ** The deadlock detector ([detectors.py], [DeadlockDetector]) *)

Module Deadlock.

Record LockAcquisition : Type := mkLockAcquisition {
  la_task_id : string;
  la_lock_id : string;
  la_timestamp : float;
  la_acquired : bool;
}.

Record DeadlockCycle : Type := mkDeadlockCycle {
  cycle : list string;
  locks : list string;
  cycle_description : string;
}.

Record DeadlockDetector : Type := mkDeadlockDetector {
  dd_options : DetectionOptions;
  lock_holders : gmap string string;
  wait_graph : list (string * gset string);
  acquisition_history : list LockAcquisition;
  _default_timeout : Z;
}.

Definition new_deadlock_detector (options : option DetectionOptions)
  : DeadlockDetector :=
  let options := default default_DetectionOptions options in
  mkDeadlockDetector options ∅ [] [] (deadlock_timeout options).

(** [track_lock_acquisition]; [now] is the clock reading.  With
    [auto_detect] the source also runs [detect_deadlock] and logs a
    warning; [detect_deadlock] changes nothing in the detector and always
    returns ([detect_deadlock_sound] below). *)
Definition track_lock_acquisition (task_id lock_id : string) (now : float)
    (d : DeadlockDetector) : DeadlockDetector :=
  if negb (enable_deadlock_detection (dd_options d)) then d
  else
    let acquisition := mkLockAcquisition task_id lock_id now false in
    mkDeadlockDetector (dd_options d) (lock_holders d)
      (alist_set task_id
         (default ∅ (alist_get task_id (wait_graph d)) ∪ {[lock_id]})
         (wait_graph d))
      (acquisition_history d ++ [acquisition])
      (_default_timeout d).

(** The loop over [reversed(self.acquisition_history)], on the reversed
    list: the first entry for the task and the lock that is not acquired
    yet is marked. *)
Fixpoint mark_acquired (task_id lock_id : string)
    (reversed_history : list LockAcquisition) : list LockAcquisition :=
  match reversed_history with
  | [] => []
  | acquisition :: rest =>
      if String.eqb (la_task_id acquisition) task_id
         && String.eqb (la_lock_id acquisition) lock_id
         && negb (la_acquired acquisition)
      then mkLockAcquisition (la_task_id acquisition) (la_lock_id acquisition)
             (la_timestamp acquisition) true :: rest
      else acquisition :: mark_acquired task_id lock_id rest
  end.

Definition track_lock_acquired (task_id lock_id : string) (d : DeadlockDetector)
  : DeadlockDetector :=
  if negb (enable_deadlock_detection (dd_options d)) then d
  else
    let history :=
      reverse (mark_acquired task_id lock_id (reverse (acquisition_history d))) in
    let wait_graph :=
      match alist_get task_id (wait_graph d) with
      | Some waiting =>
          let waiting := waiting ∖ {[lock_id]} in
          if bool_decide (waiting = ∅) then alist_del task_id (wait_graph d)
          else alist_set task_id waiting (wait_graph d)
      | None => wait_graph d
      end in
    mkDeadlockDetector (dd_options d) (<[lock_id := task_id]> (lock_holders d))
      wait_graph history (_default_timeout d).

Definition track_lock_release (task_id lock_id : string) (d : DeadlockDetector)
  : DeadlockDetector :=
  if negb (enable_deadlock_detection (dd_options d)) then d
  else if bool_decide (lock_holders d !! lock_id = Some task_id) then
    mkDeadlockDetector (dd_options d) (delete lock_id (lock_holders d))
      (wait_graph d) (acquisition_history d) (_default_timeout d)
  else d.

Definition clear (d : DeadlockDetector) : DeadlockDetector :=
  mkDeadlockDetector (dd_options d) ∅ [] [] (_default_timeout d).

Section Detection.
Context `{SetIteration}.

(** [lock_waiters[lock_id].append(task_id)], creating the list when the
    lock is new. *)
Definition add_waiter (lock_id task_id : string)
    (lock_waiters : list (string * list string)) : list (string * list string) :=
  alist_set lock_id
    (default [] (alist_get lock_id lock_waiters) ++ [task_id])%list lock_waiters.

(** [task_graph[waiter].add(holder)], creating the set when the waiter is
    new. *)
Definition add_dependency (waiter holder : string)
    (task_graph : list (string * gset string)) : list (string * gset string) :=
  alist_set waiter (default ∅ (alist_get waiter task_graph) ∪ {[holder]}) task_graph.

Definition lock_waiters_of (wait_graph : list (string * gset string))
  : list (string * list string) :=
  foldl (fun lock_waiters entry =>
           foldl (fun lock_waiters lock_id => add_waiter lock_id entry.1 lock_waiters)
             lock_waiters (iter (WaitingLocks entry.1) entry.2))
    [] wait_graph.

Definition _build_task_dependency_graph (d : DeadlockDetector)
  : list (string * gset string) :=
  foldl (fun task_graph entry =>
           match truthy (lock_holders d !! entry.1) with
           | Some holder =>
               foldl (fun task_graph waiter => add_dependency waiter holder task_graph)
                 task_graph entry.2
           | None => task_graph
           end)
    [] (lock_waiters_of (wait_graph d)).

(** The lock that [current_task] waits for and [next_task] holds: the
    first one in the order in which the set is iterated. *)
Definition lock_between (d : DeadlockDetector) (current_task next_task : string)
  : option string :=
  find (fun lock_id =>
          match truthy (lock_holders d !! lock_id) with
          | Some holder => String.eqb holder next_task
          | None => false
          end)
    (iter (WaitingLocks current_task)
       (default ∅ (alist_get current_task (wait_graph d)))).

(** [cycle[(i + 1) % len(cycle)]]. *)
Definition next_in_cycle (cycle : list string) (i : nat) : option string :=
  cycle !! ((i + 1) mod length cycle)%nat.

Definition _extract_locks_for_cycle (d : DeadlockDetector) (cycle : list string)
  : list string :=
  omap (fun i =>
          match cycle !! i, next_in_cycle cycle i with
          | Some current_task, Some next_task => lock_between d current_task next_task
          | _, _ => None
          end)
    (seq 0 (length cycle)).

Definition quoted (s : string) : string :=
  String (Ascii.ascii_of_nat 34) s ++ String (Ascii.ascii_of_nat 34) "".

Definition _generate_deadlock_description (cycle locks : list string) : string :=
  let parts :=
    omap (fun i =>
            match cycle !! i, next_in_cycle cycle i with
            | Some task, Some next_task =>
                let lock := default "?" (locks !! i) in
                Some ("task " ++ quoted task ++ " is waiting for lock " ++ quoted lock
                      ++ " held by task " ++ quoted next_task)
            | _, _ => None
            end)
      (seq 0 (length cycle)) in
  "Deadlock detected: " ++ String.concat ", " parts
  ++ ". This circular wait condition will never resolve without intervention.".

(** The lists and sets the search mutates. *)
Record SearchState : Type := mkSearchState {
  visited : gset string;
  rec_stack : gset string;
  path : list string;
  lock_path : list string;
  cycles : list DeadlockCycle;
}.

Definition search_get : St SearchState SearchState := fun st => (Ret st, st).
Definition search_modify (f : SearchState -> SearchState) : St SearchState unit :=
  fun st => (Ret tt, f st).

(** [for x in xs: body(x)]. *)
Fixpoint for_each {S A} (xs : list A) (body : A -> St S unit) : St S unit :=
  match xs with
  | [] => ret tt
  | x :: rest => body x ;;; for_each rest body
  end.

(** [path.index(dep_id)]. *)
Fixpoint index_of (x : string) (l : list string) : option nat :=
  match l with
  | [] => None
  | y :: rest => if String.eqb y x then Some 0%nat else S <$> index_of x rest
  end.

(** [lst.pop()], which raises [IndexError] on an empty list. *)
Definition pop (l : list string) : option (list string) :=
  match l with
  | [] => None
  | _ => Some (removelast l)
  end.

Definition enter (task_id : string) (waiting_locks : gset string)
    (st : SearchState) : SearchState :=
  mkSearchState ({[task_id]} ∪ visited st) ({[task_id]} ∪ rec_stack st)
    (path st ++ [task_id])
    (lock_path st ++ iter (WaitingLocks task_id) waiting_locks) (cycles st).

Definition report (d : DeadlockDetector) (cycle_start : nat) (st : SearchState)
  : SearchState :=
  let cycle := drop cycle_start (path st) in
  let locks := _extract_locks_for_cycle d cycle in
  mkSearchState (visited st) (rec_stack st) (path st) (lock_path st)
    (cycles st ++ [mkDeadlockCycle cycle locks
                     (_generate_deadlock_description cycle locks)]).

Definition pop_path : St SearchState unit :=
  st <- search_get ;;
  match pop (path st) with
  | None => raise (HostError "IndexError")
  | Some path' =>
      search_modify (fun st =>
        mkSearchState (visited st) (rec_stack st) path' (lock_path st) (cycles st))
  end.

Definition pop_lock_path : St SearchState unit :=
  st <- search_get ;;
  match pop (lock_path st) with
  | None => raise (HostError "IndexError")
  | Some lock_path' =>
      search_modify (fun st =>
        mkSearchState (visited st) (rec_stack st) (path st) lock_path' (cycles st))
  end.

(** [_detect_cycles_dfs].  A call is made for a task that is not visited
    yet, so the depth of the recursion is bounded by the number of tasks of
    the graph; [fuel] is that depth.  The limit that Python itself puts on
    the depth of a recursion is not modelled. *)
Fixpoint _detect_cycles_dfs (fuel : nat) (d : DeadlockDetector)
    (graph : list (string * gset string)) (task_id : string) : St SearchState unit :=
  match fuel with
  | O => out_of_fuel
  | S fuel' =>
      let waiting_locks := default ∅ (alist_get task_id (wait_graph d)) in
      search_modify (enter task_id waiting_locks) ;;;
      let dependencies := default ∅ (alist_get task_id graph) in
      for_each (iter (Dependencies task_id) dependencies) (fun dep_id =>
        st <- search_get ;;
        if negb (bool_decide (dep_id ∈ visited st)) then
          _detect_cycles_dfs fuel' d graph dep_id
        else if bool_decide (dep_id ∈ rec_stack st) then
          match index_of dep_id (path st) with
          | None => raise (HostError "ValueError")
          | Some cycle_start => search_modify (report d cycle_start)
          end
        else ret tt) ;;;
      search_modify (fun st =>
        mkSearchState (visited st) (rec_stack st ∖ {[task_id]}) (path st)
          (lock_path st) (cycles st)) ;;;
      pop_path ;;;
      for_each (iter (WaitingLocks task_id) waiting_locks) (fun _ => pop_lock_path)
  end.

(** The tasks of a graph: those that wait and those waited for. *)
Definition graph_tasks (graph : list (string * gset string)) : gset string :=
  list_to_set graph.*1 ∪ ⋃ graph.*2.

Definition detect_deadlock (d : DeadlockDetector) : outcome (list DeadlockCycle) :=
  if negb (enable_deadlock_detection (dd_options d)) then Ret []
  else
    let task_graph := _build_task_dependency_graph d in
    let search :=
      for_each task_graph.*1 (fun task_id =>
        st <- search_get ;;
        if negb (bool_decide (task_id ∈ visited st)) then
          _detect_cycles_dfs (S (size (graph_tasks task_graph))) d task_graph task_id
        else ret tt) in
    match search (mkSearchState ∅ ∅ [] [] []) with
    | (Ret _, st) => Ret (cycles st)
    | (Raise e, _) => Raise e
    | (OutOfFuel, _) => OutOfFuel
    end.

End Detection.

(** The calls that drive a detector. *)
Inductive DetectorCall : Type :=
| TrackLockAcquisition (task_id lock_id : string) (now : float)
| TrackLockAcquired (task_id lock_id : string)
| TrackLockRelease (task_id lock_id : string)
| Clear.

Definition detector_step (d : DeadlockDetector) (c : DetectorCall) : DeadlockDetector :=
  match c with
  | TrackLockAcquisition t l now => track_lock_acquisition t l now d
  | TrackLockAcquired t l => track_lock_acquired t l d
  | TrackLockRelease t l => track_lock_release t l d
  | Clear => clear d
  end.

Definition detector_run (d : DeadlockDetector) (calls : list DetectorCall)
  : DeadlockDetector := foldl detector_step d calls.

End Deadlock.

(** The order of [elements], for closed examples. *)
#[export] Instance sample_iteration : SetIteration := {|
  iter := fun _ => elements;
  iter_elements := fun _ s => reflexivity (elements s);
|}.
(** * Vocabulary of the statements *)

(** ** The step budget bounds the recursion of [_eval_expr] *)

(** A computation [m] respects the budget at depth [n]: it never lowers the
    step counter, never changes the budget, and does not run out of fuel
    when started with at most [n] steps left. *)
Definition within_budget {A} (n : nat) (m : M A) : Prop :=
  forall w r w', m w = (r, w') ->
    steps (ctx w) <= steps (ctx w')
    /\ max_steps (ctx w') = max_steps (ctx w)
    /\ (max_steps (ctx w) - steps (ctx w) <= Z.of_nat n -> r <> OutOfFuel).

(** ** Fix and function application *)

(** The example for [fix]: a one-parameter closure that captured [y = 1],
    in an environment where [y = 2]. *)
Definition fix_example_closure : value :=
  ClosureVal [mkLambdaParam "x" None false None] (VarExpr "y") {["y" := IntVal 1]}.
Definition fix_example_env : ValueEnv :=
  <["f" := fix_example_closure]> {["y" := IntVal 2]}.

(** A two-parameter closure, for [fix]. *)
Definition fix_binary_env : ValueEnv :=
  {["g" := ClosureVal [mkLambdaParam "x" None false None;
                       mkLambdaParam "y" None false None]
             (VarExpr "x") ∅]}.

(** The example for function application: a closure with one required
    parameter, and a value for it. *)
Definition call_example_env : ValueEnv :=
  <["f" := ClosureVal [mkLambdaParam "a" None false None] (VarExpr "a") ∅]>
    {["u" := IntVal 7]}.

(** ** Phi resolution *)

(** A source is usable when its variable is bound to a value that is not an
    error value. *)
Definition usable (vars : gmap string value) (source : PhiSource) (v : value) : Prop :=
  vars !! src_id source = Some v /\ is_error v = false.

(** [source] is the first element of [sources], in declared order, that
    satisfies [P]. *)
Definition first_such (P : PhiSource -> Prop) (sources : list PhiSource)
    (source : PhiSource) : Prop :=
  exists pre post,
    sources = (pre ++ source :: post)%list
    /\ P source
    /\ forall x, x ∈ pre -> ~ P x.

(** The state of the counterexample: no block has been executed before, the
    first source's variable [a] is bound to an error value, the second
    source's variable [b] to [1]. *)
Definition phi_example_state : LIRRuntimeState :=
  mkLIRRuntimeState
    (<["a" := ErrorVal "DomainError" None None]> {["b" := IntVal 1]})
    None [] 0 10000 None.
Definition phi_example_sources : list PhiSource :=
  [mkPhiSource "b0" "a"; mkPhiSource "b1" "b"].

(** ** Step counting in the CFG executor *)

(** A computation of the executor that leaves the step counter and the
    budget alone and needs no fuel. *)
Definition keeps_steps {A} (m : L A) : Prop :=
  forall s r s', m s = (r, s') ->
    lir_steps s' = lir_steps s
    /\ lir_max_steps s' = lir_max_steps s
    /\ r <> OutOfFuel.

(** The instructions [instrs] run one after the other from state [s] to
    state [s']: each is counted within the budget and then executed
    without error. *)
Inductive instructions_run `{Host} (registry : OperatorRegistry)
    (effect_registry : EffectRegistry)
  : list LirInstruction -> LIRRuntimeState -> LIRRuntimeState -> Prop :=
| run_none s : instructions_run registry effect_registry [] s s
| run_next ins rest s s1 s' :
    lir_steps s + 1 <= lir_max_steps s ->
    _execute_instruction registry effect_registry ins (count_step s) = (Ret None, s1) ->
    instructions_run registry effect_registry rest s1 s' ->
    instructions_run registry effect_registry (ins :: rest) s s'.

(** The blocks whose id has not been entered yet. *)
Definition unvisited (blocks : list LirBlock) (executed : gset string) : nat :=
  length (filter (fun b => block_id b ∉ executed) blocks).

(** What one run of the loop guarantees, from state [s] to state [s'] with
    outcome [r]: the budget is unchanged, the counter does not decrease, a
    counter that has come to exceed the budget means the outcome is a
    [NonTermination] error value, and with [fuel] above the measure the
    outcome is not [OutOfFuel]. *)
Definition run_ok (fuel : nat) (blocks : list LirBlock) (executed : gset string)
    (s : LIRRuntimeState) (r : outcome returned) (s' : LIRRuntimeState)
    (needs_fuel : Prop) : Prop :=
  lir_max_steps s' = lir_max_steps s
  /\ lir_steps s <= lir_steps s'
  /\ (lir_steps s <= lir_max_steps s -> lir_steps s' > lir_max_steps s ->
      exists m, r = Ret (Val (non_termination m)))
  /\ ((needs_fuel ->
       (unvisited blocks executed
        + Z.to_nat (lir_max_steps s - lir_steps s) < fuel)%nat) ->
      r <> OutOfFuel).

(** The document of the counterexample: one block that assigns a literal
    and returns. *)
Definition steps_example_doc : LIRDocument :=
  mkLIRDocument "1.0.0"
    (Some [LirBlockNode "main" None
             [mkLirBlock "b0"
                [LirInsAssign "x" (LitExpr BoolType (RBool true))]
                (LirTermReturn (Some "x"))]
             "b0"])
    "main".

Definition no_operators : OperatorRegistry := ∅.
Definition no_effects : EffectRegistry := ∅.
Definition steps_example_state : LIRRuntimeState :=
  mkLIRRuntimeState ∅ None [] 0 10000 None.

(** A block whose only instruction fails: it reads a variable that is not
    bound. *)
Definition failing_block : list LirInstruction :=
  [LirInsAssign "x" (VarExpr "y")].

(** ** Operator calls and error operands *)

(** Operands evaluated one after the other, left to right, from world [w]
    to world [w']: a node reference is looked up, an inline expression is
    evaluated, and each yields a value that is not an error value. *)
Inductive evaluates_operands (ev : expr -> ValueEnv -> M returned) (env : ValueEnv)
  : list (string + expr) -> World -> list value -> World -> Prop :=
| operands_nil w : evaluates_operands ev env [] w [] w
| operands_ref x v rest w vs w' :
    env !! x = Some v ->
    is_error v = false ->
    evaluates_operands ev env rest w vs w' ->
    evaluates_operands ev env (inl x :: rest) w (v :: vs) w'
| operands_inline e v rest w w1 vs w' :
    ev e env w = (Ret (Val v), w1) ->
    is_error v = false ->
    evaluates_operands ev env rest w1 vs w' ->
    evaluates_operands ev env (inr e :: rest) w (v :: vs) w'.

(** The environment of the counterexample: the operand [a] is bound to an
    error value. *)
Definition call_error_env : ValueEnv :=
  <["a" := ErrorVal "DivideByZero" None None]> {["b" := IntVal 1]}.

Definition op_example_state : LIRRuntimeState :=
  mkLIRRuntimeState (<["a" := IntVal 1]> {["b" := ErrorVal "DivideByZero" None None]})
    None [] 0 10000 None.

(** ** The race detector *)

(** Every access stored under a location was recorded for that location. *)
Definition table_consistent (table : list (string * list MemoryAccess)) : Prop :=
  forall l accs a, (l, accs) ∈ table -> a ∈ accs -> acc_location a = l.

(** Two tasks write the location [L] without synchronisation. *)
Definition race_example_calls : list DetectorCall :=
  [ RecordAccess "t1" "L" Write (IntVal 1) PrimFloat.zero;
    RecordAccess "t2" "L" Write (IntVal 2) PrimFloat.one ].
Definition race_example : RaceCondition :=
  mkRaceCondition "L" ("t1", "t2") (Write, Write) W_W
    (_generate_race_description "L" "t1" "t2" Write Write).

(** ** The scheduler's [is_complete] *)

(** The table only names task objects that exist. *)
Definition table_valid (s : DefaultTaskScheduler) : Prop :=
  forall id h, _tasks s !! id = Some h -> (h < length (task_objects s))%nat.

(** ** [hash_value] and set and map literals *)

(** The hash of a value whose hash needs no uuid: [tag:literal] for a bool,
    an int, a float or a string, [o:none] for the empty option, and
    [o:some:] followed by the payload's hash for an option whose payload has
    such a hash. *)
Fixpoint ground_hash `{Host} (v : value) : option string :=
  match v with
  | BoolVal b => Some ("b:" ++ bool_str b)
  | IntVal z => Some ("i:" ++ pretty z)
  | FloatVal f => Some ("f:" ++ float_str f)
  | StringVal s => Some ("s:" ++ s)
  | OptionVal None | OptionVal (Some RNone) => Some "o:none"
  | OptionVal (Some (RObj v')) =>
      match ground_hash v' with
      | Some h => Some ("o:some:" ++ h)
      | None => None
      end
  | _ => None
  end.

(** The kinds [hash_value] hashes by identity. *)
Definition identity_hashed (v : value) : bool :=
  match v with
  | BoolVal _ | IntVal _ | FloatVal _ | StringVal _ | OptionVal _ => false
  | _ => true
  end.

(** A value hashed by identity, or an option whose payload is, through any
    number of options, such a value; and what [hash_value] puts before the
    token for it: one [o:some:] for every option. *)
Fixpoint wraps_identity_hashed (v : value) : bool :=
  match v with
  | OptionVal (Some (RObj v')) => wraps_identity_hashed v'
  | _ => identity_hashed v
  end.

Fixpoint option_prefix (v : value) : string :=
  match v with
  | OptionVal (Some (RObj v')) => "o:some:" ++ option_prefix v'
  | _ => ""
  end.

(** A host whose uuids are pairwise distinct version-4 uuids that share
    their first eight hexadecimal digits. *)
Definition colliding_host : Host := {|
  py_int := @py_int sample_host;
  py_float := @py_float sample_host;
  py_str := @py_str sample_host;
  float_str := @float_str sample_host;
  uuid4_hex n := "00000000000040008000" ++ hex_digits 12 (N.of_nat n);
|}.

(** The token made from the [n]-th uuid, and the world after one draw. *)
Definition token `{Host} (n : nat) : string :=
  "ref:" ++ String.substring 0 8 (uuid4_hex n).
Definition draws (k : nat) (w : World) : World :=
  mkWorld (ctx w) (uuid_drawn w + k).

(** A literal's payload made of key-value pairs. *)
Definition map_payload (kvs : list (value * raw)) : raw :=
  RList (map (fun kv => RList [RObj kv.1; kv.2]) kvs).


(** ** Type equality *)

(** A type with every [optional_params] of its function types erased. *)
Fixpoint without_optional_params (t : ty) : ty :=
  match t with
  | SetType t_of => SetType (without_optional_params t_of)
  | ListType t_of => ListType (without_optional_params t_of)
  | MapType k v => MapType (without_optional_params k) (without_optional_params v)
  | OptionType t_of => OptionType (without_optional_params t_of)
  | FnType ps r _ =>
      FnType (map without_optional_params ps) (without_optional_params r) None
  | RefType t_of => RefType (without_optional_params t_of)
  | FutureType t_of => FutureType (without_optional_params t_of)
  | ChannelType c t_of => ChannelType c (without_optional_params t_of)
  | TaskType r => TaskType (without_optional_params r)
  | AsyncFnType ps r =>
      AsyncFnType (map without_optional_params ps) (without_optional_params r)
  | _ => t
  end.

(** The pairwise comparison of two parameter lists, as [type_equal] does it
    for function types. *)
Fixpoint params_equal (pas pbs : list ty) : bool :=
  match pas, pbs with
  | pa :: pas', pb :: pbs' =>
      if negb (type_equal pa pb) then false else params_equal pas' pbs'
  | _, _ => true
  end.

(** ** The operator domains *)

(** The implementations of the core, list and set domains by number of
    arguments ([pow] of the core domain is not among them). *)
Definition unary_impls : list (value -> impl_result) :=
  [ CoreDomain._neg_impl; ListDomain._length_impl; ListDomain._reverse_impl;
    SetDomain._size_impl ].

Definition binary_impls : list (value -> value -> impl_result) :=
  [ CoreDomain._add_impl; CoreDomain._sub_impl; CoreDomain._mul_impl;
    CoreDomain._div_impl; CoreDomain._mod_impl; CoreDomain._eq_impl;
    CoreDomain._neq_impl; CoreDomain._lt_impl; CoreDomain._lte_impl;
    CoreDomain._gt_impl; CoreDomain._gte_impl; CoreDomain._concat_impl;
    ListDomain._concat_impl; ListDomain._nth_impl; ListDomain._take_impl;
    ListDomain._drop_impl;
    SetDomain._union_impl; SetDomain._intersect_impl; SetDomain._difference_impl;
    SetDomain._is_subset_impl; SetDomain._is_disjoint_impl ].

Definition ternary_impls : list (value -> value -> value -> impl_result) :=
  [ CoreDomain._substring_impl; ListDomain._slice_impl ].

(** A divisor that is zero: the integer [0] or a float equal to zero. *)
Definition zero_divisor (b : value) : Prop :=
  b = IntVal 0 \/ exists f, b = FloatVal f /\ PrimFloat.eqb f 0%float = true.

(** The result of a comparison negated; any other result unchanged. *)
Definition negated (r : impl_result) : impl_result :=
  match r with
  | ImplRet (BoolVal b) => ImplRet (BoolVal (negb b))
  | _ => r
  end.

(** The length of a string as an integer value. *)
Definition str_len (s : string) : value := IntVal (Z.of_nat (String.length s)).

(** ** The step budget of the expression evaluator *)

(** The exception [_check_steps] raises. *)
Definition non_termination_raised {A} : outcome A :=
  Raise (SPIRALError ErrorCodes.NON_TERMINATION "Expression evaluation did not terminate").

(** What a computation of the evaluator does to the step counter when it
    starts within the budget: it leaves the budget alone and never lowers
    the counter, and it either raises [NonTermination] with the counter one
    beyond the budget, or ends otherwise with the counter within it. *)
Definition counts_steps {A} (m : M A) : Prop :=
  forall w r w', m w = (r, w') ->
    max_steps (ctx w') = max_steps (ctx w)
    /\ steps (ctx w) <= steps (ctx w')
    /\ (steps (ctx w) <= max_steps (ctx w) ->
        (r = non_termination_raised /\ steps (ctx w') = max_steps (ctx w) + 1)
        \/ (r <> non_termination_raised /\ steps (ctx w') <= max_steps (ctx w))).

(** ** Program evaluation *)

(** The nodes of [nodes] evaluated one after the other in the environment
    [env], from [drawn] uuids drawn to [drawn'], each to a value that is not
    an error value: the node ids with their values, in order.  A block node
    has the value void and evaluates nothing. *)
Inductive nodes_evaluate `{Host} (registry : OperatorRegistry) (env : ValueEnv)
    (options : option EvalOptions)
  : list ProgramNode -> nat -> list (string * value) -> nat -> Prop :=
| nodes_done drawn : nodes_evaluate registry env options [] drawn [] drawn
| nodes_expr id e rest drawn v w vals drawn' :
    evaluate registry e env options drawn = (Ret (Val v), w) ->
    is_error v = false ->
    nodes_evaluate registry env options rest (uuid_drawn w) vals drawn' ->
    nodes_evaluate registry env options (mkProgramNode id (Some e) :: rest) drawn
      ((id, v) :: vals) drawn'
| nodes_block id rest drawn vals drawn' :
    nodes_evaluate registry env options rest drawn vals drawn' ->
    nodes_evaluate registry env options (mkProgramNode id None :: rest) drawn
      ((id, VoidVal) :: vals) drawn'.

(** ** What the CFG executor writes *)

(** The variable an instruction assigns when it succeeds: its target, and
    for [assignRef] the name of the cell made from the target. *)
Definition write_target (ins : LirInstruction) : string :=
  match ins with
  | LirInsAssign target _ => target
  | LirInsCall target _ _ => target
  | LirInsOp target _ _ _ => target
  | LirInsPhi target _ => target
  | LirInsEffect target _ _ => target
  | LirInsAssignRef target _ => target ++ "_ref"
  end.

(** The variables the instructions of [blocks] can assign. *)
Definition written (blocks : list LirBlock) : gset string :=
  list_to_set (concat (map (fun b => map write_target (instructions b)) blocks)).

(** From [s] to [s'] no variable outside [T] has changed and no variable
    has been removed. *)
Definition keeps_vars_outside (T : gset string) (s s' : LIRRuntimeState) : Prop :=
  (forall x, x ∉ T -> vars s' !! x = vars s !! x)
  /\ dom (vars s) ⊆ dom (vars s').

(** From [s] to [s'] the log of effects has only grown at its end. *)
Definition log_extended (s s' : LIRRuntimeState) : Prop :=
  effects s `prefix_of` effects s'.

(** Every run of the computation [m] relates its initial and final states
    by [R]. *)
Definition relates {A} (R : LIRRuntimeState -> LIRRuntimeState -> Prop) (m : L A)
  : Prop :=
  forall s r s', m s = (r, s') -> R s s'.

(** ** The scheduler and the barrier *)

(** Every task object is consistent: a pending task has a pending future, a
    completed task has a cached result, and a task that is not pending has
    a future that is done. *)
Definition tasks_consistent (s : DefaultTaskScheduler) : Prop :=
  forall h task, task_objects s !! h = Some task ->
    (status task = PENDING -> future task = FutPending)
    /\ (status task = COMPLETED -> is_Some (result task))
    /\ (status task <> PENDING -> future_done (future task) = true).

(** [n] calls of [check_global_steps] one after the other: what each did. *)
Fixpoint check_global_steps_times (n : nat) (s : DefaultTaskScheduler)
  : list step_check * DefaultTaskScheduler :=
  match n with
  | O => ([], s)
  | S n' =>
      let '(r, s1) := check_global_steps s in
      let '(rs, s2) := check_global_steps_times n' s1 in
      (r :: rs, s2)
  end.


(** [n] tasks arrive at the barrier one after the other. *)
Fixpoint barrier_waits (n : nat) (b : AsyncBarrier)
  : list wait_result * AsyncBarrier :=
  match n with
  | O => ([], b)
  | S n' =>
      let '(r, b1) := barrier_wait b in
      let '(rs, b2) := barrier_waits n' b1 in
      (r :: rs, b2)
  end.

(** Two tasks write the location [L]; the second one has synchronised
    with a third task only. *)
Definition unordered_writes : list DetectorCall :=
  [ RecordAccess "t1" "L" Write (IntVal 1) PrimFloat.zero;
    RecordSyncPoint "t2" ["t3"];
    RecordAccess "t2" "L" Write (IntVal 2) PrimFloat.one ].

(** [graph] has an edge from [x] to [y]. *)
Definition edge (graph : list (string * gset string)) (x y : string) : Prop :=
  exists s, alist_get x graph = Some s /\ y ∈ s.

(** [lock_waiters] lists [task_id] among the waiters of [lock_id]. *)
Definition waiter_of (lock_waiters : list (string * list string))
    (lock_id task_id : string) : Prop :=
  exists waiters, alist_get lock_id lock_waiters = Some waiters /\ task_id ∈ waiters.

(** Task [t] waits for the lock [lock_id], which task [t'] holds. *)
Definition waits_for_lock (d : Deadlock.DeadlockDetector) (t lock_id t' : string)
  : Prop :=
  exists waiting,
    alist_get t (Deadlock.wait_graph d) = Some waiting /\ lock_id ∈ waiting
    /\ Deadlock.lock_holders d !! lock_id = Some t'.

(** Task [t] waits for a lock that task [t'] holds, and the id of [t'] is
    not the empty string. *)
Definition blocked_on (d : Deadlock.DeadlockDetector) (t t' : string) : Prop :=
  t' <> "" /\ exists lock_id, waits_for_lock d t lock_id t'.

(** A report whose tasks are distinct and wait for one another in a
    circle: the [i]-th task waits for the [i]-th lock, which the next task
    holds, the first task coming after the last. *)
Definition is_wait_cycle (d : Deadlock.DeadlockDetector) (c : Deadlock.DeadlockCycle)
  : Prop :=
  Deadlock.cycle c <> []
  /\ NoDup (Deadlock.cycle c)
  /\ length (Deadlock.locks c) = length (Deadlock.cycle c)
  /\ forall i t, Deadlock.cycle c !! i = Some t ->
       exists lock_id t',
         Deadlock.locks c !! i = Some lock_id
         /\ Deadlock.next_in_cycle (Deadlock.cycle c) i = Some t'
         /\ waits_for_lock d t lock_id t'.

(** A cycle of the graph: distinct tasks, each with an edge to the next,
    the first coming after the last. *)
Definition graph_cycle (graph : list (string * gset string)) (c : list string)
  : Prop :=
  c <> [] /\ NoDup c
  /\ forall i x, c !! i = Some x ->
       exists y, Deadlock.next_in_cycle c i = Some y /\ edge graph x y.

(** Consecutive tasks of [p] are joined by edges. *)
Definition chain (graph : list (string * gset string)) (p : list string) : Prop :=
  forall i x y, p !! i = Some x -> p !! S i = Some y -> edge graph x y.

(** The tasks whose search is over. *)
Definition finished (st : Deadlock.SearchState) : gset string :=
  Deadlock.visited st ∖ Deadlock.rec_stack st.

(** What the search keeps true of the lists and sets it mutates. *)
Record search_invariant `{SetIteration} (d : Deadlock.DeadlockDetector)
    (graph : list (string * gset string)) (st : Deadlock.SearchState) : Prop := {
  inv_path_nodup : NoDup (Deadlock.path st);
  inv_path_visited : forall x, x ∈ Deadlock.path st -> x ∈ Deadlock.visited st;
  inv_path_tasks : forall x, x ∈ Deadlock.path st -> x ∈ Deadlock.graph_tasks graph;
  inv_rec_stack : forall x, x ∈ Deadlock.rec_stack st <-> x ∈ Deadlock.path st;
  inv_chain : chain graph (Deadlock.path st);
  inv_cycles : forall c, c ∈ Deadlock.cycles st ->
    graph_cycle graph (Deadlock.cycle c)
    /\ Deadlock.locks c = Deadlock._extract_locks_for_cycle d (Deadlock.cycle c);
  inv_finished_closed : Deadlock.cycles st = [] ->
    forall x y, x ∈ finished st -> edge graph x y -> y ∈ finished st;
  inv_finished_acyclic : Deadlock.cycles st = [] ->
    forall x, x ∈ finished st -> ~ tc (edge graph) x x;
}.

(** Two tasks, each holding the lock the other one asks for. *)
Definition crossed_locks : list Deadlock.DetectorCall :=
  [ Deadlock.TrackLockAcquired "a" "l1";
    Deadlock.TrackLockAcquired "b" "l2";
    Deadlock.TrackLockAcquisition "a" "l2" PrimFloat.zero;
    Deadlock.TrackLockAcquisition "b" "l1" PrimFloat.one ].
(** * Properties *)

(** ** The evaluation monad *)

Lemma bind_ret_l {S A B} (a : A) (k : A -> St S B) (w : S) :
  bind (ret a) k w = k a w.
Proof. reflexivity. Qed.

Lemma bind_inv {S A B} (m : St S A) (k : A -> St S B) (w w' : S) (r : outcome B) :
  bind m k w = (r, w') ->
  (exists a w1, m w = (Ret a, w1) /\ k a w1 = (r, w'))
  \/ (exists e, m w = (Raise e, w') /\ r = Raise e)
  \/ (m w = (OutOfFuel, w') /\ r = OutOfFuel).
Proof.
  unfold bind. destruct (m w) as [[a|e|] w1] eqn:Hm; intros Hk.
  - left. eauto.
  - right. left. inversion Hk; subst. eauto.
  - right. right. inversion Hk; subst. eauto.
Qed.

(** ** The step budget bounds the recursion of [_eval_expr] *)

Lemma within_budget_ret {A} n (a : A) : within_budget n (ret a).
Proof. intros w r w' [= <- <-]. repeat split; [lia | discriminate]. Qed.

Lemma within_budget_raise {A} n e : within_budget n (@raise World A e).
Proof. intros w r w' [= <- <-]. repeat split; [lia | discriminate]. Qed.

Lemma within_budget_bind {A B} n (m : M A) (k : A -> M B) :
  within_budget n m -> (forall a, within_budget n (k a)) ->
  within_budget n (bind m k).
Proof.
  intros Hm Hk w r w' Hb.
  apply bind_inv in Hb as [(a & w1 & H1 & H2) | [(e & H1 & ->) | (H1 & ->)]].
  - destruct (Hm _ _ _ H1) as (Ha & Hb & Hc).
    destruct (Hk a _ _ _ H2) as (Ha' & Hb' & Hc').
    repeat split; [lia | congruence |].
    intros Hle. apply Hc'. lia.
  - destruct (Hm _ _ _ H1) as (Ha & Hb & Hc).
    split; [exact Ha | split; [exact Hb | discriminate]].
  - destruct (Hm _ _ _ H1) as (Ha & Hb & Hc).
    split; [exact Ha | split; [exact Hb |]].
    intros Hle. exfalso. apply (Hc Hle). reflexivity.
Qed.

Lemma within_budget_from_host {A} n what (o : option A) :
  within_budget n (from_host what o).
Proof. destruct o; [apply within_budget_ret | apply within_budget_raise]. Qed.

Lemma within_budget_mapM {A B} n (f : A -> M B) (l : list A) :
  (forall a, within_budget n (f a)) -> within_budget n (mapM f l).
Proof.
  intros Hf. induction l as [|a l IH]; simpl.
  - apply within_budget_ret.
  - apply within_budget_bind; [apply Hf|]. intros b.
    apply within_budget_bind; [apply IH|]. intros bs. apply within_budget_ret.
Qed.

Lemma within_budget_uuid4 `{Host} n : within_budget n uuid4.
Proof. intros w r w' [= <- <-]. simpl. repeat split; [lia | discriminate]. Qed.

Lemma within_budget_value_of n r : within_budget n (value_of r).
Proof. destruct r; [apply within_budget_ret | apply within_budget_raise]. Qed.

Lemma within_budget_value_getitem {A} n v key :
  within_budget n (@value_getitem World A v key).
Proof. apply within_budget_raise. Qed.

Lemma within_budget_returns_value n (m : M value) :
  within_budget n m -> within_budget n (returns_value m).
Proof.
  intros Hm. apply within_budget_bind; [exact Hm|].
  intros v. apply within_budget_ret.
Qed.

Create HintDb budget.
#[local] Hint Resolve within_budget_ret within_budget_raise
  within_budget_from_host within_budget_uuid4 : budget.

Ltac budget :=
  repeat first
    [ apply within_budget_ret
    | apply within_budget_raise
    | apply within_budget_from_host
    | apply within_budget_uuid4
    | apply within_budget_value_of
    | apply within_budget_value_getitem
    | apply within_budget_bind; [| intros ?] ].

(** [hash_value] leaves the evaluation context alone and always returns or
    raises. *)
Lemma hash_value_ctx `{Host} :
  forall v w, ctx (hash_value v w).2 = ctx w /\ (hash_value v w).1 <> OutOfFuel.
Proof.
  fix IH 1. intros v w.
  destruct v as [| | | | | |?|[[| | | | | |v']|]| | | | | | | | |]; simpl;
    try (split; [reflexivity | discriminate]).
  unfold bind. specialize (IH v' w).
  destruct (hash_value v' w) as [[s|e|] w1]; simpl in *;
    (split; [tauto | first [discriminate | tauto]]).
Qed.

Lemma within_budget_hash_value `{Host} n v : within_budget n (hash_value v).
Proof.
  intros w r w' Hh. destruct (hash_value_ctx v w) as [Hc Hr].
  rewrite Hh in Hc, Hr. simpl in *. rewrite Hc.
  repeat split; [lia | intros _; exact Hr].
Qed.

Lemma within_budget_eval_lit `{Host} n t v : within_budget n (_eval_lit t v).
Proof.
  destruct t; simpl; budget.
  - destruct v; budget.
    apply within_budget_mapM. intros r. unfold hash_raw.
    destruct r; budget. apply within_budget_hash_value.
  - destruct v; budget.
    apply within_budget_mapM. intros r. unfold lit_list_elem.
    destruct r; budget;
      try (destruct t; budget; fail).
    destruct (has_value_field v); [destruct v|]; budget.
  - destruct v; budget.
    apply within_budget_mapM. intros r. unfold lit_map_entry.
    destruct r as [| | | | |[|k [|v' [|? ?]]]|]; budget.
    unfold hash_raw. destruct k; budget. apply within_budget_hash_value.
Qed.

(** The rules that only look names up in the environment. *)
Lemma within_budget_lookups n e env :
  match e with
  | RefExpr id => within_budget n (_eval_ref id env)
  | VarExpr name => within_budget n (_eval_var name env)
  | EirSeqExpr first then_ => within_budget n (_eval_seq first then_ env)
  | EirAssignExpr target v => within_budget n (_eval_assign target v env)
  | EirRefCellExpr target => within_budget n (_eval_ref_cell target env)
  | EirDerefExpr target => within_budget n (_eval_deref target env)
  | EirTryExpr b p c fb => within_budget n (_eval_try b p c fb env)
  | _ => True
  end.
Proof.
  destruct e; try exact I.
  - unfold _eval_ref. destruct (env !! id); budget.
  - unfold _eval_var. destruct (lookup_value env name); budget.
  - unfold _eval_seq. destruct (lookup_value env first) as [v|]; budget.
    destruct (is_error v); budget. destruct (lookup_value env then_); budget.
  - unfold _eval_assign. destruct (lookup_value env v) as [r|]; budget.
    destruct (is_error r); budget.
  - unfold _eval_ref_cell. destruct (lookup_value env target); budget.
  - unfold _eval_deref. destruct (lookup_value env target) as [v|]; budget.
    destruct (is_error v); budget. destruct v; budget.
  - unfold _eval_try. destruct (lookup_value env try_body) as [v|]; budget.
    destruct (is_error v).
    + destruct (lookup_value _ catch_body); budget.
    + destruct fallback as [fb|]; budget. destruct (lookup_value env fb); budget.
Qed.

Section BudgetRules.
Context `{Host}.
Variable registry : OperatorRegistry.
Variable ev : expr -> ValueEnv -> M returned.
Variable n : nat.
Hypothesis ev_ok : forall e env, within_budget n (ev e env).

Lemma within_budget_eval_call_args env args acc :
  within_budget n (eval_call_args ev env args acc).
Proof using ev_ok.
  revert acc. induction args as [|[a|a] args IH]; intros acc; simpl.
  - budget.
  - destruct (lookup_value env a); [apply IH | budget].
  - budget; [apply ev_ok|]. destruct (is_error _); [budget | apply IH].
Qed.

Lemma within_budget_eval_call ns name args env :
  within_budget n (_eval_call registry ev ns name args env).
Proof using ev_ok.
  unfold _eval_call. destruct (negb _); budget.
  - apply within_budget_eval_call_args.
  - destruct a; budget.
    destruct (registry_lookup _ _ _); budget.
    destruct (negb _); budget. destruct (apply_impl _ _); budget.
Qed.

Lemma within_budget_get_value env x : within_budget n (get_value ev env x).
Proof using ev_ok. destruct x; simpl; budget. apply ev_ok. Qed.

Lemma within_budget_eval_if c t f env : within_budget n (_eval_if ev c t f env).
Proof using ev_ok.
  unfold _eval_if. budget; [apply within_budget_get_value|].
  destruct a as [r|]; budget.
  match goal with |- within_budget _ (if is_error ?v then _ else _) =>
    destruct (is_error v); budget;
    destruct v as [[|]| | | | | | | | | | | | | | | |]; budget
  end;
    try apply within_budget_get_value;
    match goal with |- within_budget _ (match ?a with _ => _ end) =>
      destruct a; budget end.
Qed.

Lemma within_budget_eval_let name v body env :
  within_budget n (_eval_let ev name v body env).
Proof using ev_ok.
  unfold _eval_let. budget; [apply within_budget_get_value|].
  destruct a as [r|]; budget. destruct (is_error _); budget.
  - apply within_budget_get_value.
  - match goal with |- within_budget _ (match ?a with _ => _ end) =>
      destruct a; budget end.
Qed.

Lemma within_budget_bind_params fn_env params arg_values i call_env :
  within_budget n (bind_params ev fn_env params arg_values i call_env).
Proof using ev_ok.
  revert i call_env. induction params as [|p ps IH]; intros i call_env; simpl.
  - budget.
  - destruct (arg_values !! i); [apply IH|].
    destruct (param_optional p); budget.
    destruct (param_default p); [|apply IH].
    budget; [apply ev_ok|]. destruct (is_error _); [budget | apply IH].
Qed.

Lemma within_budget_eval_call_expr fn args env :
  within_budget n (_eval_call_expr ev fn args env).
Proof using ev_ok.
  unfold _eval_call_expr. destruct (lookup_value env fn) as [v|]; budget.
  destruct (is_error v); budget. destruct (negb (is_closure v)); budget.
  destruct (lookup_args _ _ _); budget.
Qed.

Lemma within_budget_eval_fix fn env : within_budget n (_eval_fix ev fn env).
Proof using ev_ok.
  unfold _eval_fix. destruct (lookup_value env fn) as [v|]; budget.
  destruct (is_error v); budget. destruct (negb (is_closure v)); budget.
Qed.

Lemma within_budget_dispatch e env :
  within_budget n (dispatch registry ev e env).
Proof using ev_ok.
  destruct e; cbn [dispatch];
    first
      [ apply within_budget_returns_value, within_budget_eval_lit
      | apply within_budget_eval_call
      | apply within_budget_eval_if
      | apply within_budget_eval_let
      | apply within_budget_eval_call_expr
      | apply within_budget_eval_fix
      | apply within_budget_returns_value,
          (within_budget_lookups n (RefExpr _))
      | apply within_budget_returns_value,
          (within_budget_lookups n (VarExpr _))
      | apply within_budget_returns_value,
          (within_budget_lookups n (EirSeqExpr _ _))
      | apply within_budget_returns_value,
          (within_budget_lookups n (EirAssignExpr _ _))
      | apply within_budget_returns_value,
          (within_budget_lookups n (EirRefCellExpr _))
      | apply within_budget_returns_value,
          (within_budget_lookups n (EirDerefExpr _))
      | apply within_budget_returns_value,
          (within_budget_lookups n (EirTryExpr _ _ _ _))
      | apply within_budget_returns_value, within_budget_ret
      | apply within_budget_ret ].
Qed.
End BudgetRules.

(** Counting the step: the counter grows by one, the budget stays. *)
Lemma _check_steps_spec (w : World) :
  let w' := mkWorld (mkEvalContext (steps (ctx w) + 1) (max_steps (ctx w))
                       (trace (ctx w))) (uuid_drawn w) in
  _check_steps w =
    if steps (ctx w) + 1 >? max_steps (ctx w)
    then (Raise (SPIRALError ErrorCodes.NON_TERMINATION
                   "Expression evaluation did not terminate"), w')
    else (Ret tt, w').
Proof. reflexivity. Qed.

Lemma within_budget_eval_expr `{Host} registry n e env :
  within_budget n (_eval_expr registry n e env).
Proof.
  revert e env. induction n as [|n IH]; intros e env w r w' He;
    simpl in He; unfold bind in He; rewrite _check_steps_spec in He;
    destruct (Z.gtb_spec (steps (ctx w) + 1) (max_steps (ctx w))) as [Hgt|Hle].
  - inversion He; subst; simpl. repeat split; [lia | discriminate].
  - inversion He; subst; simpl. repeat split; [lia | lia].
  - inversion He; subst; simpl. repeat split; [lia | discriminate].
  - destruct (within_budget_dispatch registry _ n IH e env _ _ _ He) as (Ha & Hb & Hc).
    simpl in *. repeat split; [lia | exact Hb |]. intros Hle'. apply Hc. lia.
Qed.

(** The fuel [evaluate] supplies is never what ends an evaluation. *)
Lemma evaluate_ends `{Host} registry e env options drawn :
  (evaluate registry e env options drawn).1 <> OutOfFuel.
Proof.
  unfold evaluate.
  destruct (_eval_expr _ _ _ _ _) as [r w'] eqn:He.
  apply within_budget_eval_expr in He as (_ & _ & Hc). simpl in *.
  apply Hc. lia.
Qed.

(** X1.  [Evaluator.evaluate] always ends, with a value or with a raised
    exception: every call of [_eval_expr] counts a step before it
    dispatches and raises once the count exceeds [max_steps], so the depth
    of the recursion is bounded by the budget.  The step counter it leaves
    is not negative and the budget is the one it was given. *)
Theorem evaluate_terminates `{Host} registry e env options drawn :
  let '(r, w) := evaluate registry e env options drawn in
  r <> OutOfFuel
  /\ 0 <= steps (ctx w)
  /\ max_steps (ctx w) = opt_max_steps (default default_EvalOptions options).
Proof.
  unfold evaluate.
  destruct (_eval_expr _ _ _ _ _) as [r w'] eqn:He.
  apply within_budget_eval_expr in He as (Hs & Hm & Hc). simpl in *.
  split; [apply Hc; lia | split; [exact Hs | exact Hm]].
Qed.

(** ** Let, fix and if in the expression evaluator *)

(** What [_eval_let] does once the bound expression has a value: the body
    reaches [_eval_expr] with the environment of the [let] itself. *)
Lemma _eval_let_body_env (ev : expr -> ValueEnv -> M returned) name e1 e2 env w v w1 :
  ev e1 env w = (Ret (Val v), w1) ->
  is_error v = false ->
  _eval_let ev name (inr e1) (inr e2) env w
  = bind (ev e2 env) (fun r => ret r) w1.
Proof.
  intros He1 Hv. unfold _eval_let, get_value, bind at 1 2.
  rewrite He1. cbn [ret value_of]. unfold bind at 1. cbn [ret]. rewrite Hv.
  unfold bind.
  destruct (ev e2 env w1) as [[r| |] w2]; reflexivity.
Qed.

(** C1 (the code departs from the claim).  Evaluating
    [let x = true in x] in the empty environment: the bound expression has
    the non-error value [true], yet the reference to [x] in the body yields
    an [UnboundIdentifier] error value, because the body is evaluated in the
    environment of the [let] and not in its extension. *)
Theorem let_body_does_not_see_binding `{Host} registry drawn :
  (evaluate registry
     (LetExpr "x" (inr (LitExpr BoolType (RBool true))) (inr (VarExpr "x")))
     ∅ None drawn).1
  = Ret (Val (ErrorVal "UnboundIdentifier" (Some "Unbound identifier: x") None)).
Proof. reflexivity. Qed.

(** X2.  [_eval_fix] evaluates nothing, whatever its operand is bound to.
    An unbound operand, an error value and a value that is no closure give
    an error value; a closure, whatever the number of its parameters, makes
    [fix] raise a [TypeError]: the closure's fields are read by subscript,
    which the value classes do not support. *)
Lemma _eval_fix_evaluates_nothing (ev : expr -> ValueEnv -> M returned) fn env w :
  _eval_fix ev fn env w
  = (match env !! fn with
     | None =>
         Ret (Val (ErrorVal "UnboundIdentifier"
                     (Some ("Function not found: " ++ fn)) None))
     | Some v =>
         if is_error v then Ret (Val v)
         else if is_closure v then Raise (HostError "TypeError")
         else Ret (Val (ErrorVal "TypeError"
                          (Some ("Expected closure, got: " ++ kind v)) None))
     end, w).
Proof.
  unfold _eval_fix, lookup_value. destruct (env !! fn) as [v|]; [|reflexivity].
  destruct (is_error v); [reflexivity|]. destruct (is_closure v); reflexivity.
Qed.

(** C2 (the code departs from the claim).  [fix f], where [f] is the
    one-parameter closure [fix_example_closure], raises a [TypeError] and
    evaluates no body; so does [fix g] for the two-parameter closure [g],
    for which the claim expects a [TypeError] error value. *)
Theorem fix_of_closure_raises `{Host} registry drawn :
  (evaluate registry (FixExpr "f") fix_example_env None drawn).1
  = Raise (HostError "TypeError")
  /\ (evaluate registry (FixExpr "g") fix_binary_env None drawn).1
     = Raise (HostError "TypeError").
Proof. split; reflexivity. Qed.

(** What [_eval_if] does with a condition that is neither an error nor
    [true]: it evaluates the else branch. *)
Lemma _eval_if_not_true (ev : expr -> ValueEnv -> M returned) c e1 e2 env w v w1 :
  ev c env w = (Ret (Val v), w1) ->
  is_error v = false ->
  v <> BoolVal true ->
  _eval_if ev (inr c) (inr e1) (inr e2) env w
  = bind (ev e2 env) (fun r => ret r) w1.
Proof.
  intros Hc Hv Hnt. unfold _eval_if, get_value, bind at 1 2.
  rewrite Hc. cbn [ret value_of]. unfold bind at 1. cbn [ret]. rewrite Hv.
  destruct v as [[|]| | | | | | | | | | | | | | | |]; try congruence;
    unfold bind; destruct (ev e2 env w1) as [[r| |] w2]; reflexivity.
Qed.

(** X3.  With a bool condition, [_eval_if] evaluates the then branch when
    it is true and the else branch when it is false. *)
Lemma _eval_if_bool (ev : expr -> ValueEnv -> M returned) c e1 e2 env w b w1 :
  ev c env w = (Ret (Val (BoolVal b)), w1) ->
  _eval_if ev (inr c) (inr e1) (inr e2) env w
  = bind (ev (if b then e1 else e2) env) (fun r => ret r) w1.
Proof.
  intros Hc. unfold _eval_if, get_value, bind at 1 2.
  rewrite Hc. cbn [ret value_of]. unfold bind at 1. cbn [ret is_error].
  destruct b; unfold bind;
    match goal with |- context [ev ?e env w1] =>
      destruct (ev e env w1) as [[r| |] w2]; reflexivity end.
Qed.

Lemma _eval_if_bool_witness :
  _eval_if (_eval_expr no_operators 3)
    (inr (LitExpr BoolType (RBool true)))
    (inr (LitExpr BoolType (RBool false)))
    (inr (LitExpr VoidType RNone))
    ∅ (mkWorld (mkEvalContext 1 10000 false) 0)
  = (Ret (Val (BoolVal false)), mkWorld (mkEvalContext 3 10000 false) 0).
Proof.
  rewrite (_eval_if_bool _ _ _ _ _ _ true (mkWorld (mkEvalContext 2 10000 false) 0));
    reflexivity.
Defined.

(** C7 (the code departs from the claim).  [if c then true else false]
    with [c] bound to the integer [1]: the condition is a non-error value
    that is not a bool, and the result is the value of the else branch, not
    a [TypeError] error value. *)
Theorem if_non_bool_condition_takes_else `{Host} registry drawn :
  (evaluate registry
     (IfExpr (inr (VarExpr "c"))
             (inr (LitExpr BoolType (RBool true)))
             (inr (LitExpr BoolType (RBool false))))
     {["c" := IntVal 1]} None drawn).1
  = Ret (Val (BoolVal false)).
Proof. vm_compute. reflexivity. Qed.

(** ** Function application *)

(** C3 (the code departs from the claim).  A call of the closure [f],
    which has one required parameter: without arguments the claim expects
    an [ArityError] error value, with the argument [u] the value of the
    body in the closure's environment extended with the parameter.  The
    code raises a [TypeError] in both cases: once the arguments are looked
    up, it reads the closure's parameters by subscript. *)
Theorem call_of_closure_raises `{Host} registry drawn :
  (evaluate registry (CallFnExpr "f" []) call_example_env None drawn).1
  = Raise (HostError "TypeError")
  /\ (evaluate registry (CallFnExpr "f" ["u"]) call_example_env None drawn).1
     = Raise (HostError "TypeError").
Proof. split; reflexivity. Qed.

(** ** Phi resolution *)

Lemma usable_functional vars source u v :
  usable vars source u -> usable vars source v -> u = v.
Proof. intros [Hu _] [Hv _]. congruence. Qed.

Lemma phi_fallback_first vars sources source v :
  first_such (fun x => exists u, usable vars x u) sources source ->
  usable vars source v ->
  phi_fallback vars sources = Some v.
Proof.
  intros (pre & post & -> & _ & Hpre) [Hv Hne].
  induction pre as [|x pre IH]; simpl.
  - by rewrite Hv, Hne.
  - destruct (vars !! src_id x) as [u|] eqn:Hu.
    + destruct (is_error u) eqn:He; simpl.
      * apply IH. intros y Hy. apply Hpre. by right.
      * exfalso. apply (Hpre x); [by left|]. exists u. by split.
    + apply IH. intros y Hy. apply Hpre. by right.
Qed.

Lemma phi_fallback_none vars sources :
  (forall x u, x ∈ sources -> ~ usable vars x u) ->
  phi_fallback vars sources = None.
Proof.
  induction sources as [|x sources IH]; intros Hnone; simpl; [reflexivity|].
  destruct (vars !! src_id x) as [u|] eqn:Hu.
  - destruct (is_error u) eqn:He; simpl.
    + apply IH. intros y v Hy. apply Hnone. by right.
    + exfalso. apply (Hnone x u); [by left | by split].
  - apply IH. intros y v Hy. apply Hnone. by right.
Qed.

Lemma phi_by_predecessor_first vars pred sources source v :
  first_such (fun x => src_block x = pred /\ exists u, usable vars x u) sources source ->
  usable vars source v ->
  phi_by_predecessor vars pred sources = Some v.
Proof.
  intros (pre & post & -> & [Hb _] & Hpre) [Hv Hne].
  induction pre as [|x pre IH]; simpl.
  - apply String.eqb_eq in Hb. by rewrite Hb, Hv, Hne.
  - assert (IH' : phi_by_predecessor vars pred (pre ++ source :: post) = Some v).
    { apply IH. intros y Hy. apply Hpre. by right. }
    destruct (String.eqb_spec (src_block x) pred) as [Hx|Hx]; [|exact IH'].
    destruct (vars !! src_id x) as [u|] eqn:Hu; [|exact IH'].
    destruct (is_error u) eqn:He; simpl; [exact IH'|].
    exfalso. apply (Hpre x); [by left|]. split; [exact Hx|]. exists u. by split.
Qed.

Lemma phi_by_predecessor_none vars pred sources :
  (forall x u, x ∈ sources -> src_block x = pred -> ~ usable vars x u) ->
  phi_by_predecessor vars pred sources = None.
Proof.
  induction sources as [|x sources IH]; intros Hnone; simpl; [reflexivity|].
  assert (IH' : phi_by_predecessor vars pred sources = None).
  { apply IH. intros y v Hy. apply Hnone. by right. }
  destruct (String.eqb_spec (src_block x) pred) as [Hx|Hx]; [|exact IH'].
  destruct (vars !! src_id x) as [u|] eqn:Hu; [|exact IH'].
  destruct (is_error u) eqn:He; simpl; [exact IH'|].
  exfalso. apply (Hnone x u); [by left | exact Hx | by split].
Qed.




(** ** Step counting in the CFG executor *)

Lemma keeps_steps_ret {A} (a : A) : keeps_steps (ret a).
Proof. intros s r s' [= <- <-]. split; [|split]; [reflexivity | reflexivity | discriminate]. Qed.

Lemma keeps_steps_raise {A} e : keeps_steps (@raise LIRRuntimeState A e).
Proof. intros s r s' [= <- <-]. split; [|split]; [reflexivity | reflexivity | discriminate]. Qed.

Lemma keeps_steps_get_state : keeps_steps get_state.
Proof. intros s r s' [= <- <-]. split; [|split]; [reflexivity | reflexivity | discriminate]. Qed.

Lemma keeps_steps_modify f :
  (forall s, lir_steps (f s) = lir_steps s /\ lir_max_steps (f s) = lir_max_steps s) ->
  keeps_steps (modify f).
Proof.
  intros Hf s r s' [= <- <-]. destruct (Hf s) as [Ha Hb].
  split; [exact Ha | split; [exact Hb | discriminate]].
Qed.

Lemma keeps_steps_bind {A B} (m : L A) (k : A -> L B) :
  keeps_steps m -> (forall a, keeps_steps (k a)) -> keeps_steps (bind m k).
Proof.
  intros Hm Hk s r s' Hb.
  apply bind_inv in Hb as [(a & s1 & H1 & H2) | [(e & H1 & ->) | (H1 & ->)]].
  - destruct (Hm _ _ _ H1) as (Ha & Hb & _).
    destruct (Hk a _ _ _ H2) as (Ha' & Hb' & Hc').
    repeat split; [congruence | congruence | exact Hc'].
  - destruct (Hm _ _ _ H1) as (Ha & Hb & _).
    split; [exact Ha | split; [exact Hb | discriminate]].
  - destruct (Hm _ _ _ H1) as (_ & _ & Hc). exfalso. by apply Hc.
Qed.

Lemma keeps_steps_from_host {A} what (o : option A) : keeps_steps (from_host what o).
Proof. destruct o; [apply keeps_steps_ret | apply keeps_steps_raise]. Qed.

Lemma keeps_steps_value_get {A} v key :
  keeps_steps (@value_get LIRRuntimeState A v key).
Proof. apply keeps_steps_raise. Qed.

Lemma keeps_steps_value_getitem {A} v key :
  keeps_steps (@value_getitem LIRRuntimeState A v key).
Proof. apply keeps_steps_raise. Qed.

Ltac keeps :=
  repeat first
    [ apply keeps_steps_ret
    | apply keeps_steps_raise
    | apply keeps_steps_get_state
    | apply keeps_steps_from_host
    | apply keeps_steps_value_get
    | apply keeps_steps_value_getitem
    | apply keeps_steps_modify; intros ?; split; reflexivity
    | apply keeps_steps_bind; [| intros ?] ].

Section LIRSteps.
Context `{Host}.
Variable registry : OperatorRegistry.
Variable effect_registry : EffectRegistry.

Lemma keeps_steps_execute_instruction ins :
  keeps_steps (_execute_instruction registry effect_registry ins).
Proof.
  destruct ins; cbn [_execute_instruction]; unfold returns_error.
  - unfold _execute_assign. keeps.
    + unfold _evaluate_expr. destruct v; keeps.
      * destruct type_annotation; keeps.
      * destruct (_ !! name); keeps.
    + destruct (is_error _); keeps.
  - unfold _execute_call. keeps. destruct (lir_args _ _ _); keeps.
  - unfold _execute_op. keeps. destruct (lir_args _ _ _); keeps.
    destruct (registry_lookup _ _ _); keeps.
    destruct (negb _); keeps. destruct (apply_impl _ _); keeps.
  - unfold _execute_phi. keeps.
    match goal with |- keeps_steps (match ?x with _ => _ end) =>
      destruct x; keeps end.
  - unfold _execute_effect. destruct (lookup_effect _ _); keeps.
    destruct (lir_args _ _ _); keeps.
    destruct (negb _); keeps. destruct (eff_fn _ _); keeps.
  - unfold _execute_assign_ref. keeps. destruct (_ !! v); keeps.
    destruct (is_error _); keeps.
Qed.

Lemma keeps_steps_execute_terminator term :
  keeps_steps (_execute_terminator term).
Proof.
  unfold _execute_terminator. keeps. destruct term; keeps.
  - destruct (_ !! cond) as [v|]; keeps. destruct (is_error v); keeps.
  - destruct (truthy v) as [x|]; keeps. destruct (_ !! x); keeps.
  - destruct (truthy code) as [x|]; keeps. destruct (_ !! x); keeps.
Qed.

(** Executing a block: one step per instruction begun; all of them when
    the block succeeds; and the first step beyond the budget ends the
    block with a [NonTermination] error value. *)
Lemma _execute_block_steps instrs :
  forall s r s',
    _execute_block registry effect_registry instrs s = (r, s') ->
    lir_max_steps s' = lir_max_steps s
    /\ r <> OutOfFuel
    /\ exists k : nat,
         (k <= length instrs)%nat
         /\ lir_steps s' = lir_steps s + Z.of_nat k
         /\ (r = Ret None -> k = length instrs)
         /\ (lir_steps s <= lir_max_steps s -> lir_steps s' > lir_max_steps s ->
             r = Ret (Some (Val (non_termination
                                   "Block execution exceeded maximum steps")))).
Proof.
  induction instrs as [|ins rest IH]; intros s r s' Hb.
  - inversion Hb; subst.
    refine (conj eq_refl (conj _ (ex_intro _ 0%nat (conj _ (conj _ (conj _ _))))));
      [discriminate | simpl; lia | lia | reflexivity | lia].
  - cbn [_execute_block] in Hb. unfold bind at 1 2, modify, get_state in Hb.
    cbn [lir_steps lir_max_steps count_step] in Hb.
    destruct (Z.gtb_spec (lir_steps s + 1) (lir_max_steps s)) as [Hgt|Hle].
    + inversion Hb; subst. cbn.
      refine (conj eq_refl (conj _ (ex_intro _ 1%nat (conj _ (conj _ (conj _ _))))));
        [discriminate | simpl; lia | lia | discriminate | reflexivity].
    + apply bind_inv in Hb as [(a & s1 & H1 & H2) | [(e & H1 & ->) | (H1 & ->)]].
      * destruct (keeps_steps_execute_instruction _ _ _ _ H1) as (Hs1 & Hm1 & _).
        cbn in Hs1, Hm1.
        destruct a as [err|].
        -- inversion H2; subst.
           refine (conj Hm1 (conj _ (ex_intro _ 1%nat (conj _ (conj _ (conj _ _))))));
             [discriminate | simpl; lia | lia | discriminate | lia].
        -- destruct (IH _ _ _ H2) as (Hm & Hr & k & Hk & Hst & Hall & Hnt).
           refine (conj _ (conj Hr (ex_intro _ (S k) (conj _ (conj _ (conj _ _))))));
             [congruence | simpl; lia | lia | |].
           ++ intros Hn. simpl. f_equal. auto.
           ++ intros Hle0 Hgt. apply Hnt; lia.
      * destruct (keeps_steps_execute_instruction _ _ _ _ H1) as (Hs1 & Hm1 & _).
        cbn in Hs1, Hm1.
        refine (conj Hm1 (conj _ (ex_intro _ 1%nat (conj _ (conj _ (conj _ _))))));
          [discriminate | simpl; lia | lia | discriminate | lia].
      * destruct (keeps_steps_execute_instruction _ _ _ _ H1) as (_ & _ & Hc).
        exfalso. by apply Hc.
Qed.

Lemma instructions_run_steps instrs s s' :
  instructions_run registry effect_registry instrs s s' ->
  lir_steps s' = lir_steps s + Z.of_nat (length instrs)
  /\ lir_max_steps s' = lir_max_steps s.
Proof.
  induction 1 as [s | ins rest s s1 s' Hle Hins _ [IHs IHm]]; [simpl; lia|].
  destruct (keeps_steps_execute_instruction _ _ _ _ Hins) as (Hs1 & Hm1 & _).
  cbn in Hs1, Hm1. simpl length. split; [lia | congruence].
Qed.

(** A run of a block, instruction by instruction: either all instructions
    run, or the instructions before some instruction [ins] run and then
    [ins] is counted; that count either exceeds the budget, and [ins] is
    not executed, or it does not, and [ins] is executed and fails. *)
Lemma _execute_block_trace instrs :
  forall s r s',
    _execute_block registry effect_registry instrs s = (r, s') ->
    (r = Ret None /\ instructions_run registry effect_registry instrs s s')
    \/ exists pre ins post s1,
         instrs = (pre ++ ins :: post)%list
         /\ instructions_run registry effect_registry pre s s1
         /\ ((lir_steps s1 + 1 > lir_max_steps s1
              /\ s' = count_step s1
              /\ r = Ret (Some (Val (non_termination
                                       "Block execution exceeded maximum steps"))))
             \/ (lir_steps s1 + 1 <= lir_max_steps s1
                 /\ _execute_instruction registry effect_registry ins (count_step s1)
                    = (r, s')
                 /\ r <> Ret None)).
Proof.
  induction instrs as [|ins rest IH]; intros s r s' Hb.
  - inversion Hb; subst. left. split; [reflexivity | constructor].
  - cbn [_execute_block] in Hb. unfold bind at 1 2, modify, get_state in Hb.
    cbn [lir_steps lir_max_steps count_step] in Hb.
    destruct (Z.gtb_spec (lir_steps s + 1) (lir_max_steps s)) as [Hgt|Hle].
    + inversion Hb; subst. right. exists [], ins, rest, s.
      split; [reflexivity|]. split; [constructor|]. left.
      split; [lia|]. split; reflexivity.
    + fold (count_step s) in Hb.
      apply bind_inv in Hb as [(a & s1 & H1 & H2) | [(e & H1 & ->) | (H1 & ->)]].
      * destruct a as [err|].
        -- inversion H2; subst. right. exists [], ins, rest, s.
           split; [reflexivity|]. split; [constructor|]. right.
           split; [lia|]. split; [exact H1 | discriminate].
        -- destruct (IH _ _ _ H2)
             as [[-> Hrun] | (pre & ins' & post & s2 & -> & Hrun & Hstop)].
           ++ left. split; [reflexivity|]. by eapply run_next.
           ++ right. exists (ins :: pre), ins', post, s2.
              split; [reflexivity|]. split; [by eapply run_next | exact Hstop].
      * right. exists [], ins, rest, s.
        split; [reflexivity|]. split; [constructor|]. right.
        split; [lia|]. split; [exact H1 | discriminate].
      * destruct (keeps_steps_execute_instruction _ _ _ _ H1) as (_ & _ & Hc).
        exfalso. by apply Hc.
Qed.
End LIRSteps.

(** X4.  The branch terminator selects no block.  A condition variable
    that is unbound or bound to an error value gives an error value; for
    every other value, a bool included, the terminator raises an
    [AttributeError], because it reads the value's kind with [get], a
    method the value classes do not have.  The state is unchanged. *)
Lemma branch_selects_no_block cond then_branch else_branch s :
  _execute_terminator (LirTermBranch cond then_branch else_branch) s
  = (match vars s !! cond with
     | None =>
         Ret (inr (ErrorVal "UnboundIdentifier"
                     (Some ("Condition variable not found: " ++ cond)) None))
     | Some v =>
         if is_error v then Ret (inr v) else Raise (HostError "AttributeError")
     end, s).
Proof.
  unfold _execute_terminator, bind, get_state.
  destruct (vars s !! cond) as [v|]; [|reflexivity].
  destruct (is_error v); reflexivity.
Qed.

Lemma unvisited_le blocks executed : (unvisited blocks executed <= length blocks)%nat.
Proof. apply length_filter. Qed.

Lemma unvisited_mono blocks (executed executed' : gset string) :
  executed ⊆ executed' ->
  (unvisited blocks executed' <= unvisited blocks executed)%nat.
Proof.
  intros Hsub. unfold unvisited.
  induction blocks as [|b blocks IH]; [reflexivity|].
  rewrite !filter_cons.
  destruct (decide (block_id b ∉ executed')), (decide (block_id b ∉ executed));
    simpl; try lia.
  exfalso. set_solver.
Qed.

Lemma unvisited_enter blocks (executed : gset string) b :
  b ∈ blocks -> block_id b ∉ executed ->
  (unvisited blocks ({[block_id b]} ∪ executed) < unvisited blocks executed)%nat.
Proof.
  intros Hb Hnew. unfold unvisited.
  induction blocks as [|c blocks IH]; [by apply elem_of_nil in Hb|].
  rewrite !filter_cons.
  assert (Hsub : executed ⊆ {[block_id b]} ∪ executed) by apply union_subseteq_r.
  assert (Hle := unvisited_mono blocks executed ({[block_id b]} ∪ executed) Hsub).
  unfold unvisited in Hle.
  apply elem_of_cons in Hb as [Hb | Hb].
  - subst c.
    destruct (decide (block_id b ∉ {[block_id b]} ∪ executed)) as [Hn|_];
      [exfalso; set_solver|].
    destruct (decide (block_id b ∉ executed)); [simpl; lia | contradiction].
  - specialize (IH Hb).
    destruct (decide (block_id c ∉ {[block_id b]} ∪ executed)),
             (decide (block_id c ∉ executed)); simpl; try lia.
    exfalso. set_solver.
Qed.

Lemma find_block_Some blocks id b :
  find_block blocks id = Some b -> b ∈ blocks /\ block_id b = id.
Proof.
  unfold find_block. intros Hf. apply find_some in Hf as [Hin Heq].
  split; [by apply list_elem_of_In | by apply String.eqb_eq].
Qed.

Ltac run_ok_split := unfold run_ok; refine (conj _ (conj _ (conj _ _))).

Section CfgLoop.
Context `{Host}.
Variable registry : OperatorRegistry.
Variable effect_registry : EffectRegistry.

Lemma run_block_ok fuel blocks loop :
  (forall cur executed s r s',
      loop cur executed s = (r, s') -> run_ok fuel blocks executed s r s' True) ->
  forall cur executed s r s',
    run_block registry effect_registry loop blocks cur executed s = (r, s') ->
    run_ok fuel blocks executed s r s' (is_Some (find_block blocks cur)).
Proof.
  intros Hloop cur executed s r s' Hr. unfold run_block in Hr.
  destruct (find_block blocks cur) as [b|] eqn:Hfind.
  2:{ inversion Hr; subst. run_ok_split; [reflexivity | lia | intros; lia | discriminate]. }
  apply bind_inv in Hr as [(a & s1 & H1 & H2) | [(e & H1 & ->) | (H1 & ->)]].
  - destruct (_execute_block_steps _ _ _ _ _ _ H1)
      as (Hm1 & _ & k & _ & Hst1 & _ & Hnt1).
    destruct a as [err|].
    + inversion H2; subst. run_ok_split; [exact Hm1 | lia | | discriminate].
      intros Hle Hgt. specialize (Hnt1 Hle Hgt). inversion Hnt1; subst. eauto.
    + assert (Hin1 : lir_steps s <= lir_max_steps s -> lir_steps s1 <= lir_max_steps s).
      { intros Hle. destruct (Z_le_gt_dec (lir_steps s1) (lir_max_steps s)) as [|Hgt];
          [assumption|]. specialize (Hnt1 Hle Hgt). discriminate. }
      apply bind_inv in H2 as [(t & s2 & H3 & H4) | [(e & H3 & ->) | (H3 & ->)]].
      * destruct (keeps_steps_execute_terminator _ _ _ _ H3) as (Hs2 & Hm2 & _).
        destruct t as [next|v].
        -- unfold bind, modify in H4. cbn in H4.
           destruct (Hloop _ _ _ _ _ H4) as (Hm & Hs & Hnt & Hf). cbn in Hm, Hs, Hnt, Hf.
           run_ok_split; [congruence | lia | |].
           ++ intros Hle Hgt. apply Hnt; [|lia]. rewrite Hs2, Hm2, Hm1. auto.
           ++ intros Hfuel. apply Hf. intros _.
              assert (Hfuel' := Hfuel ltac:(eauto)). rewrite Hs2, Hm2, Hm1. lia.
        -- inversion H4; subst. run_ok_split; [congruence | lia | | discriminate].
           intros Hle Hgt. specialize (Hin1 Hle). lia.
      * destruct (keeps_steps_execute_terminator _ _ _ _ H3) as (Hs2 & Hm2 & _).
        run_ok_split; [congruence | lia | | discriminate].
        intros Hle Hgt. specialize (Hin1 Hle). lia.
      * destruct (keeps_steps_execute_terminator _ _ _ _ H3) as (_ & _ & Hc).
        exfalso. by apply Hc.
  - destruct (_execute_block_steps _ _ _ _ _ _ H1)
      as (Hm1 & _ & k & _ & Hst1 & _ & Hnt1).
    run_ok_split; [exact Hm1 | lia | | discriminate].
    intros Hle Hgt. specialize (Hnt1 Hle Hgt). discriminate.
  - destruct (_execute_block_steps _ _ _ _ _ _ H1) as (_ & Hc & _).
    exfalso. by apply Hc.
Qed.

Lemma cfg_loop_spec fuel blocks :
  forall cur executed s r s',
    cfg_loop registry effect_registry fuel blocks cur executed s = (r, s') ->
    run_ok fuel blocks executed s r s' True.
Proof.
  induction fuel as [|fuel IH]; intros cur executed s r s' Hr.
  - simpl in Hr. destruct (String.eqb cur "").
    + inversion Hr; subst.
      run_ok_split; [reflexivity | lia | intros; lia | discriminate].
    + inversion Hr; subst. run_ok_split; [reflexivity | lia | intros; lia |].
      intros Hf. specialize (Hf I). lia.
  - cbn [cfg_loop] in Hr. destruct (String.eqb cur "").
    { inversion Hr; subst.
      run_ok_split; [reflexivity | lia | intros; lia | discriminate]. }
    destruct (bool_decide (cur ∈ executed)) eqn:Hin.
    + unfold bind at 1 2, modify, get_state in Hr.
      cbn [lir_steps lir_max_steps count_step] in Hr.
      destruct (Z.gtb_spec (lir_steps s + 1) (lir_max_steps s)) as [Hgt|Hle].
      * inversion Hr; subst. cbn.
        run_ok_split; [reflexivity | cbn; lia | eauto | discriminate].
      * destruct (run_block_ok fuel blocks _ (IH) _ _ _ _ _ Hr)
          as (Hm & Hs & Hnt & Hf). cbn in Hm, Hs, Hnt, Hf.
        run_ok_split; [exact Hm | lia | |].
        -- intros _ Hgt. apply Hnt; lia.
        -- intros Hfuel. apply Hf. intros _. specialize (Hfuel I). lia.
    + destruct (run_block_ok fuel blocks _ (IH) _ _ _ _ _ Hr)
        as (Hm & Hs & Hnt & Hf).
      run_ok_split; [exact Hm | exact Hs | exact Hnt |].
      intros Hfuel. apply Hf. intros [b Hb]. specialize (Hfuel I).
      apply find_block_Some in Hb as [Hb <-].
      apply bool_decide_eq_false in Hin.
      assert (Hlt := unvisited_enter blocks executed b Hb Hin). lia.
Qed.
End CfgLoop.

(** C5, counterexample.  The execution runs one instruction and one
    terminator and ends with the step counter at one: the terminator was
    not counted. *)
Lemma terminator_counts_no_step :
  lir_evaluate (∅ : OperatorRegistry) (∅ : EffectRegistry) None
    steps_example_doc None 0
  = (Ret (Val (BoolVal true)),
     mkLIRRuntimeState {["x" := BoolVal true]} (Some (BoolVal true)) [] 1 10000 None,
     0%nat).
Proof. vm_compute. reflexivity. Qed.

(** C5, amended.  During LIR CFG execution (1) every instruction that is
    executed increments the step counter by exactly one: the execution of
    an instruction itself leaves the counter alone, and a block counts one
    step before each instruction it executes.  So a block either runs all
    its instructions, and adds their number, or it runs the instructions
    before some instruction and then counts that instruction; if that count
    exceeds [max_steps] the instruction is not executed and the block ends
    with a [NonTermination] error value, and otherwise the instruction is
    executed, fails, and ends the block.  (2) A terminator leaves the
    counter unchanged; (3) entering a block that was executed before counts
    one step, and otherwise goes on as a first entry does; (4) when the
    counter has come to exceed [max_steps], the execution has stopped with
    a [NonTermination] error value; (5) the execution always ends. *)
Theorem lir_step_counting `{Host} registry effect_registry :
  (forall ins s r s',
      _execute_instruction registry effect_registry ins s = (r, s') ->
      lir_steps s' = lir_steps s)
  /\ (forall instrs s r s',
      _execute_block registry effect_registry instrs s = (r, s') ->
      (r = Ret None
       /\ instructions_run registry effect_registry instrs s s'
       /\ lir_steps s' = lir_steps s + Z.of_nat (length instrs))
      \/ exists pre ins post s1,
           instrs = (pre ++ ins :: post)%list
           /\ instructions_run registry effect_registry pre s s1
           /\ lir_steps s' = lir_steps s + Z.of_nat (length pre) + 1
           /\ ((lir_steps s' > lir_max_steps s
                /\ s' = count_step s1
                /\ r = Ret (Some (Val (non_termination
                                         "Block execution exceeded maximum steps"))))
               \/ (lir_steps s' <= lir_max_steps s
                   /\ _execute_instruction registry effect_registry ins (count_step s1)
                      = (r, s')
                   /\ r <> Ret None)))
  /\ (forall term s r s',
      _execute_terminator term s = (r, s') -> lir_steps s' = lir_steps s)
  /\ (forall fuel blocks cur executed s,
      cur <> "" -> cur ∈ executed ->
      cfg_loop registry effect_registry (S fuel) blocks cur executed s
      = if lir_steps s + 1 >? lir_max_steps s
        then (Ret (Val (non_termination "LIR execution exceeded maximum steps")),
              count_step s)
        else cfg_loop registry effect_registry (S fuel) blocks cur
               (executed ∖ {[cur]}) (count_step s))
  /\ (forall options doc inputs drawn r s d,
      lir_evaluate registry effect_registry options doc inputs drawn = (r, s, d) ->
      0 <= lir_max_steps s ->
      lir_steps s > lir_max_steps s ->
      exists m, r = Ret (Val (non_termination m)))
  /\ (forall options doc inputs drawn,
      (lir_evaluate registry effect_registry options doc inputs drawn).1.1
      <> OutOfFuel).
Proof.
  split; [|split; [|split; [|split; [|split]]]].
  - intros ins s r s' Hi.
    by destruct (keeps_steps_execute_instruction _ _ _ _ _ _ Hi) as (Hs & _).
  - intros instrs s r s' Hb.
    destruct (_execute_block_trace _ _ _ _ _ _ Hb)
      as [[-> Hrun] | (pre & ins & post & s1 & -> & Hrun & Hstop)].
    + left. split; [reflexivity|]. split; [exact Hrun|].
      by destruct (instructions_run_steps _ _ _ _ _ Hrun).
    + right. exists pre, ins, post, s1.
      destruct (instructions_run_steps _ _ _ _ _ Hrun) as [Hs1 Hm1].
      split; [reflexivity|]. split; [exact Hrun|].
      destruct Hstop as [(Hgt & -> & ->) | (Hle & Hins & Hr)].
      * cbn [count_step lir_steps]. split; [lia|]. left.
        split; [lia|]. split; reflexivity.
      * destruct (keeps_steps_execute_instruction _ _ _ _ _ _ Hins) as (Hs' & _).
        cbn in Hs'. split; [lia|]. right. split; [lia|]. by split.
  - intros term s r s' Ht.
    by destruct (keeps_steps_execute_terminator _ _ _ _ Ht) as (Hs & _).
  - intros fuel blocks cur executed s Hne Hin.
    cbn [cfg_loop]. apply String.eqb_neq in Hne. rewrite Hne.
    rewrite (bool_decide_eq_true_2 _ Hin).
    assert (Hout : bool_decide (cur ∈ executed ∖ {[cur]}) = false).
    { apply bool_decide_eq_false. rewrite elem_of_difference, elem_of_singleton.
      intros [_ Hn]. by apply Hn. }
    rewrite Hout.
    assert (Hset : {[cur]} ∪ executed ∖ {[cur]} = executed).
    { apply set_eq. intros x. rewrite elem_of_union, elem_of_difference,
        elem_of_singleton. split; [intros [->|[? _]]; auto|].
      intros Hx. destruct (decide (x = cur)); [by left | by right]. }
    rewrite Hset. unfold bind at 1 2, modify, get_state.
    cbn [lir_steps lir_max_steps count_step].
    destruct (_ >? _); reflexivity.
  - intros options doc inputs drawn r s d He Hmax Hgt. unfold lir_evaluate in He.
    destruct (node_map _ !! _) as [[id t e | id t blocks entry]|].
    + inversion He; subst. cbn in *. lia.
    + destruct (find_block blocks entry).
      * destruct (cfg_loop _ _ _ _ _ _ _) as [r0 s0] eqn:Hloop.
        inversion He; subst.
        destruct (cfg_loop_spec _ _ _ _ _ _ _ _ _ Hloop) as (Hm & _ & Hnt & _).
        cbn in Hm, Hnt. apply Hnt; lia.
      * inversion He; subst. cbn in *. lia.
    + inversion He; subst. cbn in *. lia.
  - intros options doc inputs drawn. unfold lir_evaluate.
    destruct (node_map _ !! _) as [[id t e | id t blocks entry]|];
      [discriminate | | discriminate].
    destruct (find_block blocks entry); [|discriminate].
    destruct (cfg_loop _ _ _ _ _ _ _) as [r0 s0] eqn:Hloop. cbn.
    destruct (cfg_loop_spec _ _ _ _ _ _ _ _ _ Hloop) as (_ & _ & _ & Hf).
    apply Hf. intros _. unfold cfg_fuel.
    assert (Hle := unvisited_le blocks ∅). lia.
Qed.

(** The instruction of [failing_block] is executed and fails: it is counted. *)
Lemma lir_step_counting_witness :
  lir_steps (_execute_block no_operators no_effects failing_block
               steps_example_state).2
  = 1.
Proof.
  destruct (_execute_block no_operators no_effects failing_block steps_example_state)
    as [r s'] eqn:Hb.
  assert (Hr : r <> Ret None).
  { vm_compute in Hb. injection Hb as <- _. discriminate. }
  destruct (proj1 (proj2 (lir_step_counting no_operators no_effects))
              failing_block steps_example_state r s' Hb)
    as [[Hnone _] | (pre & ins & post & s1 & Hsplit & _ & Hs' & _)];
    [contradiction|].
  cbn [snd]. rewrite Hs'.
  destruct pre as [|? [|? ?]]; try discriminate. reflexivity.
Defined.

(** ** Operator calls and error operands *)

Lemma eval_call_args_prefix ev env pre rest w vs w1 acc :
  evaluates_operands ev env pre w vs w1 ->
  eval_call_args ev env (pre ++ rest) acc w
  = eval_call_args ev env rest (acc ++ vs) w1.
Proof.
  intros Hpre. revert acc.
  induction Hpre as [w | x v pre w vs w' Hx Hv _ IH | e v pre w w0 vs w' He Hv _ IH];
    intros acc; simpl.
  - by rewrite app_nil_r.
  - unfold lookup_value. rewrite Hx, IH, <- app_assoc. reflexivity.
  - unfold bind. rewrite He. cbn [value_of ret]. rewrite Hv, IH, <- app_assoc.
    reflexivity.
Qed.

Lemma lir_args_prefix (vars : gmap string value) pre rest acc :
  Forall (fun x => exists v, vars !! x = Some v /\ is_error v = false) pre ->
  exists vs, lir_args vars (pre ++ rest) acc = lir_args vars rest (acc ++ vs).
Proof.
  intros Hpre. revert acc.
  induction Hpre as [|x pre (v & Hx & Hv) _ IH]; intros acc; simpl.
  - exists []. by rewrite app_nil_r.
  - rewrite Hx, Hv. destruct (IH (acc ++ [v])%list) as (vs & ->).
    exists (v :: vs). by rewrite <- app_assoc.
Qed.

(** C6, counterexample.  In the call [core:add(a, b)] of the expression
    evaluator both operands are node references and [a] is an error value;
    the result is a [DomainError], not the operand. *)
Lemma call_of_references_does_not_propagate :
  call_error_env !! "a" = Some (ErrorVal "DivideByZero" None None)
  /\ (evaluate (∅ : OperatorRegistry) (CallExpr "core" "add" [inl "a"; inl "b"])
        call_error_env None 0).1
     = Ret (Val (ErrorVal "DomainError"
                   (Some "Call must be resolved during program evaluation") None)).
Proof. split; [reflexivity | vm_compute; reflexivity]. Qed.

(** C6, amended.  (1) An LIR [op] instruction looks its operands up left
    to right, and the first operand that is an error value is the
    instruction's result: whatever the registry holds, no implementation is
    invoked and nothing is assigned.  (2) In the expression evaluator, a call
    with an inline operand evaluates its operands left to right, and the
    first inline operand that evaluates to an error value is the call's
    result, whatever the registry holds.  (3) A call whose operands are all
    node references evaluates none of them and yields a [DomainError]. *)
Theorem error_operand_short_circuits :
  (forall registry target ns name pre a post e s,
      Forall (fun x => exists v, vars s !! x = Some v /\ is_error v = false) pre ->
      vars s !! a = Some e ->
      is_error e = true ->
      _execute_op registry target ns name (pre ++ a :: post) s
      = (Ret (Some (Val e)), s))
  /\ (forall registry ev ns name pre arg post env w vs w1 e w2,
      evaluates_operands ev env pre w vs w1 ->
      ev arg env w1 = (Ret (Val e), w2) ->
      is_error e = true ->
      _eval_call registry ev ns name (pre ++ inr arg :: post) env w
      = (Ret (Val e), w2))
  /\ (forall registry ev ns name args env w,
      existsb is_inline args = false ->
      _eval_call registry ev ns name args env w
      = (Ret (Val (ErrorVal "DomainError"
                     (Some "Call must be resolved during program evaluation") None)),
         w)).
Proof.
  split; [|split].
  - intros registry target ns name pre a post e s Hpre Ha He.
    unfold _execute_op, bind, get_state.
    destruct (lir_args_prefix (vars s) pre (a :: post) [] Hpre) as (vs & ->).
    simpl. by rewrite Ha, He.
  - intros registry ev ns name pre arg post env w vs w1 e w2 Hpre Harg He.
    unfold _eval_call.
    assert (Hinl : existsb is_inline (pre ++ inr arg :: post) = true).
    { rewrite existsb_app. simpl. by rewrite orb_true_r. }
    rewrite Hinl. cbn [negb]. unfold bind.
    rewrite (eval_call_args_prefix _ _ _ _ _ _ _ _ Hpre). simpl.
    unfold bind. rewrite Harg. cbn [value_of ret]. by rewrite He.
  - intros registry ev ns name args env w Hall.
    unfold _eval_call. by rewrite Hall.
Qed.

Lemma error_operand_short_circuits_witness :
  _execute_op no_operators "t" "core" "add" ["a"; "b"; "c"] op_example_state
  = (Ret (Some (Val (ErrorVal "DivideByZero" None None))), op_example_state).
Proof.
  apply (proj1 error_operand_short_circuits no_operators "t" "core" "add"
           ["a"] "b" ["c"]).
  - constructor; [|constructor]. exists (IntVal 1). split; reflexivity.
  - reflexivity.
  - reflexivity.
Defined.

(** ** The race detector *)

Lemma append_access_consistent location access table :
  acc_location access = location ->
  table_consistent table ->
  table_consistent (append_access location access table).
Proof.
  intros Hloc. induction table as [|[l accs] table IH]; intros Hc l' accs' a Hin Ha.
  - simpl in Hin. apply list_elem_of_singleton in Hin.
    injection Hin as -> ->.
    apply list_elem_of_singleton in Ha. by rewrite Ha.
  - assert (Htail : table_consistent table).
    { intros l0 accs0 a0 H0. apply Hc. by right. }
    assert (Hhead : forall a0, a0 ∈ accs -> acc_location a0 = l).
    { intros a0. apply Hc. by left. }
    simpl in Hin. destruct (String.eqb_spec l location) as [Heq|Hne].
    + apply elem_of_cons in Hin as [Hin|Hin].
      * injection Hin as -> ->. apply elem_of_app in Ha as [Ha|Ha].
        -- by apply Hhead.
        -- apply list_elem_of_singleton in Ha. rewrite Ha. congruence.
      * apply (Htail l' accs' a Hin Ha).
    + apply elem_of_cons in Hin as [Hin|Hin].
      * injection Hin as -> ->. by apply Hhead.
      * apply (IH Htail l' accs' a Hin Ha).
Qed.

Lemma detector_step_consistent d c :
  table_consistent (accesses d) -> table_consistent (accesses (detector_step d c)).
Proof.
  intros Hc. destruct c as [t l ty v now | t ids |]; simpl.
  - unfold record_access. destruct (negb _); [exact Hc|]. simpl.
    by apply append_access_consistent.
  - unfold record_sync_point. destruct (negb _); exact Hc.
  - intros l accs a Hin. by apply elem_of_nil in Hin.
Qed.

Lemma detector_run_consistent calls d :
  table_consistent (accesses d) ->
  table_consistent (accesses (detector_run d calls)).
Proof.
  revert d. induction calls as [|c calls IH]; intros d Hc; simpl; [exact Hc|].
  apply IH. by apply detector_step_consistent.
Qed.

Lemma _has_happens_before_false a1 a2 :
  _has_happens_before a1 a2 = false ->
  (acc_task_id a2 ∉ happens_before a1)
  /\ (acc_task_id a1 ∉ happens_before a2)
  /\ happens_before a1 ## happens_before a2.
Proof.
  unfold _has_happens_before. intros Hhb.
  destruct (bool_decide (acc_task_id a2 ∈ happens_before a1)) eqn:H1; [discriminate|].
  destruct (bool_decide (acc_task_id a1 ∈ happens_before a2)) eqn:H2; [discriminate|].
  apply bool_decide_eq_false in H1, H2. split; [exact H1|]. split; [exact H2|].
  intros x Hx1 Hx2.
  assert (Hex : existsb (fun ancestor_id => bool_decide (ancestor_id ∈ happens_before a2))
                  (elements (happens_before a1)) = true).
  { apply existsb_exists. exists x. split.
    - apply list_elem_of_In. by apply elem_of_elements.
    - by apply bool_decide_eq_true. }
  congruence.
Qed.

(** A reported race comes from one pair of accesses. *)
Lemma _check_pair_for_race_Some location a1 a2 race :
  _check_pair_for_race location a1 a2 = Some race ->
  race_location race = location
  /\ race_tasks race = (acc_task_id a1, acc_task_id a2)
  /\ race_access_types race = (acc_type a1, acc_type a2)
  /\ acc_task_id a1 <> acc_task_id a2
  /\ (acc_task_id a2 ∉ happens_before a1)
  /\ (acc_task_id a1 ∉ happens_before a2)
  /\ (happens_before a1 ## happens_before a2)
  /\ ((acc_type a1 = Write /\ acc_type a2 = Write /\ conflict_type race = W_W)
      \/ (acc_type a1 = Write /\ acc_type a2 = Read /\ conflict_type race = W_R)
      \/ (acc_type a1 = Read /\ acc_type a2 = Write /\ conflict_type race = R_W)).
Proof.
  unfold _check_pair_for_race. intros Hc.
  destruct (String.eqb_spec (acc_task_id a1) (acc_task_id a2)) as [|Hne]; [discriminate|].
  destruct (_has_happens_before a1 a2) eqn:Hhb; [discriminate|].
  apply _has_happens_before_false in Hhb as (H1 & H2 & H3).
  unfold _get_conflict_type in Hc.
  destruct (acc_type a1) eqn:T1, (acc_type a2) eqn:T2; try discriminate;
    inversion Hc; subst; cbn; repeat split; auto.
Qed.

Lemma races_at_pair location accs race :
  race ∈ races_at location accs ->
  exists i j a1 a2,
    (i < j)%nat /\ accs !! i = Some a1 /\ accs !! j = Some a2
    /\ _check_pair_for_race location a1 a2 = Some race.
Proof.
  induction accs as [|a accs IH]; simpl; intros Hin.
  - by apply elem_of_nil in Hin.
  - apply elem_of_app in Hin as [Hin|Hin].
    + apply list_elem_of_omap in Hin as (a2 & Ha2 & Hc).
      apply list_elem_of_lookup in Ha2 as (j & Hj).
      exists 0%nat, (S j), a, a2. repeat split; [lia | exact Hj | exact Hc].
    + destruct (IH Hin) as (i & j & a1 & a2 & Hij & Hi & Hj & Hc).
      exists (S i), (S j), a1, a2. repeat split; [lia | exact Hi | exact Hj | exact Hc].
Qed.

(** C8.  Every race that [detect_races] reports, in a detector that was
    driven by any sequence of calls, is a pair of accesses recorded for the
    same location, the location of the report, such that (a) their task ids
    differ; (b) neither access's happens-before set contains the other
    access's task id, and the two sets have no common element; (c) at least
    one of the two is a write, so that no read-read pair is reported, and the
    conflict type is W-W, W-R or R-W as the two access kinds say. *)
Theorem detect_races_sound options calls race :
  let d := detector_run (new_race_detector options) calls in
  race ∈ detect_races d ->
  exists accs i j a1 a2,
    (race_location race, accs) ∈ accesses d
    /\ (i < j)%nat /\ accs !! i = Some a1 /\ accs !! j = Some a2
    /\ acc_location a1 = race_location race
    /\ acc_location a2 = race_location race
    /\ race_tasks race = (acc_task_id a1, acc_task_id a2)
    /\ race_access_types race = (acc_type a1, acc_type a2)
    /\ acc_task_id a1 <> acc_task_id a2
    /\ (acc_task_id a2 ∉ happens_before a1)
    /\ (acc_task_id a1 ∉ happens_before a2)
    /\ (happens_before a1 ## happens_before a2)
    /\ ((acc_type a1 = Write /\ acc_type a2 = Write /\ conflict_type race = W_W)
        \/ (acc_type a1 = Write /\ acc_type a2 = Read /\ conflict_type race = W_R)
        \/ (acc_type a1 = Read /\ acc_type a2 = Write /\ conflict_type race = R_W)).
Proof.
  intros d Hin.
  assert (Hcons : table_consistent (accesses d)).
  { apply detector_run_consistent. intros l accs a Hl. by apply elem_of_nil in Hl. }
  unfold detect_races in Hin.
  destruct (negb _); [by apply elem_of_nil in Hin|].
  apply list_elem_of_In, in_concat in Hin as (rs & Hrs & Hr).
  apply in_map_iff in Hrs as ([l accs] & <- & Hl).
  apply list_elem_of_In in Hr, Hl.
  destruct (races_at_pair _ _ _ Hr) as (i & j & a1 & a2 & Hij & Hi & Hj & Hc).
  destruct (_check_pair_for_race_Some _ _ _ _ Hc)
    as (Hloc & Ht & Hty & Hne & H1 & H2 & H3 & Hk).
  subst l. exists accs, i, j, a1, a2.
  assert (Ha1 : a1 ∈ accs) by (apply list_elem_of_lookup; eauto).
  assert (Ha2 : a2 ∈ accs) by (apply list_elem_of_lookup; eauto).
  repeat split; eauto.
Qed.

Lemma detect_races_sound_witness :
  race_example ∈ detect_races (detector_run (new_race_detector None) race_example_calls)
  /\ exists a1 a2,
       acc_location a1 = "L" /\ acc_location a2 = "L"
       /\ acc_task_id a1 <> acc_task_id a2
       /\ race_tasks race_example = (acc_task_id a1, acc_task_id a2).
Proof.
  assert (Hin : race_example
                ∈ detect_races (detector_run (new_race_detector None) race_example_calls)).
  { apply list_elem_of_singleton. vm_compute. reflexivity. }
  split; [exact Hin|].
  destruct (detect_races_sound None race_example_calls race_example Hin)
    as (accs & i & j & a1 & a2 & _ & _ & _ & _ & H1 & H2 & Ht & _ & Hne & _).
  exists a1, a2. split; [exact H1|]. split; [exact H2|]. split; [exact Hne | exact Ht].
Defined.

(** ** The scheduler's [is_complete] *)

Lemma scheduler_step_valid s ev : table_valid s -> table_valid (scheduler_step s ev).
Proof.
  intros Hv. destruct ev as [id | h v | h | id]; simpl.
  - intros id' h'. unfold spawn. cbn. rewrite length_app. cbn.
    destruct (decide (id = id')) as [->|Hne].
    + rewrite lookup_insert_eq. intros [= <-]. lia.
    + rewrite lookup_insert_ne by done. intros Hl. specialize (Hv _ _ Hl). lia.
  - intros id' h'. unfold task_returns. cbn. rewrite length_alter. apply Hv.
  - intros id' h'. unfold task_raises. cbn. rewrite length_alter. apply Hv.
  - unfold cancel. destruct (_tasks s !! id) as [h|] eqn:Hid; [|exact Hv].
    intros id' h'. cbn. rewrite length_alter.
    destruct (decide (id = id')) as [->|Hne].
    + by rewrite lookup_delete_eq.
    + rewrite lookup_delete_ne by done. apply Hv.
Qed.

Lemma scheduler_run_valid evs s : table_valid s -> table_valid (scheduler_run s evs).
Proof.
  revert s. induction evs as [|ev evs IH]; intros s Hv; simpl; [exact Hv|].
  apply IH. by apply scheduler_step_valid.
Qed.

(** C9, counterexample.  In a fresh scheduler no task was ever spawned, and
    [is_complete] returns true for the id [t]. *)
Lemma is_complete_never_spawned :
  _tasks (new_scheduler 1000000 100) !! "t" = None
  /\ is_complete "t" (new_scheduler 1000000 100) = true.
Proof. split; reflexivity. Qed.

Lemma never_spawned_absent evs s id :
  _tasks s !! id = None ->
  Forall (fun ev => ev <> Spawn id) evs ->
  _tasks (scheduler_run s evs) !! id = None.
Proof.
  intros Hs Hall. revert s Hs.
  induction Hall as [|ev evs Hev _ IH]; intros s Hs; simpl; [exact Hs|].
  apply IH. destruct ev as [id' | h v | h | id']; simpl.
  - unfold spawn. cbn. rewrite lookup_insert_ne; [exact Hs | congruence].
  - exact Hs.
  - exact Hs.
  - unfold cancel. destruct (_tasks s !! id') as [h|] eqn:Hid; [|exact Hs].
    cbn. destruct (decide (id' = id)) as [->|Hne].
    + apply lookup_delete_eq.
    + by rewrite lookup_delete_ne.
Qed.

(** C9, amended.  In a scheduler driven by any sequence of spawns, task
    endings and cancellations, [is_complete(t)] returns true if and only if
    the task table has no entry for [t] (it was never spawned, or it was
    cancelled) or the status of [t]'s task is completed or failed.  In
    particular it returns true for an id that was never spawned, false for
    a task that was just spawned and is still pending, and true once the
    task is cancelled. *)
Theorem is_complete_iff global_max_steps yield_interval evs id :
  let s := scheduler_run (new_scheduler global_max_steps yield_interval) evs in
  (is_complete id s = true
   <-> (_tasks s !! id = None
        \/ exists h task,
             _tasks s !! id = Some h /\ task_objects s !! h = Some task
             /\ (status task = COMPLETED \/ status task = FAILED)))
  /\ (Forall (fun ev => ev <> Spawn id) evs -> is_complete id s = true)
  /\ is_complete id (spawn id s) = false
  /\ is_complete id (cancel id s) = true.
Proof.
  intros s.
  assert (Hv : table_valid s).
  { apply scheduler_run_valid. intros id' h'. cbn. by rewrite lookup_empty. }
  split; [|split; [|split]].
  - unfold is_complete. destruct (_tasks s !! id) as [h|] eqn:Hid.
    + destruct (lookup_lt_is_Some_2 _ _ (Hv _ _ Hid)) as [task Ht]. rewrite Ht.
      split.
      * intros Hs. right. exists h, task. repeat split; auto.
        destruct (status task); auto; discriminate.
      * intros [Hn | (h' & task' & Hh & Ht' & Hs)]; [discriminate|].
        injection Hh as <-. rewrite Ht in Ht'. injection Ht' as <-.
        destruct Hs as [-> | ->]; reflexivity.
    + split; auto.
  - intros Hall. unfold is_complete, s.
    by rewrite (never_spawned_absent evs _ id (lookup_empty _) Hall).
  - unfold is_complete, spawn. cbn. rewrite lookup_insert_eq.
    rewrite lookup_app_r by lia. by rewrite Nat.sub_diag.
  - unfold is_complete, cancel. destruct (_tasks s !! id) as [h|] eqn:Hid.
    + cbn. by rewrite lookup_delete_eq.
    + by rewrite Hid.
Qed.

Lemma is_complete_iff_witness :
  is_complete "b"
    (scheduler_run (new_scheduler 1000000 100) [Spawn "a"; TaskReturns 0 (IntVal 1)])
  = true.
Proof.
  apply (proj1 (proj2 (is_complete_iff 1000000 100
                         [Spawn "a"; TaskReturns 0 (IntVal 1)] "b"))).
  repeat constructor; discriminate.
Defined.

(** ** [hash_value] and set and map literals *)

Lemma hash_value_ground `{Host} :
  forall v h w, ground_hash v = Some h -> hash_value v w = (Ret h, w).
Proof.
  fix IH 1. intros v h w Hg.
  destruct v as [| | | | | |?|[[| | | | | |v']|]| | | | | | | | |];
    simpl in Hg; try discriminate; try (injection Hg as <-; reflexivity).
  destruct (ground_hash v') as [h'|] eqn:Hv'; [|discriminate].
  injection Hg as <-. simpl. unfold bind. by rewrite (IH v' h' w Hv').
Qed.

Lemma hash_value_identity `{Host} v w :
  identity_hashed v = true ->
  hash_value v w
  = (Ret (token (uuid_drawn w)), mkWorld (ctx w) (S (uuid_drawn w))).
Proof. intros Hc. destruct v; try discriminate; reflexivity. Qed.

Lemma mapM_hash_identity `{Host} vs w :
  Forall (fun v => identity_hashed v = true) vs ->
  mapM hash_raw (map RObj vs) w
  = (Ret (map token (seq (uuid_drawn w) (length vs))), draws (length vs) w).
Proof.
  intros Hall. revert w. induction Hall as [|v vs Hv _ IH]; intros w.
  - simpl. unfold ret, draws. rewrite Nat.add_0_r. by destruct w.
  - cbn [map mapM length seq hash_raw]. unfold bind at 1.
    rewrite (hash_value_identity v w Hv). unfold bind at 1. rewrite IH.
    cbn. unfold draws. cbn. f_equal. f_equal. lia.
Qed.

Lemma mapM_map_entry_identity `{Host} (kvs : list (value * raw)) w :
  Forall (fun kv => identity_hashed kv.1 = true) kvs ->
  mapM lit_map_entry (map (fun kv => RList [RObj kv.1; kv.2]) kvs) w
  = (Ret (zip (map token (seq (uuid_drawn w) (length kvs))) (map snd kvs)),
     draws (length kvs) w).
Proof.
  intros Hall. revert w. induction Hall as [|[k v] kvs Hk _ IH]; intros w.
  - simpl. unfold ret, draws. rewrite Nat.add_0_r. by destruct w.
  - cbn [map mapM length seq lit_map_entry hash_raw fst snd]. unfold bind at 1 2.
    cbn in Hk. rewrite (hash_value_identity k w Hk). cbn [ret].
    unfold bind at 1. rewrite IH.
    cbn. unfold draws. cbn. f_equal. f_equal. lia.
Qed.

Lemma dom_foldl_insert (kvs : list (string * raw)) (m : gmap string raw) :
  dom (foldl (fun map_dict kv => <[kv.1 := kv.2]> map_dict) m kvs)
  = list_to_set (map fst kvs) ∪ dom m.
Proof.
  revert m. induction kvs as [|[k v] kvs IH]; intros m; simpl.
  - by rewrite union_empty_l_L.
  - rewrite IH, dom_insert_L. set_solver.
Qed.

Lemma map_fst_zip {A B} (l : list A) (k : list B) :
  length l = length k -> map fst (zip l k) = l.
Proof.
  revert k. induction l as [|a l IH]; intros [|b k] Hlen; simpl in *;
    try discriminate; [reflexivity|].
  f_equal. apply IH. lia.
Qed.

Lemma hash_value_wraps_identity `{Host} :
  forall v w, wraps_identity_hashed v = true ->
    hash_value v w = (Ret (option_prefix v ++ token (uuid_drawn w)), draws 1 w).
Proof.
  fix IH 1. intros v w Hv.
  assert (Hdraws : mkWorld (ctx w) (S (uuid_drawn w)) = draws 1 w).
  { unfold draws. by rewrite Nat.add_1_r. }
  destruct v as [| | | | | |?|[[| | | | | |v']|]| | | | | | | | |];
    simpl in Hv; try discriminate;
    try (cbn [hash_value option_prefix]; unfold bind, uuid4, ret;
         by rewrite <- Hdraws).
  cbn [hash_value option_prefix]. unfold bind. rewrite (IH v' w Hv).
  reflexivity.
Qed.

Lemma hash_value_twice `{Host} v w :
  wraps_identity_hashed v = true ->
  (hash_value v w).1 = (hash_value v (hash_value v w).2).1
  <-> token (uuid_drawn w) = token (S (uuid_drawn w)).
Proof.
  intros Hv. rewrite !(hash_value_wraps_identity _ _ Hv). cbn [fst snd draws uuid_drawn].
  rewrite Nat.add_1_r. split.
  - intros [= Heq]. by apply (String.app_inj (option_prefix v)) in Heq.
  - by intros ->.
Qed.

Lemma identity_hashed_wraps v :
  identity_hashed v = true -> wraps_identity_hashed v = true.
Proof. by destruct v. Qed.

Lemma identity_hashed_prefix v : identity_hashed v = true -> option_prefix v = "".
Proof. by destruct v. Qed.

Lemma eval_set_literal_identity `{Host} t vs w :
  Forall (fun v => identity_hashed v = true) vs ->
  _eval_lit (SetType t) (RList (map RObj vs)) w
  = (Ret (SetVal (list_to_set (map token (seq (uuid_drawn w) (length vs))))),
     draws (length vs) w).
Proof.
  intros Hvs. cbn [_eval_lit]. unfold bind.
  by rewrite (mapM_hash_identity vs w Hvs).
Qed.

Lemma eval_map_literal_identity `{Host} tk tv (kvs : list (value * raw)) w :
  Forall (fun kv => identity_hashed kv.1 = true) kvs ->
  exists m,
    _eval_lit (MapType tk tv) (map_payload kvs) w
    = (Ret (MapVal m), draws (length kvs) w)
    /\ dom m = list_to_set (map token (seq (uuid_drawn w) (length kvs))).
Proof.
  intros Hkvs. eexists. split.
  - unfold map_payload. cbn [_eval_lit]. unfold bind.
    rewrite (mapM_map_entry_identity kvs w Hkvs). reflexivity.
  - rewrite dom_foldl_insert, dom_empty_L, union_empty_r_L.
    rewrite map_fst_zip; [reflexivity|].
    by rewrite !length_map, length_seq.
Qed.

Lemma tokens_disjoint `{Host} n k :
  NoDup (map token (seq n (k + k))) ->
  list_to_set (C := gset string) (map token (seq n k))
  ## list_to_set (map token (seq (n + k) k)).
Proof.
  intros Hnd. rewrite seq_app, map_app in Hnd.
  apply NoDup_app in Hnd as (_ & Hdisj & _).
  intros x Hx1 Hx2. apply elem_of_list_to_set in Hx1, Hx2.
  exact (Hdisj x Hx1 Hx2).
Qed.




(** * Properties of the further parts *)

(** ** Type equality and type formatting *)

(** Induction on types that reaches the parameters of function types. *)
Lemma ty_nested_ind (P : ty -> Prop) :
  P BoolType -> P IntType -> P FloatType -> P StringType ->
  (forall t, P t -> P (SetType t)) ->
  (forall t, P t -> P (ListType t)) ->
  (forall k v, P k -> P v -> P (MapType k v)) ->
  (forall t, P t -> P (OptionType t)) ->
  (forall n, P (OpaqueType n)) ->
  (forall ps r o, Forall P ps -> P r -> P (FnType ps r o)) ->
  (forall t, P t -> P (RefType t)) ->
  P VoidType ->
  (forall t, P t -> P (FutureType t)) ->
  (forall c t, P t -> P (ChannelType c t)) ->
  (forall r, P r -> P (TaskType r)) ->
  (forall ps r, Forall P ps -> P r -> P (AsyncFnType ps r)) ->
  forall t, P t.
Proof.
  intros Hb Hi Hf Hs Hset Hlist Hmap Hopt Hopq Hfn Href Hvoid Hfut Hch Htask Hasync.
  fix IH 1. intros t.
  destruct t as [| | | |t|t|k v|t|n|ps r o|t| |t|c t|r|ps r].
  - exact Hb.
  - exact Hi.
  - exact Hf.
  - exact Hs.
  - apply Hset, IH.
  - apply Hlist, IH.
  - apply Hmap; apply IH.
  - apply Hopt, IH.
  - apply Hopq.
  - apply Hfn; [|apply IH].
    induction ps as [|p ps IHps]; constructor; [apply IH | exact IHps].
  - apply Href, IH.
  - exact Hvoid.
  - apply Hfut, IH.
  - apply Hch, IH.
  - apply Htask, IH.
  - apply Hasync; [|apply IH].
    induction ps as [|p ps IHps]; constructor; [apply IH | exact IHps].
Qed.

Lemma type_equal_fn ps r o ps' r' o' :
  type_equal (FnType ps r o) (FnType ps' r' o')
  = if negb (length ps =? length ps')%nat then false
    else if params_equal ps ps' then type_equal r r' else false.
Proof. reflexivity. Qed.

Lemma type_equal_async ps r ps' r' :
  type_equal (AsyncFnType ps r) (AsyncFnType ps' r')
  = if negb (length ps =? length ps')%nat then false
    else if params_equal ps ps' then type_equal r r' else false.
Proof. reflexivity. Qed.

Lemma params_equal_spec ps :
  Forall (fun a => forall b,
            type_equal a b = true
            <-> without_optional_params a = without_optional_params b) ps ->
  forall ps', length ps = length ps' ->
    (params_equal ps ps' = true
     <-> map without_optional_params ps = map without_optional_params ps').
Proof.
  induction 1 as [|p ps Hp _ IH]; intros [|p' ps'] Hlen; try discriminate.
  - split; reflexivity.
  - simpl in Hlen. injection Hlen as Hlen. simpl.
    destruct (type_equal p p') eqn:Heq; simpl.
    + rewrite (IH ps' Hlen). apply Hp in Heq. rewrite Heq.
      split; [intros ->; reflexivity | intros [= ?]; assumption].
    + split; [discriminate|]. intros [= Hpp _]. apply Hp in Hpp. congruence.
Qed.

(** [type_equal] holds exactly between types that are the same once the
    [optional_params] of their function types are erased. *)
Lemma type_equal_spec (a : ty) :
  forall b, type_equal a b = true
            <-> without_optional_params a = without_optional_params b.
Proof.
  induction a using ty_nested_ind; intros b;
    try (destruct b; simpl; split; (discriminate || reflexivity || idtac); fail).
  all: destruct b; try (simpl; split; discriminate).
  - simpl. rewrite IHa. split; [intros ->; reflexivity | intros [= ?]; assumption].
  - simpl. rewrite IHa. split; [intros ->; reflexivity | intros [= ?]; assumption].
  - simpl. rewrite andb_true_iff, IHa1, IHa2.
    split; [intros [-> ->]; reflexivity | intros [= ? ?]; split; assumption].
  - simpl. rewrite IHa. split; [intros ->; reflexivity | intros [= ?]; assumption].
  - simpl. rewrite String.eqb_eq.
    split; [intros ->; reflexivity | intros [= ?]; assumption].
  - rewrite type_equal_fn. simpl without_optional_params.
    destruct (Nat.eqb_spec (length ps) (length params)) as [Hlen|Hlen]; simpl.
    + pose proof (params_equal_spec ps H params Hlen) as Hps.
      destruct (params_equal ps params).
      * rewrite IHa. destruct Hps as [Hps _]. rewrite (Hps eq_refl).
        split; [intros ->; reflexivity | intros [= ?]; assumption].
      * split; [discriminate|]. intros [= Hm _]. apply Hps in Hm. discriminate.
    + split; [discriminate|]. intros [= Hm _]. exfalso. apply Hlen.
      apply (f_equal length) in Hm. by rewrite !length_map in Hm.
  - simpl. rewrite IHa. split; [intros ->; reflexivity | intros [= ?]; assumption].
  - simpl. rewrite IHa. split; [intros ->; reflexivity | intros [= ?]; assumption].
  - simpl. rewrite andb_true_iff, String.eqb_eq, IHa.
    split; [intros [-> ->]; reflexivity | intros [= ? ?]; split; assumption].
  - simpl. rewrite IHa. split; [intros ->; reflexivity | intros [= ?]; assumption].
  - rewrite type_equal_async. simpl without_optional_params.
    destruct (Nat.eqb_spec (length ps) (length params)) as [Hlen|Hlen]; simpl.
    + pose proof (params_equal_spec ps H params Hlen) as Hps.
      destruct (params_equal ps params).
      * rewrite IHa. destruct Hps as [Hps _]. rewrite (Hps eq_refl).
        split; [intros ->; reflexivity | intros [= ?]; assumption].
      * split; [discriminate|]. intros [= Hm _]. apply Hps in Hm. discriminate.
    + split; [discriminate|]. intros [= Hm _]. exfalso. apply Hlen.
      apply (f_equal length) in Hm. by rewrite !length_map in Hm.
Qed.

(** X5.  [type_equal] is an equivalence relation on types, and it holds
    exactly between types that are the same once the [optional_params] of
    their function types are erased: two function types that differ only
    there are equal for [type_equal]. *)
Theorem type_equal_equivalence :
  (forall a b, type_equal a b = true
               <-> without_optional_params a = without_optional_params b)
  /\ (forall a, type_equal a a = true)
  /\ (forall a b, type_equal a b = type_equal b a)
  /\ (forall a b c, type_equal a b = true -> type_equal b c = true ->
                    type_equal a c = true)
  /\ (forall ps r o o', type_equal (FnType ps r o) (FnType ps r o') = true).
Proof.
  split; [exact type_equal_spec|]. split; [|split; [|split]].
  - intros a. by apply type_equal_spec.
  - intros a b. apply eq_true_iff_eq. rewrite !type_equal_spec. split; congruence.
  - intros a b c Hab Hbc. apply type_equal_spec.
    apply type_equal_spec in Hab, Hbc. congruence.
  - intros ps r o o'. by apply type_equal_spec.
Qed.


(** ** Combining validation results *)

Lemma foldl_extend_errors {Any V} (results : list (ValidationResult Any V)) acc :
  foldl (fun all_errors r => (all_errors ++ vr_errors r)%list) acc results
  = (acc ++ concat (map vr_errors results))%list.
Proof.
  revert acc. induction results as [|r results IH]; intros acc; simpl.
  - by rewrite app_nil_r.
  - by rewrite IH, app_assoc.
Qed.

(** X7.  [combine_results] collects the errors of all results in order.  The
    combined result is valid exactly when no result carries an error,
    whatever the results' own [valid] flags say, and then its value is the
    list of the values that are present. *)
Theorem combine_results_spec {Any V} (results : list (ValidationResult Any V)) :
  vr_errors (combine_results results) = concat (map vr_errors results)
  /\ (vr_valid (combine_results results) = true
      <-> Forall (fun r => vr_errors r = []) results)
  /\ (vr_valid (combine_results results) = true ->
      vr_value (combine_results results) = Some (omap vr_value results))
  /\ (vr_valid (combine_results results) = false ->
      vr_value (combine_results results) = None).
Proof.
  unfold combine_results. rewrite foldl_extend_errors. simpl.
  assert (Hnil : concat (map vr_errors results) = []
                 <-> Forall (fun r => vr_errors r = []) results).
  { induction results as [|r results IH]; simpl.
    - split; [constructor | reflexivity].
    - split.
      + intros Happ. apply app_eq_nil in Happ as [Hr Hrest].
        constructor; [exact Hr | by apply IH].
      + intros Hall. inversion Hall as [|? ? Hr Hrest]; subst.
        apply IH in Hrest. by rewrite Hr, Hrest. }
  destruct (concat (map vr_errors results)) as [|e es] eqn:Hc; simpl.
  - split; [reflexivity|]. split; [|split]; [|reflexivity|discriminate].
    split; [intros _; by apply Hnil | reflexivity].
  - split; [reflexivity|]. split; [|split]; [|discriminate|reflexivity].
    split; [discriminate|]. intros Hall. apply Hnil in Hall. discriminate.
Qed.

(** ** Value environments *)

Lemma extend_many_app env bs1 bs2 :
  extend_many env (bs1 ++ bs2) = extend_many (extend_many env bs1) bs2.
Proof. unfold extend_many, bindings. by rewrite foldl_app. Qed.

Lemma extend_many_not_bound env bs x :
  x ∉ bs.*1 -> lookup_value (extend_many env bs) x = lookup_value env x.
Proof.
  revert env. induction bs as [|[k v] bs IH]; intros env Hx; [reflexivity|].
  rewrite fmap_cons, not_elem_of_cons in Hx. destruct Hx as [Hne Hx].
  change (extend_many env ((k, v) :: bs))
    with (extend_many (extend_value_env env k v) bs).
  rewrite (IH _ Hx). unfold lookup_value, extend_value_env.
  by rewrite lookup_insert_ne.
Qed.

Lemma extend_many_last env pre x v post :
  x ∉ post.*1 ->
  lookup_value (extend_many env (pre ++ (x, v) :: post)) x = Some v.
Proof.
  intros Hx. rewrite extend_many_app.
  change (extend_many (extend_many env pre) ((x, v) :: post))
    with (extend_many (extend_value_env (extend_many env pre) x v) post).
  rewrite (extend_many_not_bound _ _ _ Hx).
  unfold lookup_value, extend_value_env. by rewrite lookup_insert_eq.
Qed.

(** X8.  [ValueEnv.extend_many] writes the bindings in list order: a name
    the list binds is looked up to the value of its last binding in the
    list, a name the list does not bind keeps the value it had, and
    extending by two lists in turn is extending by their concatenation. *)
Theorem extend_many_lookup (env : ValueEnv) :
  (forall pre x v post,
      x ∉ post.*1 ->
      lookup_value (extend_many env (pre ++ (x, v) :: post)) x = Some v)
  /\ (forall bs x,
      x ∉ bs.*1 ->
      lookup_value (extend_many env bs) x = lookup_value env x)
  /\ (forall bs1 bs2,
      extend_many (extend_many env bs1) bs2 = extend_many env (bs1 ++ bs2))
  /\ (forall x v,
      extend_many env [(x, v)] = extend_value_env env x v).
Proof.
  split; [|split; [|split]].
  - intros pre x v post Hx. by apply extend_many_last.
  - intros bs x Hx. by apply extend_many_not_bound.
  - intros bs1 bs2. by rewrite extend_many_app.
  - reflexivity.
Qed.

(** ** The operator registry object *)

Lemma register_fresh op reg :
  reg !! op_qualified_name op = None ->
  register op reg = (None, <[op_qualified_name op := op]> reg).
Proof. intros Hf. unfold register. by rewrite Hf. Qed.

Lemma register_all_ok ops :
  forall reg,
    NoDup (map op_qualified_name ops) ->
    (forall op, op ∈ ops -> reg !! op_qualified_name op = None) ->
    exists reg',
      register_all ops reg = (None, reg')
      /\ (forall op, op ∈ ops -> reg' !! op_qualified_name op = Some op)
      /\ (forall key, key ∉ map op_qualified_name ops -> reg' !! key = reg !! key)
      /\ size reg' = (size reg + length ops)%nat.
Proof.
  induction ops as [|op ops IH]; intros reg Hnd Hfresh.
  - exists reg. split; [reflexivity|]. split; [|split].
    + intros op Hop. by apply elem_of_nil in Hop.
    + reflexivity.
    + simpl. lia.
  - simpl in Hnd. apply NoDup_cons in Hnd as [Hnotin Hnd].
    assert (Hop : reg !! op_qualified_name op = None)
      by (apply Hfresh; apply elem_of_cons; by left).
    destruct (IH (<[op_qualified_name op := op]> reg) Hnd) as (reg' & Hr & Hin & Hout & Hsize).
    { intros op' Hop'. rewrite lookup_insert_ne.
      - apply Hfresh. apply elem_of_cons. by right.
      - intros Heq. apply Hnotin. rewrite Heq. by apply list_elem_of_fmap_2. }
    exists reg'. split; [|split; [|split]].
    + simpl. by rewrite (register_fresh _ _ Hop).
    + intros op' Hop'. apply elem_of_cons in Hop' as [-> | Hop']; [|by apply Hin].
      rewrite Hout by exact Hnotin. by rewrite lookup_insert_eq.
    + intros key Hkey. simpl in Hkey. apply not_elem_of_cons in Hkey as [Hne Hkey].
      rewrite (Hout _ Hkey). by rewrite lookup_insert_ne.
    + rewrite Hsize. rewrite map_size_insert_None by exact Hop. simpl. lia.
Qed.


(** X9.  [OperatorRegistry.register_all] succeeds exactly when the
    qualified names of the operators are pairwise distinct and none of them
    is registered yet; then each operator is found under its namespace and
    name, every other key is as before, and the registry has grown by the
    number of operators.  It is not atomic: when it raises, the operators
    before the offending one stay registered, and the offending operator is
    the first whose qualified name was taken. *)
Theorem register_all_spec (ops : list Operator) (reg : OperatorRegistry) :
  ((register_all ops reg).1 = None
   <-> NoDup (map op_qualified_name ops)
       /\ forall op, op ∈ ops -> reg !! op_qualified_name op = None)
  /\ (forall reg',
        register_all ops reg = (None, reg') ->
        (forall op, op ∈ ops ->
           registry_lookup reg' (op_ns op) (op_name op) = Some op)
        /\ (forall key, key ∉ map op_qualified_name ops -> reg' !! key = reg !! key)
        /\ size reg' = (size reg + length ops)%nat)
  /\ (forall e reg',
        register_all ops reg = (Some e, reg') ->
        exists pre op post,
          ops = (pre ++ op :: post)%list
          /\ e = AlreadyRegistered (op_qualified_name op)
          /\ register_all pre reg = (None, reg')
          /\ (forall op', op' ∈ pre ->
                registry_lookup reg' (op_ns op') (op_name op') = Some op')).
Proof.
  assert (Hfail : forall e reg', register_all ops reg = (Some e, reg') ->
            exists pre op post,
              ops = (pre ++ op :: post)%list
              /\ e = AlreadyRegistered (op_qualified_name op)
              /\ register_all pre reg = (None, reg')
              /\ NoDup (map op_qualified_name pre)
              /\ (forall op', op' ∈ pre -> reg !! op_qualified_name op' = None)
              /\ (op_qualified_name op ∈ map op_qualified_name pre
                  \/ is_Some (reg !! op_qualified_name op))).
  { clear. revert reg.
    induction ops as [|op ops IH]; intros reg e reg' Hr; [discriminate|].
    simpl in Hr. unfold register in Hr.
    destruct (reg !! op_qualified_name op) as [old|] eqn:Hold.
    - injection Hr as <- <-. exists [], op, ops.
      split; [reflexivity|]. split; [reflexivity|]. split; [reflexivity|].
      split; [constructor|]. split; [intros ? Hx; by apply elem_of_nil in Hx|].
      right. rewrite Hold. eauto.
    - destruct (IH _ _ _ Hr) as (pre & op' & post & -> & -> & Hpre & Hnd & Hfresh & Hbad).
      exists (op :: pre), op', post.
      split; [reflexivity|]. split; [reflexivity|].
      assert (Hnotin : op_qualified_name op ∉ map op_qualified_name pre).
      { intros Hin. apply list_elem_of_fmap in Hin as (x & Hx & Hin).
        specialize (Hfresh x Hin). rewrite <- Hx in Hfresh.
        by rewrite lookup_insert_eq in Hfresh. }
      split; [simpl; unfold register; by rewrite Hold|].
      split; [simpl; apply NoDup_cons; by split|].
      split.
      + intros x Hx. apply elem_of_cons in Hx as [-> | Hx]; [exact Hold|].
        specialize (Hfresh x Hx).
        destruct (decide (op_qualified_name op = op_qualified_name x)) as [Heq|Hne].
        * rewrite Heq in Hfresh. by rewrite lookup_insert_eq in Hfresh.
        * by rewrite lookup_insert_ne in Hfresh.
      + destruct Hbad as [Hin | Hsome].
        * left. simpl. apply elem_of_cons. by right.
        * destruct (decide (op_qualified_name op = op_qualified_name op')) as [Heq|Hne].
          -- left. simpl. apply elem_of_cons. by left.
          -- right. by rewrite lookup_insert_ne in Hsome. }
  split; [|split].
  - split.
    + intros Hnone. destruct (register_all ops reg) as [[e|] reg'] eqn:Hr; [discriminate|].
      clear Hnone Hfail. revert reg reg' Hr.
      induction ops as [|op ops IH]; intros reg reg' Hr.
      * split; [constructor | intros ? Hx; by apply elem_of_nil in Hx].
      * simpl in Hr. unfold register in Hr.
        destruct (reg !! op_qualified_name op) as [old|] eqn:Hold; [discriminate|].
        destruct (IH _ _ Hr) as [Hnd Hfresh].
        assert (Hnotin : op_qualified_name op ∉ map op_qualified_name ops).
        { intros Hin. apply list_elem_of_fmap in Hin as (x & Hx & Hin).
          specialize (Hfresh x Hin). rewrite <- Hx in Hfresh.
          by rewrite lookup_insert_eq in Hfresh. }
        split; [simpl; apply NoDup_cons; by split|].
        intros x Hx. apply elem_of_cons in Hx as [-> | Hx]; [exact Hold|].
        specialize (Hfresh x Hx).
        destruct (decide (op_qualified_name op = op_qualified_name x)) as [Heq|Hne].
        -- rewrite Heq in Hfresh. by rewrite lookup_insert_eq in Hfresh.
        -- by rewrite lookup_insert_ne in Hfresh.
    + intros [Hnd Hfresh].
      destruct (register_all_ok ops reg Hnd Hfresh) as (reg' & Hr & _). by rewrite Hr.
  - intros reg' Hr.
    assert (Hok : NoDup (map op_qualified_name ops)
                  /\ forall op, op ∈ ops -> reg !! op_qualified_name op = None).
    { clear Hfail. revert reg reg' Hr.
      induction ops as [|op ops IH]; intros reg reg' Hr.
      - split; [constructor | intros ? Hx; by apply elem_of_nil in Hx].
      - simpl in Hr. unfold register in Hr.
        destruct (reg !! op_qualified_name op) as [old|] eqn:Hold; [discriminate|].
        destruct (IH _ _ Hr) as [Hnd Hfresh].
        assert (Hnotin : op_qualified_name op ∉ map op_qualified_name ops).
        { intros Hin. apply list_elem_of_fmap in Hin as (x & Hx & Hin).
          specialize (Hfresh x Hin). rewrite <- Hx in Hfresh.
          by rewrite lookup_insert_eq in Hfresh. }
        split; [simpl; apply NoDup_cons; by split|].
        intros x Hx. apply elem_of_cons in Hx as [-> | Hx]; [exact Hold|].
        specialize (Hfresh x Hx).
        destruct (decide (op_qualified_name op = op_qualified_name x)) as [Heq|Hne].
        + rewrite Heq in Hfresh. by rewrite lookup_insert_eq in Hfresh.
        + by rewrite lookup_insert_ne in Hfresh. }
    destruct Hok as [Hnd Hfresh].
    destruct (register_all_ok ops reg Hnd Hfresh) as (reg2 & Hr2 & Hin & Hout & Hsize).
    rewrite Hr in Hr2. injection Hr2 as <-.
    split; [|split; [exact Hout | exact Hsize]].
    intros op Hop. unfold registry_lookup, qualified_name. by apply Hin.
  - intros e reg' Hr.
    destruct (Hfail e reg' Hr) as (pre & op & post & Hops & He & Hpre & Hnd & Hfresh & _).
    exists pre, op, post. split; [exact Hops|]. split; [exact He|]. split; [exact Hpre|].
    destruct (register_all_ok pre reg Hnd Hfresh) as (reg2 & Hr2 & Hin & _).
    rewrite Hpre in Hr2. injection Hr2 as <-.
    intros op' Hop'. unfold registry_lookup, qualified_name. by apply Hin.
Qed.

Lemma first_mismatch_none params :
  forall i arg_types,
    length params = length arg_types ->
    (first_mismatch i params arg_types = None
     <-> Forall2 (fun expected got => type_equal expected got = true) params arg_types).
Proof.
  induction params as [|p params IH]; intros i [|a arg_types] Hlen; try discriminate.
  - split; [constructor | reflexivity].
  - simpl in Hlen. injection Hlen as Hlen. simpl.
    destruct (type_equal p a) eqn:Heq; simpl.
    + rewrite (IH (S i) _ Hlen). split.
      * intros Hall. by constructor.
      * intros Hall. by inversion Hall.
    + split; [discriminate|]. intros Hall. inversion Hall; congruence.
Qed.

Lemma first_mismatch_some params :
  forall i arg_types j expected got,
    first_mismatch i params arg_types = Some (j, expected, got) ->
    exists k : nat,
      j = (i + k)%nat
      /\ params !! k = Some expected
      /\ arg_types !! k = Some got
      /\ type_equal expected got = false
      /\ (forall m p a, (m < k)%nat -> params !! m = Some p ->
            arg_types !! m = Some a -> type_equal p a = true).
Proof.
  induction params as [|p params IH]; intros i [|a arg_types] j expected got Hf;
    try discriminate.
  simpl in Hf. destruct (type_equal p a) eqn:Heq; simpl in Hf.
  - destruct (IH _ _ _ _ _ Hf) as (k & -> & Hp & Ha & Hne & Hbefore).
    exists (S k). split; [lia|]. split; [exact Hp|]. split; [exact Ha|].
    split; [exact Hne|]. intros [|m] p' a' Hm Hp' Ha'.
    + simpl in Hp', Ha'. congruence.
    + simpl in Hp', Ha'. apply (Hbefore m); [lia | assumption | assumption].
  - injection Hf as <- <- <-. exists 0%nat.
    split; [lia|]. split; [reflexivity|]. split; [reflexivity|].
    split; [exact Heq|]. intros m ? ? Hm. lia.
Qed.

(** X10.  [OperatorRegistry.check_call] returns the operator's return type
    exactly when the operator is registered and its parameter types are
    pairwise [type_equal] to the argument types, one for one.  Otherwise it
    raises: for an operator that is not registered first, then for a wrong
    number of arguments, and only then for the first argument, from the
    left, whose type differs. *)
Theorem check_call_spec (reg : OperatorRegistry) (ns name : string)
    (arg_types : list ty) :
  (forall t,
      check_call reg ns name arg_types = inr t
      <-> exists op,
            registry_lookup reg ns name = Some op
            /\ Forall2 (fun expected got => type_equal expected got = true)
                 (op_params op) arg_types
            /\ t = op_returns op)
  /\ (registry_lookup reg ns name = None ->
      check_call reg ns name arg_types = inl (NotRegistered ns name))
  /\ (forall op,
      registry_lookup reg ns name = Some op ->
      length (op_params op) <> length arg_types ->
      check_call reg ns name arg_types
      = inl (ArityMismatch ns name (length (op_params op)) (length arg_types)))
  /\ (forall op i expected got,
      registry_lookup reg ns name = Some op ->
      check_call reg ns name arg_types = inl (ArgumentMismatch ns name i expected got) ->
      op_params op !! i = Some expected
      /\ arg_types !! i = Some got
      /\ type_equal expected got = false
      /\ forall m p a, (m < i)%nat -> op_params op !! m = Some p ->
           arg_types !! m = Some a -> type_equal p a = true).
Proof.
  unfold check_call, registry_get, check_arity.
  split; [|split; [|split]].
  - intros t. destruct (registry_lookup reg ns name) as [op|].
    2:{ split; [discriminate | intros (op & Hop & _); discriminate]. }
    destruct (Nat.eqb_spec (length (op_params op)) (length arg_types)) as [Hlen|Hlen]; simpl.
    + pose proof (first_mismatch_none (op_params op) 0 arg_types Hlen) as Hnone.
      destruct (first_mismatch 0 (op_params op) arg_types) as [[[i e] g]|].
      * split; [discriminate|]. intros (op' & [= <-] & Hall & _).
        apply Hnone in Hall. discriminate.
      * split.
        -- intros [= <-]. exists op. split; [reflexivity|]. split; [by apply Hnone | reflexivity].
        -- intros (op' & [= <-] & _ & ->). reflexivity.
    + split; [discriminate|]. intros (op' & [= <-] & Hall & _).
      apply Forall2_length in Hall. contradiction.
  - intros Hnone. by rewrite Hnone.
  - intros op Hop Hlen. rewrite Hop.
    destruct (Nat.eqb_spec (length (op_params op)) (length arg_types)); [contradiction|].
    reflexivity.
  - intros op i expected got Hop. rewrite Hop.
    destruct (Nat.eqb_spec (length (op_params op)) (length arg_types)); simpl;
      [|discriminate].
    destruct (first_mismatch 0 (op_params op) arg_types) as [[[j e'] g']|] eqn:Hf;
      [|discriminate].
    intros [= -> -> ->].
    destruct (first_mismatch_some _ _ _ _ _ _ Hf) as (k & -> & Hp & Ha & Hne & Hbefore).
    simpl. split; [exact Hp|]. split; [exact Ha|]. split; [exact Hne|]. exact Hbefore.
Qed.

(** ** The operator domains *)

(** X11.  Every implementation of the core, list and set domains returns
    its first error argument, from the left, as its result: it neither
    raises nor looks at the arguments after it. *)
Theorem impls_return_first_error `{Host} :
  Forall (fun f => forall a, is_error a = true -> f a = ImplRet a) unary_impls
  /\ Forall (fun f => forall a b,
               (is_error a = true -> f a b = ImplRet a)
               /\ (is_error a = false -> is_error b = true -> f a b = ImplRet b))
       binary_impls
  /\ Forall (fun f => forall a b c,
               (is_error a = true -> f a b c = ImplRet a)
               /\ (is_error a = false -> is_error b = true -> f a b c = ImplRet b)
               /\ (is_error a = false -> is_error b = false -> is_error c = true ->
                   f a b c = ImplRet c))
       ternary_impls
  /\ (forall a b w,
        (is_error a = true -> SetDomain._contains_impl a b w = (Ret a, w))
        /\ (is_error a = false -> is_error b = true ->
            SetDomain._contains_impl a b w = (Ret b, w))).
Proof.
  split; [|split; [|split]].
  - unfold unary_impls. repeat first [apply Forall_cons_2 | apply Forall_nil_2];
      intros a Ha;
      match goal with |- ?f a = _ => unfold f end; by rewrite Ha.
  - unfold binary_impls. repeat first [apply Forall_cons_2 | apply Forall_nil_2];
      intros a b;
      match goal with |- (_ -> ?f a b = _) /\ _ => unfold f end;
      (split; [intros Ha; by rewrite Ha | intros Ha Hb; by rewrite Ha, Hb]).
  - unfold ternary_impls. repeat first [apply Forall_cons_2 | apply Forall_nil_2];
      intros a b c;
      match goal with |- (_ -> ?f a b c = _) /\ _ => unfold f end;
      (split; [intros Ha; by rewrite Ha
              | split; [intros Ha Hb; by rewrite Ha, Hb
                       | intros Ha Hb Hc; by rewrite Ha, Hb, Hc]]).
  - intros a b w. unfold SetDomain._contains_impl. split.
    + intros Ha. by rewrite Ha.
    + intros Ha Hb. by rewrite Ha, Hb.
Qed.

(** X12.  Division and modulo by zero are error values, never exceptions:
    [div] with a divisor that is the integer zero or a float equal to zero
    yields a [DivideByZero] error value whatever the dividend, as long as it
    is not an error value (it need not be a number); so does [mod] with the
    integer zero. *)
Theorem division_by_zero (a b : value) :
  is_error a = false ->
  zero_divisor b ->
  CoreDomain._div_impl a b
  = ImplRet (ErrorVal "DivideByZero" (Some "Division by zero") None)
  /\ CoreDomain._mod_impl a (IntVal 0)
     = ImplRet (ErrorVal "DivideByZero" (Some "Modulo by zero") None).
Proof.
  intros Ha Hb. split.
  - unfold CoreDomain._div_impl. rewrite Ha.
    destruct Hb as [-> | (f & -> & Hf)]; cbn.
    + reflexivity.
    + by rewrite Hf.
  - unfold CoreDomain._mod_impl. by rewrite Ha.
Qed.

Lemma division_by_zero_witness :
  CoreDomain._div_impl (StringVal "x") (IntVal 0)
  = ImplRet (ErrorVal "DivideByZero" (Some "Division by zero") None)
  /\ CoreDomain._mod_impl (StringVal "x") (IntVal 0)
     = ImplRet (ErrorVal "DivideByZero" (Some "Modulo by zero") None).
Proof.
  apply (division_by_zero (StringVal "x") (IntVal 0)).
  - reflexivity.
  - left. reflexivity.
Defined.

(** X13.  On integers the arithmetic is exact and unbounded, [mod] takes
    the sign of the divisor, and [neq] is the negation of [eq] on all
    arguments: where [eq] returns a boolean [neq] returns the other one, and
    where [eq] returns an error value or raises, [neq] does the same. *)
Theorem core_int_arithmetic :
  (forall x y,
      CoreDomain._add_impl (IntVal x) (IntVal y) = ImplRet (IntVal (x + y))
      /\ CoreDomain._sub_impl (IntVal x) (IntVal y) = ImplRet (IntVal (x - y))
      /\ CoreDomain._mul_impl (IntVal x) (IntVal y) = ImplRet (IntVal (x * y))
      /\ CoreDomain._eq_impl (IntVal x) (IntVal y) = ImplRet (BoolVal (bool_decide (x = y))))
  /\ (forall x y, y <> 0 ->
      exists r,
        CoreDomain._mod_impl (IntVal x) (IntVal y) = ImplRet (IntVal r)
        /\ (exists q, x = q * y + r)
        /\ (0 < y -> 0 <= r < y)
        /\ (y < 0 -> y < r <= 0))
  /\ (forall a b, CoreDomain._neq_impl a b = negated (CoreDomain._eq_impl a b)).
Proof.
  split; [|split].
  - intros x y. repeat split; try reflexivity.
    cbn. do 2 f_equal. destruct (Z.eqb_spec x y).
    + by rewrite bool_decide_eq_true_2.
    + by rewrite bool_decide_eq_false_2.
  - intros x y Hy. exists (x mod y). split; [|split; [|split]].
    + unfold CoreDomain._mod_impl. cbn. apply Z.eqb_neq in Hy. by rewrite Hy.
    + exists (x / y). rewrite Z.mul_comm. apply Z.div_mod. exact Hy.
    + intros Hpos. by apply Z.mod_pos_bound.
    + intros Hneg. by apply Z.mod_neg_bound.
  - intros a b. unfold CoreDomain._neq_impl, CoreDomain._eq_impl, CoreDomain.try_.
    destruct (is_error a) eqn:Ha.
    { destruct a; try discriminate. reflexivity. }
    destruct (is_error b) eqn:Hb.
    { destruct b; try discriminate. reflexivity. }
    destruct a, b; try discriminate; try reflexivity;
      cbn [CoreDomain.get_numeric];
      repeat match goal with
             | |- context [CoreDomain.float_of_int ?z] =>
                 destruct (CoreDomain.float_of_int z)
             end; reflexivity.
Qed.

Lemma substring_all (s : string) (m : nat) :
  (String.length s <= m)%nat -> String.substring 0 m s = s.
Proof.
  revert m. induction s as [|c s IH]; intros m Hm.
  - by destruct m.
  - destruct m as [|m]; cbn in *; [lia|]. rewrite IH; [reflexivity | lia].
Qed.

Lemma substring_0_length (x y : string) :
  String.substring 0 (String.length x) (x ++ y) = x.
Proof.
  induction x as [|c x IH].
  - change ("" ++ y) with y. by destruct y.
  - change (String c x ++ y) with (String c (x ++ y)). cbn. by rewrite IH.
Qed.

Lemma substring_length_app (x y : string) :
  String.substring (String.length x) (String.length y) (x ++ y) = y.
Proof.
  induction x as [|c x IH].
  - change ("" ++ y) with y. by apply substring_all.
  - change (String c x ++ y) with (String c (x ++ y)). cbn. exact IH.
Qed.

Lemma length_substring_le (s : string) (n m : nat) :
  (String.length (String.substring n m s) <= m)%nat.
Proof.
  revert n m. induction s as [|c s IH]; intros n m; simpl.
  - destruct n, m; simpl; lia.
  - destruct n as [|n].
    + destruct m as [|m]; simpl; [lia|]. specialize (IH 0%nat m). lia.
    + apply IH.
Qed.

Lemma string_length_app (x y : string) :
  String.length (x ++ y) = (String.length x + String.length y)%nat.
Proof.
  induction x as [|c x IH]; [reflexivity|].
  change (String c x ++ y) with (String c (x ++ y)). cbn. by rewrite IH.
Qed.

(** X14.  [substring] never fails on a string and two integers: it returns
    a string no longer than the requested length; a negative start counts
    as zero, a start at or beyond the end and a negative length give the
    empty string, and a length that reaches beyond the end is cut there.
    It undoes [concat]: from the concatenation of [x] and [y], the first
    [len x] characters are [x] and the [len y] characters from [len x] on
    are [y]. *)
Theorem substring_spec (s : string) (start length : Z) :
  (exists r,
      CoreDomain._substring_impl (StringVal s) (IntVal start) (IntVal length)
      = ImplRet (StringVal r)
      /\ Z.of_nat (String.length r) <= Z.max length 0
      /\ (Z.of_nat (String.length s) <= start \/ length < 0 -> r = ""))
  /\ (start < 0 ->
      CoreDomain._substring_impl (StringVal s) (IntVal start) (IntVal length)
      = CoreDomain._substring_impl (StringVal s) (IntVal 0) (IntVal length))
  /\ (Z.of_nat (String.length s) <= length ->
      CoreDomain._substring_impl (StringVal s) (IntVal 0) (IntVal length)
      = ImplRet (StringVal s))
  /\ (forall x y,
      CoreDomain._concat_impl (StringVal x) (StringVal y) = ImplRet (StringVal (x ++ y))
      /\ CoreDomain._substring_impl (StringVal (x ++ y)) (IntVal 0) (str_len x)
         = ImplRet (StringVal x)
      /\ CoreDomain._substring_impl (StringVal (x ++ y)) (str_len x) (str_len y)
         = ImplRet (StringVal y)).
Proof.
  split; [|split; [|split]].
  - unfold CoreDomain._substring_impl. cbn [is_error].
    destruct (Z.leb_spec (Z.of_nat (String.length s)) (if start <? 0 then 0 else start))
      as [Hge|Hlt].
    { exists "". split; [reflexivity|]. split; [simpl; lia | reflexivity]. }
    destruct (Z.ltb_spec length 0) as [Hneg|Hpos].
    { exists "". split; [reflexivity|]. split; [simpl; lia | reflexivity]. }
    eexists. split; [reflexivity|]. split.
    + pose proof (length_substring_le s
        (Z.to_nat (if start <? 0 then 0 else start))
        (Z.to_nat (Z.min ((if start <? 0 then 0 else start) + length)
                     (Z.of_nat (String.length s))
                   - (if start <? 0 then 0 else start)))) as Hle.
      destruct (start <? 0); lia.
    + intros [Hs | Hl]; [|lia]. destruct (Z.ltb_spec start 0); lia.
  - intros Hneg. unfold CoreDomain._substring_impl. cbn [is_error].
    apply Z.ltb_lt in Hneg. by rewrite Hneg.
  - intros Hlen. unfold CoreDomain._substring_impl. cbn [is_error].
    change (0 <? 0) with false. cbn iota.
    destruct (Z.leb_spec (Z.of_nat (String.length s)) 0) as [Hz|Hz].
    { destruct s; [reflexivity | simpl in Hz; lia]. }
    destruct (Z.ltb_spec length 0); [lia|].
    rewrite Z.add_0_l, Z.sub_0_r, Z.min_r by lia. cbn [Z.to_nat].
    rewrite Nat2Z.id. by rewrite substring_all.
  - intros x y. split; [reflexivity|]. split.
    + unfold CoreDomain._substring_impl, str_len. cbn [is_error].
      change (0 <? 0) with false. cbn iota.
      destruct (Z.leb_spec (Z.of_nat (String.length (x ++ y))) 0) as [Hz|Hz].
      { rewrite string_length_app in Hz.
        destruct x; [reflexivity | simpl in Hz; lia]. }
      destruct (Z.ltb_spec (Z.of_nat (String.length x)) 0); [lia|].
      rewrite Z.add_0_l, Z.sub_0_r, Z.min_l
        by (rewrite string_length_app; lia).
      cbn [Z.to_nat]. rewrite Nat2Z.id. by rewrite substring_0_length.
    + unfold CoreDomain._substring_impl, str_len. cbn [is_error].
      destruct (Z.ltb_spec (Z.of_nat (String.length x)) 0); [lia|].
      destruct (Z.leb_spec (Z.of_nat (String.length (x ++ y)))
                  (Z.of_nat (String.length x))) as [Hz|Hz].
      { rewrite string_length_app in Hz.
        destruct y; [reflexivity | simpl in Hz; lia]. }
      destruct (Z.ltb_spec (Z.of_nat (String.length y)) 0); [lia|].
      rewrite Z.min_l by (rewrite string_length_app; lia).
      replace (Z.of_nat (String.length x) + Z.of_nat (String.length y)
               - Z.of_nat (String.length x)) with (Z.of_nat (String.length y)) by lia.
      rewrite !Nat2Z.id. by rewrite substring_length_app.
Qed.



(** X17.  The set operators compose as set operations do: a set is a
    subset of its union with another and contains their intersection; what
    is left of a set after taking another away is disjoint from that other,
    and together with the intersection it makes up the set again; and the
    sizes of union and intersection add up to the sizes of the two sets. *)
Theorem set_operators_compose (x y : gset string) :
  exists u i d,
    SetDomain._union_impl (SetVal x) (SetVal y) = ImplRet (SetVal u)
    /\ SetDomain._intersect_impl (SetVal x) (SetVal y) = ImplRet (SetVal i)
    /\ SetDomain._difference_impl (SetVal x) (SetVal y) = ImplRet (SetVal d)
    /\ SetDomain._is_subset_impl (SetVal x) (SetVal u) = ImplRet (BoolVal true)
    /\ SetDomain._is_subset_impl (SetVal i) (SetVal x) = ImplRet (BoolVal true)
    /\ SetDomain._is_disjoint_impl (SetVal d) (SetVal y) = ImplRet (BoolVal true)
    /\ SetDomain._union_impl (SetVal d) (SetVal i) = ImplRet (SetVal x)
    /\ (exists su si sx sy,
          SetDomain._size_impl (SetVal u) = ImplRet (IntVal su)
          /\ SetDomain._size_impl (SetVal i) = ImplRet (IntVal si)
          /\ SetDomain._size_impl (SetVal x) = ImplRet (IntVal sx)
          /\ SetDomain._size_impl (SetVal y) = ImplRet (IntVal sy)
          /\ su + si = sx + sy).
Proof.
  exists (x ∪ y), (x ∩ y), (x ∖ y).
  unfold SetDomain._union_impl, SetDomain._intersect_impl, SetDomain._difference_impl,
    SetDomain._is_subset_impl, SetDomain._is_disjoint_impl, SetDomain._size_impl.
  cbn [is_error].
  split; [reflexivity|]. split; [reflexivity|]. split; [reflexivity|].
  split; [by rewrite bool_decide_eq_true_2 by set_solver|].
  split; [by rewrite bool_decide_eq_true_2 by set_solver|].
  split; [by rewrite bool_decide_eq_true_2 by set_solver|].
  split.
  { do 2 f_equal. apply set_eq. intros e.
    rewrite elem_of_union, elem_of_difference, elem_of_intersection.
    destruct (decide (e ∈ y)); tauto. }
  eexists _, _, _, _. split; [reflexivity|]. split; [reflexivity|].
  split; [reflexivity|]. split; [reflexivity|].
  assert (Hu : size (x ∪ y) = (size (x ∖ y) + size y)%nat).
  { rewrite <- size_union by set_solver. f_equal. apply set_eq. intros e.
    rewrite !elem_of_union, elem_of_difference. destruct (decide (e ∈ y)); tauto. }
  assert (Hx : size x = (size (x ∖ y) + size (x ∩ y))%nat).
  { rewrite <- size_union by set_solver. f_equal. apply set_eq. intros e.
    rewrite elem_of_union, elem_of_difference, elem_of_intersection.
    destruct (decide (e ∈ y)); tauto. }
  lia.
Qed.

Lemma mapM_hash_ground `{Host} vs w :
  Forall (fun v => is_Some (ground_hash v)) vs ->
  mapM hash_raw (map RObj vs) w = (Ret (omap ground_hash vs), w).
Proof.
  induction 1 as [|v vs [h Hh] _ IH]; [reflexivity|].
  cbn [map mapM hash_raw]. unfold bind at 1.
  rewrite (hash_value_ground v h w Hh). unfold bind at 1. rewrite IH.
  cbn. by rewrite Hh.
Qed.



(** ** Properties that every rule of the expression evaluator keeps

    A property of computations that holds of [ret], of a raised host
    error and of a uuid draw, and that [bind] preserves, holds of every rule
    of the evaluator as soon as it holds of the recursive calls. *)

Section EvaluatorRules.
Context `{Host}.
Variable P : forall A : Type, M A -> Prop.
Hypothesis P_ret : forall A (a : A), P A (ret a).
Hypothesis P_host : forall A what, P A (raise (HostError what)).
Hypothesis P_uuid4 : P string uuid4.
Hypothesis P_bind : forall A B (m : M A) (k : A -> M B),
  P A m -> (forall a, P B (k a)) -> P B (bind m k).
Variable registry : OperatorRegistry.
Variable ev : expr -> ValueEnv -> M returned.
Hypothesis ev_ok : forall e env, P returned (ev e env).

Lemma rule_value_of r : P value (value_of r).
Proof using P_ret P_host. destruct r; [apply P_ret | apply P_host]. Qed.

Ltac rules :=
  repeat first
    [ apply P_ret
    | apply P_host
    | apply P_uuid4
    | apply rule_value_of
    | apply P_bind; [| intros ?] ].

Lemma rule_returns_value (m : M value) : P value m -> P returned (returns_value m).
Proof using P_ret P_bind. intros Hm. apply P_bind; [exact Hm | intros v; apply P_ret]. Qed.

Lemma rule_from_host {A} what (o : option A) : P A (from_host what o).
Proof using P_ret P_host. destruct o; [apply P_ret | apply P_host]. Qed.

Lemma rule_mapM {A B} (f : A -> M B) (l : list A) :
  (forall a, P B (f a)) -> P (list B) (mapM f l).
Proof using P_ret P_bind.
  intros Hf. induction l as [|a l IH]; simpl.
  - apply P_ret.
  - apply P_bind; [apply Hf|]. intros b.
    apply P_bind; [apply IH|]. intros bs. apply P_ret.
Qed.

Lemma rule_hash_value : forall v, P string (hash_value v).
Proof using P_ret P_host P_uuid4 P_bind.
  fix IH 1. intros v.
  destruct v as [| | | | | |?|[[| | | | | |v']|]| | | | | | | | |]; simpl;
    try apply P_ret; try apply P_host;
    try (apply P_bind; [apply P_uuid4 | intros ?; apply P_ret]).
  apply P_bind; [apply (IH v') | intros ?; apply P_ret].
Qed.

Lemma rule_hash_raw r : P string (hash_raw r).
Proof using P_ret P_host P_uuid4 P_bind.
  destruct r; simpl; try apply P_host. apply rule_hash_value.
Qed.

Lemma rule_eval_lit t v : P value (_eval_lit t v).
Proof using P_ret P_host P_uuid4 P_bind.
  destruct t; simpl; rules; try apply rule_from_host.
  - destruct v; rules. apply rule_mapM. apply rule_hash_raw.
  - destruct v; rules.
    apply rule_mapM. intros r. unfold lit_list_elem.
    destruct r; rules; try apply rule_from_host;
      try (destruct t; rules; apply rule_from_host).
    destruct (has_value_field v); [destruct v|]; rules.
  - destruct v; rules.
    apply rule_mapM. intros r. unfold lit_map_entry.
    destruct r as [| | | | |[|k [|v' [|? ?]]]|]; rules. apply rule_hash_raw.
Qed.

Lemma rule_eval_call_args env args acc :
  P (value + list value)%type (eval_call_args ev env args acc).
Proof using P_ret P_host P_bind ev_ok.
  revert acc. induction args as [|[a|a] args IH]; intros acc; simpl.
  - rules.
  - destruct (lookup_value env a); [apply IH | rules].
  - rules; [apply ev_ok|]. destruct (is_error _); [rules | apply IH].
Qed.

Lemma rule_get_value env x : P (option returned) (get_value ev env x).
Proof using P_ret P_bind ev_ok. destruct x; simpl; rules. apply ev_ok. Qed.

Lemma rule_bind_params fn_env params arg_values i call_env :
  P (value + ValueEnv)%type (bind_params ev fn_env params arg_values i call_env).
Proof using P_ret P_host P_bind ev_ok.
  revert i call_env. induction params as [|p ps IH]; intros i call_env; simpl.
  - rules.
  - destruct (arg_values !! i); [apply IH|].
    destruct (param_optional p); rules.
    destruct (param_default p); [|apply IH].
    rules; [apply ev_ok|]. destruct (is_error _); [rules | apply IH].
Qed.

Lemma rule_dispatch e env : P returned (dispatch registry ev e env).
Proof using P_ret P_host P_uuid4 P_bind ev_ok.
  destruct e; cbn [dispatch]; try apply P_ret; try apply rule_returns_value.
  - apply rule_eval_lit.
  - unfold _eval_ref. destruct (env !! id); rules.
  - unfold _eval_var. destruct (lookup_value env name); rules.
  - unfold _eval_call. destruct (negb _); rules.
    + apply rule_eval_call_args.
    + destruct a; rules.
      destruct (registry_lookup _ _ _); rules.
      destruct (negb _); rules. destruct (apply_impl _ _); rules.
  - unfold _eval_if. rules; [apply rule_get_value|].
    destruct a as [r|]; rules.
    match goal with |- P _ (if is_error ?v then _ else _) =>
      destruct (is_error v); rules;
      destruct v as [[|]| | | | | | | | | | | | | | | |]; rules
    end;
      try apply rule_get_value;
      match goal with |- P _ (match ?a with _ => _ end) => destruct a; rules end.
  - unfold _eval_let. rules; [apply rule_get_value|].
    destruct a as [r|]; rules. destruct (is_error _); rules.
    + apply rule_get_value.
    + match goal with |- P _ (match ?a with _ => _ end) => destruct a; rules end.
  - unfold _eval_call_expr. destruct (lookup_value env fn) as [v|]; rules.
    destruct (is_error v); rules. destruct (negb (is_closure v)); rules.
    destruct (lookup_args _ _ _); rules.
  - unfold _eval_fix. destruct (lookup_value env fn) as [v|]; rules.
    destruct (is_error v); rules. destruct (negb (is_closure v)); rules.
  - unfold _eval_seq. destruct (lookup_value env first) as [v|]; rules.
    destruct (is_error v); rules. destruct (lookup_value env then_); rules.
  - unfold _eval_assign. destruct (lookup_value env v) as [r|]; rules.
    destruct (is_error r); rules.
  - unfold _eval_ref_cell. destruct (lookup_value env target); rules.
  - unfold _eval_deref. destruct (lookup_value env target) as [v|]; rules.
    destruct (is_error v); rules. destruct v; rules.
  - unfold _eval_try. destruct (lookup_value env try_body) as [v|]; rules.
    destruct (is_error v).
    + destruct (lookup_value _ catch_body); rules.
    + destruct fallback as [fb|]; rules. destruct (lookup_value env fb); rules.
Qed.
End EvaluatorRules.

(** ** The step budget of the expression evaluator *)

Lemma raise_non_termination_iff {A} (e : pyexn) :
  @Raise A e = non_termination_raised
  <-> e = SPIRALError ErrorCodes.NON_TERMINATION "Expression evaluation did not terminate".
Proof. unfold non_termination_raised. split; [intros [= ->]; reflexivity | intros ->; reflexivity]. Qed.

Lemma counts_steps_ret A (a : A) : counts_steps (ret a).
Proof.
  intros w r w' [= <- <-]. split; [reflexivity|]. split; [lia|].
  intros Hle. right. split; [discriminate | exact Hle].
Qed.

Lemma counts_steps_host A what : counts_steps (@raise World A (HostError what)).
Proof.
  intros w r w' [= <- <-]. split; [reflexivity|]. split; [lia|].
  intros Hle. right. split; [discriminate | exact Hle].
Qed.

Lemma counts_steps_uuid4 `{Host} : counts_steps uuid4.
Proof.
  intros w r w' [= <- <-]. cbn. split; [reflexivity|]. split; [lia|].
  intros Hle. right. split; [discriminate | exact Hle].
Qed.

Lemma counts_steps_bind A B (m : M A) (k : A -> M B) :
  counts_steps m -> (forall a, counts_steps (k a)) -> counts_steps (bind m k).
Proof.
  intros Hm Hk w r w' Hb.
  apply bind_inv in Hb as [(a & w1 & H1 & H2) | [(e & H1 & ->) | (H1 & ->)]].
  - destruct (Hm _ _ _ H1) as (Hmax1 & Hs1 & Hd1).
    destruct (Hk a _ _ _ H2) as (Hmax2 & Hs2 & Hd2).
    split; [congruence|]. split; [lia|]. intros Hle.
    destruct (Hd1 Hle) as [[Hr _] | [_ Hle1]]; [discriminate|].
    rewrite Hmax1 in Hd2. apply Hd2. exact Hle1.
  - destruct (Hm _ _ _ H1) as (Hmax1 & Hs1 & Hd1).
    split; [exact Hmax1|]. split; [exact Hs1|]. intros Hle.
    destruct (Hd1 Hle) as [[Hr Hst] | [Hr Hst]].
    + left. split; [|exact Hst]. by apply raise_non_termination_iff, (@raise_non_termination_iff A).
    + right. split; [|exact Hst]. intros Hr'. apply Hr.
      by apply raise_non_termination_iff, (@raise_non_termination_iff B).
  - destruct (Hm _ _ _ H1) as (Hmax1 & Hs1 & Hd1).
    split; [exact Hmax1|]. split; [exact Hs1|]. intros Hle.
    destruct (Hd1 Hle) as [[Hr _] | [_ Hle1]]; [discriminate|].
    right. split; [discriminate | exact Hle1].
Qed.

Lemma counts_steps_eval_expr `{Host} registry n :
  forall e env, counts_steps (_eval_expr registry n e env).
Proof.
  induction n as [|n IH]; intros e env w r w' He;
    simpl in He; unfold bind in He; rewrite _check_steps_spec in He;
    destruct (Z.gtb_spec (steps (ctx w) + 1) (max_steps (ctx w))) as [Hgt|Hle].
  - inversion He; subst; cbn. split; [reflexivity|]. split; [lia|].
    intros Hle. left. split; [reflexivity | lia].
  - inversion He; subst; cbn. split; [reflexivity|]. split; [lia|].
    intros _. right. split; [discriminate | lia].
  - inversion He; subst; cbn. split; [reflexivity|]. split; [lia|].
    intros Hle. left. split; [reflexivity | lia].
  - pose proof (rule_dispatch (fun A => @counts_steps A)
                  counts_steps_ret counts_steps_host counts_steps_uuid4
                  counts_steps_bind registry (_eval_expr registry n) IH e env
                  _ _ _ He) as (Hmax & Hs & Hd).
    cbn in Hmax, Hs, Hd. split; [exact Hmax|]. split; [lia|].
    intros _. apply Hd. lia.
Qed.

(** X19.  [Evaluator.evaluate] counts at least one step and, with a budget
    that is not negative, never more than [max_steps + 1].  It raises
    [NonTermination] exactly when the counter has come to exceed the budget;
    in particular it always does with a budget of zero or less, whatever the
    expression. *)
Theorem evaluate_step_budget `{Host} registry e env options drawn :
  let max := opt_max_steps (default default_EvalOptions options) in
  let '(r, w) := evaluate registry e env options drawn in
  1 <= steps (ctx w)
  /\ (0 <= max -> steps (ctx w) <= max + 1)
  /\ (r = non_termination_raised <-> steps (ctx w) > max)
  /\ (max <= 0 -> r = non_termination_raised).
Proof.
  intros max. unfold evaluate. fold max.
  set (w0 := mkWorld (mkEvalContext 0 max (opt_trace (default default_EvalOptions options)))
               drawn).
  destruct (_eval_expr registry (Z.to_nat (max_steps (ctx w0))) e env w0)
    as [r w] eqn:He.
  change (max_steps {| steps := 0; max_steps := max;
                       trace := opt_trace (default default_EvalOptions options) |})
    with (max_steps (ctx w0)).
  rewrite He.
  pose proof (counts_steps_eval_expr registry _ e env _ _ _ He) as (Hmax & Hs & Hd).
  cbn in Hmax, Hs, Hd.
  assert (H1 : 1 <= steps (ctx w)).
  { destruct (Z.to_nat (max_steps (ctx w0))) as [|n];
      simpl in He; unfold bind in He; rewrite _check_steps_spec in He;
      destruct (_ >? _).
    - inversion He; subst; cbn; lia.
    - inversion He; subst; cbn; lia.
    - inversion He; subst; cbn; lia.
    - match type of He with ?m ?w1 = _ =>
        pose proof (rule_dispatch (fun A => @counts_steps A)
                      counts_steps_ret counts_steps_host counts_steps_uuid4
                      counts_steps_bind registry (_eval_expr registry n)
                      (counts_steps_eval_expr registry n) e env _ _ _ He) as (_ & Hs1 & _)
      end.
      cbn in Hs1. lia. }
  destruct (Z_le_gt_dec 0 max) as [Hpos|Hneg].
  - destruct (Hd Hpos) as [[-> Hst] | [Hne Hst]].
    + split; [exact H1|]. split; [lia|]. split; [|reflexivity].
      split; [lia | reflexivity].
    + split; [exact H1|]. split; [lia|]. split; [split; [contradiction | lia]|].
      intros Hz. lia.
  - assert (Hr : r = non_termination_raised /\ steps (ctx w) = 1).
    { destruct (Z.to_nat (max_steps (ctx w0))) as [|n];
        simpl in He; unfold bind in He; rewrite _check_steps_spec in He;
        cbn in He; destruct (Z.gtb_spec (0 + 1) max) as [_|Hle]; try lia;
        inversion He; subst; split; reflexivity. }
    destruct Hr as [-> Hst].
    split; [exact H1|]. split; [lia|]. split; [split; [lia | reflexivity] | reflexivity].
Qed.

(** ** Program evaluation *)

Lemma evaluate_nodes_ends `{Host} registry nodes env options :
  forall node_values drawn,
    (evaluate_nodes registry nodes env options node_values drawn).1 <> OutOfFuel.
Proof.
  induction nodes as [|node nodes IH]; intros node_values drawn; simpl.
  - discriminate.
  - destruct (pn_expr node) as [e|]; [|apply IH].
    pose proof (evaluate_ends registry e env options drawn) as Hends.
    destruct (evaluate registry e env options drawn) as [[[v|code meta]|exn|] w];
      simpl in *.
    + destruct (is_error v); [discriminate | apply IH].
    + discriminate.
    + discriminate.
    + contradiction.
Qed.

Lemma evaluate_nodes_values `{Host} registry env options nodes drawn vals drawn' :
  nodes_evaluate registry env options nodes drawn vals drawn' ->
  forall node_values,
    evaluate_nodes registry nodes env options node_values drawn
    = (Ret (inr (extend_many node_values vals)), drawn').
Proof.
  induction 1 as [drawn | id e rest drawn v w vals drawn' He Hv _ IH
                 | id rest drawn vals drawn' _ IH]; intros node_values.
  - reflexivity.
  - cbn [evaluate_nodes pn_expr pn_id]. rewrite He, Hv. by rewrite IH.
  - cbn [evaluate_nodes pn_expr pn_id]. by rewrite IH.
Qed.

Lemma evaluate_nodes_app_error `{Host} registry env options pre drawn vals drawn1 :
  nodes_evaluate registry env options pre drawn vals drawn1 ->
  forall id e post v w node_values,
    evaluate registry e env options drawn1 = (Ret (Val v), w) ->
    is_error v = true ->
    evaluate_nodes registry (pre ++ mkProgramNode id (Some e) :: post) env options
      node_values drawn
    = (Ret (inl v), uuid_drawn w).
Proof.
  induction 1 as [drawn | id0 e0 rest drawn v0 w0 vals drawn' He0 Hv0 _ IH
                 | id0 rest drawn vals drawn' _ IH];
    intros id e post v w node_values He Hv.
  - cbn [app evaluate_nodes pn_expr pn_id]. by rewrite He, Hv.
  - cbn [app evaluate_nodes pn_expr pn_id]. rewrite He0, Hv0. by apply IH.
  - cbn [app evaluate_nodes pn_expr pn_id]. by apply IH.
Qed.

Lemma evaluate_nodes_app_raised `{Host} registry env options pre drawn vals drawn1 :
  nodes_evaluate registry env options pre drawn vals drawn1 ->
  forall id e post code meta w node_values,
    evaluate registry e env options drawn1 = (Ret (ErrorDict code meta), w) ->
    evaluate_nodes registry (pre ++ mkProgramNode id (Some e) :: post) env options
      node_values drawn
    = (Raise (HostError "AttributeError"), uuid_drawn w).
Proof.
  induction 1 as [drawn | id0 e0 rest drawn v0 w0 vals drawn' He0 Hv0 _ IH
                 | id0 rest drawn vals drawn' _ IH];
    intros id e post code meta w node_values He.
  - cbn [app evaluate_nodes pn_expr pn_id]. by rewrite He.
  - cbn [app evaluate_nodes pn_expr pn_id]. rewrite He0, Hv0. by eapply IH.
  - cbn [app evaluate_nodes pn_expr pn_id]. by eapply IH.
Qed.

(** X20.  [evaluate_program] evaluates the expression of every node in the
    environment of the inputs alone, in document order, and always ends.
    The first node whose value is an error value ends the program with that
    value, whichever node the document names as its result.  When no node
    yields an error value, the result is the value of the last node that has
    the result's id, and a [DomainError] error value when no node has it.
    A node whose evaluation returns the dictionary of [SPIRALError.to_value]
    ends the program with the [AttributeError] of [is_error]. *)
Theorem evaluate_program_spec `{Host} (doc : ProgramDocument)
    (registry : OperatorRegistry) (inputs : option (gmap string value))
    (options : option EvalOptions) (drawn : nat) :
  let env := mkValueEnv (default ∅ inputs) in
  let result_ref := default "" (prog_result doc) in
  (evaluate_program doc registry inputs options drawn).1 <> OutOfFuel
  /\ (forall pre id e post vals drawn1 v w,
        prog_nodes doc = Some (pre ++ mkProgramNode id (Some e) :: post)%list ->
        nodes_evaluate registry env options pre drawn vals drawn1 ->
        evaluate registry e env options drawn1 = (Ret (Val v), w) ->
        is_error v = true ->
        evaluate_program doc registry inputs options drawn = (Ret v, uuid_drawn w))
  /\ (forall vals drawn',
        nodes_evaluate registry env options (default [] (prog_nodes doc))
          drawn vals drawn' ->
        (forall pre v post,
            vals = (pre ++ (result_ref, v) :: post)%list ->
            result_ref ∉ post.*1 ->
            evaluate_program doc registry inputs options drawn = (Ret v, drawn'))
        /\ (result_ref ∉ vals.*1 ->
            evaluate_program doc registry inputs options drawn
            = (Ret (ErrorVal "DomainError"
                      (Some ("Result node not evaluated: " ++ result_ref)) None),
               drawn')))
  /\ (forall pre id e post vals drawn1 code meta w,
        prog_nodes doc = Some (pre ++ mkProgramNode id (Some e) :: post)%list ->
        nodes_evaluate registry env options pre drawn vals drawn1 ->
        evaluate registry e env options drawn1 = (Ret (ErrorDict code meta), w) ->
        evaluate_program doc registry inputs options drawn
        = (Raise (HostError "AttributeError"), uuid_drawn w)).
Proof.
  intros env result_ref. split; [|split; [|split]].
  - unfold evaluate_program.
    pose proof (evaluate_nodes_ends registry (default [] (prog_nodes doc))
                  (mkValueEnv (default ∅ inputs)) options ∅ drawn) as Hends.
    destruct (evaluate_nodes _ _ _ _ _ _) as [[[v|node_values]|exn|] d]; simpl in *.
    + discriminate.
    + destruct (node_values !! _); discriminate.
    + discriminate.
    + contradiction.
  - intros pre id e post vals drawn1 v w Hdoc Hpre He Hv.
    unfold evaluate_program. rewrite Hdoc. cbn [default].
    by rewrite (evaluate_nodes_app_error registry env options pre drawn vals drawn1
                  Hpre id e post v w ∅ He Hv).
  - intros vals drawn' Hall. unfold evaluate_program.
    rewrite (evaluate_nodes_values registry env options _ drawn vals drawn' Hall ∅).
    fold result_ref. split.
    + intros pre v post -> Hpost.
      pose proof (extend_many_last ∅ pre result_ref v post Hpost) as Hl.
      unfold lookup_value in Hl. by rewrite Hl.
    + intros Hnone.
      pose proof (extend_many_not_bound ∅ vals result_ref Hnone) as Hl.
      unfold lookup_value in Hl. rewrite Hl. by rewrite lookup_empty.
  - intros pre id e post vals drawn1 code meta w Hdoc Hpre He.
    unfold evaluate_program. rewrite Hdoc. cbn [default].
    by rewrite (evaluate_nodes_app_raised registry env options pre drawn vals drawn1
                  Hpre id e post code meta w ∅ He).
Qed.

Lemma evaluate_program_spec_witness :
  evaluate_program
    (mkProgramDocument
       (Some [mkProgramNode "one" (Some (LitExpr IntType (RInt 1)));
              mkProgramNode "two" (Some (RefExpr "one"))])
       (Some "one"))
    no_operators None None 0
  = (Ret (ErrorVal "DomainError"
            (Some "Ref must be resolved during program evaluation: one") None), 0%nat).
Proof.
  pose proof (proj1 (proj2 (evaluate_program_spec
    (mkProgramDocument
       (Some [mkProgramNode "one" (Some (LitExpr IntType (RInt 1)));
              mkProgramNode "two" (Some (RefExpr "one"))])
       (Some "one"))
    no_operators None None 0))) as Hfirst.
  cbv zeta in Hfirst.
  apply (Hfirst [mkProgramNode "one" (Some (LitExpr IntType (RInt 1)))]
           "two" (RefExpr "one") [] [("one", IntVal 1)] 0%nat
           (ErrorVal "DomainError"
              (Some "Ref must be resolved during program evaluation: one") None)
           (mkWorld (mkEvalContext 1 10000 false) 0)).
  - reflexivity.
  - eapply nodes_expr; [reflexivity | reflexivity | apply nodes_done].
  - reflexivity.
  - reflexivity.
Defined.

(** ** The EIR forms of the expression evaluator *)

(** X21.  The EIR forms of [Evaluator.evaluate] only read the environment:
    with a budget of at least one step each of them ends after exactly one
    step, evaluates no expression and draws no uuid.  The loop and effect
    forms are placeholders that yield void whatever their operands.
    [refCell] wraps the value its operand is bound to, and [deref] of a name
    bound to such a cell gives the value back.  [try] yields, when its body
    is bound to an error value, what the catch body is bound to in the
    environment extended with the catch parameter bound to that error; when
    the body is bound to another value, it yields that value, unless a
    fallback is given: then it yields what the fallback is bound to. *)
Theorem eir_forms_read_the_environment `{Host} registry env options drawn :
  let max := opt_max_steps (default default_EvalOptions options) in
  let after_one_step :=
    mkWorld (mkEvalContext 1 max (opt_trace (default default_EvalOptions options)))
      drawn in
  1 <= max ->
  (forall cond body,
      evaluate registry (EirWhileExpr cond body) env options drawn
      = (Ret (Val VoidVal), after_one_step))
  /\ (forall var init cond update body,
      evaluate registry (EirForExpr var init cond update body) env options drawn
      = (Ret (Val VoidVal), after_one_step))
  /\ (forall var iter body,
      evaluate registry (EirIterExpr var iter body) env options drawn
      = (Ret (Val VoidVal), after_one_step))
  /\ (forall op args,
      evaluate registry (EirEffectExpr op args) env options drawn
      = (Ret (Val VoidVal), after_one_step))
  /\ (forall target v,
      env !! target = Some v ->
      evaluate registry (EirRefCellExpr target) env options drawn
      = (Ret (Val (RefCellVal v)), after_one_step))
  /\ (forall target v,
      env !! target = Some (RefCellVal v) ->
      evaluate registry (EirDerefExpr target) env options drawn
      = (Ret (Val v), after_one_step))
  /\ (forall try_body catch_param catch_body fallback err,
      env !! try_body = Some err -> is_error err = true ->
      evaluate registry (EirTryExpr try_body catch_param catch_body fallback)
        env options drawn
      = (Ret (Val (default
                (ErrorVal "UnboundIdentifier"
                   (Some ("Unbound identifier in catch: " ++ catch_body)) None)
                (<[catch_param := err]> env !! catch_body))),
         after_one_step))
  /\ (forall try_body catch_param catch_body v,
      env !! try_body = Some v -> is_error v = false ->
      evaluate registry (EirTryExpr try_body catch_param catch_body None)
        env options drawn
      = (Ret (Val v), after_one_step))
  /\ (forall try_body catch_param catch_body fallback v,
      env !! try_body = Some v -> is_error v = false ->
      evaluate registry (EirTryExpr try_body catch_param catch_body (Some fallback))
        env options drawn
      = (Ret (Val (default
                (ErrorVal "UnboundIdentifier"
                   (Some ("Unbound identifier in fallback: " ++ fallback)) None)
                (env !! fallback))),
         after_one_step)).
Proof.
  intros max after_one_step Hmax.
  assert (Hstep : forall e,
            evaluate registry e env options drawn
            = dispatch registry (_eval_expr registry (Nat.pred (Z.to_nat max))) e env
                after_one_step).
  { intros e. unfold evaluate. fold max. cbn [max_steps].
    destruct (Z.to_nat max) as [|n] eqn:Hn; [lia|].
    cbn [_eval_expr Nat.pred]. unfold bind. rewrite _check_steps_spec. cbn.
    destruct (Z.gtb_spec (0 + 1) max); [lia | reflexivity]. }
  repeat split.
  - intros. by rewrite Hstep.
  - intros. by rewrite Hstep.
  - intros. by rewrite Hstep.
  - intros. by rewrite Hstep.
  - intros target v Hv. rewrite Hstep. cbn [dispatch].
    unfold _eval_ref_cell, lookup_value. by rewrite Hv.
  - intros target v Hv. rewrite Hstep. cbn [dispatch].
    unfold _eval_deref, lookup_value. by rewrite Hv.
  - intros try_body catch_param catch_body fallback err Hb He. rewrite Hstep.
    cbn [dispatch]. unfold _eval_try, lookup_value, extend_value_env.
    rewrite Hb, He. by destruct (<[catch_param := err]> env !! catch_body).
  - intros try_body catch_param catch_body v Hb He. rewrite Hstep.
    cbn [dispatch]. unfold _eval_try, lookup_value. by rewrite Hb, He.
  - intros try_body catch_param catch_body fallback v Hb He. rewrite Hstep.
    cbn [dispatch]. unfold _eval_try, lookup_value. rewrite Hb, He.
    by destruct (env !! fallback).
Qed.

Lemma eir_forms_read_the_environment_witness :
  evaluate no_operators (EirWhileExpr "c" "b") {["c" := BoolVal true]} None 0
  = (Ret (Val VoidVal), mkWorld (mkEvalContext 1 10000 false) 0).
Proof.
  apply (proj1 (eir_forms_read_the_environment no_operators
                  {["c" := BoolVal true]} None 0 ltac:(cbn; lia))).
Defined.

(** ** Invariants of the CFG executor

    A reflexive and transitive relation on runtime states that every state
    update of an instruction, of a terminator and of the loop respects is
    respected by the execution of a block node. *)

Section LIRRelation.
Variable R : LIRRuntimeState -> LIRRuntimeState -> Prop.
Hypothesis R_refl : forall s, R s s.
Hypothesis R_trans : forall s1 s2 s3, R s1 s2 -> R s2 s3 -> R s1 s3.

Lemma relates_ret {A} (a : A) : relates R (ret a).
Proof using R_refl. intros s r s' [= <- <-]. apply R_refl. Qed.

Lemma relates_raise {A} e : relates R (@raise LIRRuntimeState A e).
Proof using R_refl. intros s r s' [= <- <-]. apply R_refl. Qed.

Lemma relates_out_of_fuel {A} : relates R (@out_of_fuel LIRRuntimeState A).
Proof using R_refl. intros s r s' [= <- <-]. apply R_refl. Qed.

Lemma relates_get_state : relates R get_state.
Proof using R_refl. intros s r s' [= <- <-]. apply R_refl. Qed.

Lemma relates_modify f : (forall s, R s (f s)) -> relates R (modify f).
Proof. intros Hf s r s' [= <- <-]. apply Hf. Qed.

Lemma relates_bind {A B} (m : L A) (k : A -> L B) :
  relates R m -> (forall a, relates R (k a)) -> relates R (bind m k).
Proof using R_trans.
  intros Hm Hk s r s' Hb.
  apply bind_inv in Hb as [(a & s1 & H1 & H2) | [(e & H1 & ->) | (H1 & ->)]].
  - exact (R_trans _ _ _ (Hm _ _ _ H1) (Hk a _ _ _ H2)).
  - exact (Hm _ _ _ H1).
  - exact (Hm _ _ _ H1).
Qed.

Lemma relates_from_host {A} what (o : option A) : relates R (from_host what o).
Proof using R_refl. destruct o; [apply relates_ret | apply relates_raise]. Qed.

Lemma relates_evaluate_expr `{Host} e env : relates R (_evaluate_expr e env).
Proof using R_refl R_trans.
  unfold _evaluate_expr. destruct e; try apply relates_ret.
  - destruct type_annotation; try apply relates_ret;
      (apply relates_bind; [apply relates_from_host | intros ?; apply relates_ret]).
  - destruct (env !! name); apply relates_ret.
Qed.

Lemma relates_returns_error (m : L (option value)) :
  relates R m -> relates R (returns_error m).
Proof using R_refl R_trans.
  intros Hm. unfold returns_error.
  apply relates_bind; [exact Hm | intros r; apply relates_ret].
Qed.

(** An instruction respects [R] when the assignment of its target does
    and, for an effect instruction, the logging of the effect does. *)
Lemma relates_execute_instruction `{Host} registry effect_registry ins :
  (forall v s, R s (set_vars (insert (write_target ins) v) s)) ->
  (forall target op args, ins = LirInsEffect target op args ->
     forall record s, R s (add_effect record s)) ->
  relates R (_execute_instruction registry effect_registry ins).
Proof using R_refl R_trans.
  intros Hset Hlog.
  assert (Hassign : forall v, relates R (modify (set_vars (insert (write_target ins) v))))
    by (intros v; apply relates_modify, Hset).
  destruct ins; cbn [_execute_instruction write_target] in *.
  - apply relates_returns_error. unfold _execute_assign.
    apply relates_bind; [apply relates_get_state | intros state].
    apply relates_bind; [apply relates_evaluate_expr | intros v0].
    destruct (is_error v0); [apply relates_ret|].
    apply relates_bind; [apply Hassign | intros _; apply relates_ret].
  - apply relates_returns_error. unfold _execute_call.
    apply relates_bind; [apply relates_get_state | intros state].
    destruct (lir_args _ _ _); [apply relates_ret|].
    apply relates_bind; [apply Hassign | intros _; apply relates_ret].
  - unfold _execute_op.
    apply relates_bind; [apply relates_get_state | intros state].
    destruct (lir_args _ _ _); [apply relates_ret|].
    destruct (registry_lookup _ _ _); [|apply relates_ret].
    destruct (negb _); [apply relates_ret|].
    destruct (apply_impl _ _); [|apply relates_ret].
    apply relates_bind; [apply Hassign | intros _; apply relates_ret].
  - apply relates_returns_error. unfold _execute_phi.
    apply relates_bind; [apply relates_get_state | intros state].
    match goal with |- relates _ (match ?x with _ => _ end) => destruct x end;
      [|apply relates_ret].
    apply relates_bind; [apply Hassign | intros _; apply relates_ret].
  - unfold _execute_effect.
    destruct (lookup_effect _ _); [|apply relates_ret].
    apply relates_bind; [apply relates_get_state | intros state].
    destruct (lir_args _ _ _); [apply relates_ret|].
    destruct (negb _); [apply relates_ret|].
    apply relates_bind; [apply relates_modify, (Hlog _ _ _ eq_refl) | intros _].
    destruct (eff_fn _ _); try apply relates_ret.
    apply relates_bind; [apply Hassign | intros _; apply relates_ret].
  - apply relates_returns_error. unfold _execute_assign_ref.
    apply relates_bind; [apply relates_get_state | intros state].
    destruct (_ !! v); [|apply relates_ret].
    destruct (is_error _); [apply relates_ret|].
    apply relates_bind; [apply Hassign | intros _; apply relates_ret].
Qed.

Section Run.
Context `{Host}.
Variable registry : OperatorRegistry.
Variable effect_registry : EffectRegistry.
Variable blocks : list LirBlock.
Hypothesis R_instruction : forall b ins,
  b ∈ blocks -> ins ∈ instructions b ->
  relates R (_execute_instruction registry effect_registry ins).
Hypothesis R_count_step : forall s, R s (count_step s).
Hypothesis R_set_predecessor : forall b s, R s (set_predecessor b s).
Hypothesis R_set_return_value : forall v s, R s (set_return_value v s).

Lemma relates_execute_block instrs :
  (forall ins, ins ∈ instrs ->
     relates R (_execute_instruction registry effect_registry ins)) ->
  relates R (_execute_block registry effect_registry instrs).
Proof using R_refl R_trans R_count_step.
  induction instrs as [|ins rest IH]; intros Hall; cbn [_execute_block].
  - apply relates_ret.
  - apply relates_bind; [apply relates_modify, R_count_step | intros _].
    apply relates_bind; [apply relates_get_state | intros state].
    destruct (_ >? _); [apply relates_ret|].
    apply relates_bind; [apply Hall, elem_of_cons; by left | intros [err|]].
    + apply relates_ret.
    + apply IH. intros ins' Hin. apply Hall, elem_of_cons. by right.
Qed.

Lemma relates_execute_terminator term : relates R (_execute_terminator term).
Proof using R_refl R_trans R_set_return_value.
  unfold _execute_terminator.
  apply relates_bind; [apply relates_get_state | intros state].
  destruct term.
  - apply relates_ret.
  - destruct (_ !! cond) as [v|]; [|apply relates_ret].
    destruct (is_error v); [apply relates_ret | apply relates_raise].
  - destruct (truthy v) as [x|]; [|apply relates_ret].
    destruct (_ !! x); [|apply relates_ret].
    apply relates_bind; [apply relates_modify, R_set_return_value | intros _].
    apply relates_ret.
  - destruct (truthy code) as [x|]; [|apply relates_ret].
    destruct (_ !! x); apply relates_ret.
Qed.

Lemma relates_run_block loop cur executed :
  (forall next executed', relates R (loop next executed')) ->
  relates R (run_block registry effect_registry loop blocks cur executed).
Proof using R_refl R_trans R_instruction R_count_step R_set_predecessor R_set_return_value.
  intros Hloop. unfold run_block.
  destruct (find_block blocks cur) as [b|] eqn:Hfind; [|apply relates_ret].
  apply find_block_Some in Hfind as [Hb _].
  apply relates_bind.
  { apply relates_execute_block. intros ins Hin. by apply (R_instruction b). }
  intros [err|]; [apply relates_ret|].
  apply relates_bind; [apply relates_execute_terminator | intros [next|v]].
  - apply relates_bind; [apply relates_modify, R_set_predecessor | intros _].
    apply Hloop.
  - apply relates_ret.
Qed.

Lemma relates_cfg_loop fuel :
  forall cur executed,
    relates R (cfg_loop registry effect_registry fuel blocks cur executed).
Proof using R_refl R_trans R_instruction R_count_step R_set_predecessor R_set_return_value.
  induction fuel as [|fuel IH]; intros cur executed; cbn [cfg_loop].
  - destruct (String.eqb cur "").
    + apply relates_bind; [apply relates_get_state | intros ?; apply relates_ret].
    + apply relates_out_of_fuel.
  - destruct (String.eqb cur "").
    { apply relates_bind; [apply relates_get_state | intros ?; apply relates_ret]. }
    destruct (bool_decide _).
    + apply relates_bind; [apply relates_modify, R_count_step | intros _].
      apply relates_bind; [apply relates_get_state | intros state].
      destruct (_ >? _); [apply relates_ret|].
      apply relates_run_block. exact IH.
    + apply relates_run_block. exact IH.
Qed.
End Run.
End LIRRelation.

(** *** Variables outside the targets keep their values *)

Lemma keeps_vars_outside_refl T s : keeps_vars_outside T s s.
Proof. split; [reflexivity | reflexivity]. Qed.

Lemma keeps_vars_outside_trans T s1 s2 s3 :
  keeps_vars_outside T s1 s2 -> keeps_vars_outside T s2 s3 ->
  keeps_vars_outside T s1 s3.
Proof.
  intros [H1 D1] [H2 D2]. split.
  - intros x Hx. by rewrite (H2 x Hx), (H1 x Hx).
  - by transitivity (dom (vars s2)).
Qed.

Lemma keeps_vars_outside_insert (T : gset string) target v s :
  target ∈ T -> keeps_vars_outside T s (set_vars (insert target v) s).
Proof.
  intros Ht. split; cbn.
  - intros x Hx. rewrite lookup_insert_ne; [reflexivity|]. intros ->. contradiction.
  - rewrite dom_insert. apply union_subseteq_r.
Qed.

Lemma keeps_vars_outside_same_vars T s s' :
  vars s' = vars s -> keeps_vars_outside T s s'.
Proof. intros Heq. split; [intros x _; by rewrite Heq | by rewrite Heq]. Qed.

Lemma execute_instruction_keeps_vars `{Host} registry effect_registry
    (T : gset string) ins :
  write_target ins ∈ T ->
  relates (keeps_vars_outside T)
    (_execute_instruction registry effect_registry ins).
Proof.
  intros Ht.
  apply (relates_execute_instruction _ (keeps_vars_outside_refl T)
           (keeps_vars_outside_trans T)).
  - intros v s. by apply keeps_vars_outside_insert.
  - intros _ _ _ _ record s. by apply keeps_vars_outside_same_vars.
Qed.

Lemma write_target_written blocks b ins :
  b ∈ blocks -> ins ∈ instructions b -> write_target ins ∈ written blocks.
Proof.
  intros Hb Hins. unfold written. apply elem_of_list_to_set.
  apply list_elem_of_In, in_concat. exists (map write_target (instructions b)).
  split.
  - apply in_map_iff. exists b. split; [reflexivity | by apply list_elem_of_In].
  - apply in_map. by apply list_elem_of_In.
Qed.

(** X22.  The CFG executor only assigns the targets of the instructions it
    runs: after the execution of a block node, every variable that is not
    the target of one of its instructions (for [assignRef], the name of the
    cell, the target followed by [_ref]) is bound as it was before, so the
    inputs that no instruction targets reach the end unchanged; and no
    variable is ever removed. *)
Theorem cfg_execution_keeps_other_variables `{Host} registry effect_registry
    fuel blocks cur executed s r s' :
  cfg_loop registry effect_registry fuel blocks cur executed s = (r, s') ->
  (forall x, x ∉ written blocks -> vars s' !! x = vars s !! x)
  /\ dom (vars s) ⊆ dom (vars s').
Proof.
  intros Hrun.
  apply (relates_cfg_loop (keeps_vars_outside (written blocks))
           (keeps_vars_outside_refl _) (keeps_vars_outside_trans _)
           registry effect_registry blocks) in Hrun; [exact Hrun| | | |].
  - intros b ins Hb Hins. apply execute_instruction_keeps_vars.
    by apply (write_target_written blocks b).
  - intros s0. by apply keeps_vars_outside_same_vars.
  - intros b s0. by apply keeps_vars_outside_same_vars.
  - intros v s0. by apply keeps_vars_outside_same_vars.
Qed.

Lemma cfg_execution_keeps_other_variables_witness :
  let s := mkLIRRuntimeState {["input" := IntVal 7]} None [] 0 10000 None in
  let run := cfg_loop no_operators no_effects 3
               [mkLirBlock "b0" [LirInsAssign "x" (LitExpr BoolType (RBool true))]
                  (LirTermReturn (Some "x"))]
               "b0" ∅ s in
  (forall x, x ∉ written [mkLirBlock "b0" [LirInsAssign "x" (LitExpr BoolType (RBool true))]
                            (LirTermReturn (Some "x"))] ->
     vars run.2 !! x = vars s !! x)
  /\ dom (vars s) ⊆ dom (vars run.2).
Proof.
  intros s run.
  apply (cfg_execution_keeps_other_variables no_operators no_effects 3
           [mkLirBlock "b0" [LirInsAssign "x" (LitExpr BoolType (RBool true))]
              (LirTermReturn (Some "x"))]
           "b0" ∅ s run.1 run.2).
  apply surjective_pairing.
Defined.

(** *** The log of effects *)

Lemma log_extended_refl s : log_extended s s.
Proof. unfold log_extended. reflexivity. Qed.

Lemma log_extended_trans s1 s2 s3 :
  log_extended s1 s2 -> log_extended s2 s3 -> log_extended s1 s3.
Proof. unfold log_extended. intros H1 H2. by transitivity (effects s2). Qed.

Lemma log_extended_same s s' : effects s' = effects s -> log_extended s s'.
Proof. unfold log_extended. intros ->. reflexivity. Qed.

Lemma execute_instruction_extends_log `{Host} registry effect_registry ins :
  relates log_extended (_execute_instruction registry effect_registry ins).
Proof.
  apply (relates_execute_instruction _ log_extended_refl log_extended_trans).
  - intros v s. by apply log_extended_same.
  - intros _ _ _ _ record s. unfold log_extended. cbn. by apply prefix_app_r.
Qed.

(** X23.  The log of effects only grows at its end during the execution of
    a block node: what was logged stays, in order.  An effect instruction
    whose effect is registered, whose operands are bound to values that are
    not error values and whose operand count is the effect's parameter count
    appends exactly one record, the effect's name with the operand values,
    before the effect runs: the record is in the log also when the effect
    fails.  An effect instruction that is stopped earlier, and every other
    instruction, leaves the log as it is. *)
Theorem effect_log_grows `{Host} registry effect_registry :
  (forall fuel blocks cur executed s r s',
      cfg_loop registry effect_registry fuel blocks cur executed s = (r, s') ->
      effects s `prefix_of` effects s')
  /\ (forall target op args s effect_op arg_values r s',
      lookup_effect effect_registry op = Some effect_op ->
      lir_args (vars s) args [] = inr arg_values ->
      length (eff_params effect_op) = length arg_values ->
      _execute_effect effect_registry target op args s = (r, s') ->
      effects s' = (effects s ++ [mkEffectRecord op arg_values])%list)
  /\ (forall target op args s r s',
      (lookup_effect effect_registry op = None
       \/ (exists early, lir_args (vars s) args [] = inl early)
       \/ (exists effect_op arg_values,
             lookup_effect effect_registry op = Some effect_op
             /\ lir_args (vars s) args [] = inr arg_values
             /\ length (eff_params effect_op) <> length arg_values)) ->
      _execute_effect effect_registry target op args s = (r, s') ->
      effects s' = effects s)
  /\ (forall ins s r s',
      (forall target op args, ins <> LirInsEffect target op args) ->
      _execute_instruction registry effect_registry ins s = (r, s') ->
      effects s' = effects s).
Proof.
  split; [|split; [|split]].
  - intros fuel blocks cur executed s r s' Hrun.
    apply (relates_cfg_loop log_extended log_extended_refl log_extended_trans
             registry effect_registry blocks) in Hrun; [exact Hrun| | | |].
    + intros b ins _ _. apply execute_instruction_extends_log.
    + intros s0. by apply log_extended_same.
    + intros b s0. by apply log_extended_same.
    + intros v s0. by apply log_extended_same.
  - intros target op args s effect_op arg_values r s' Hop Hargs Hlen Hr.
    unfold _execute_effect in Hr. rewrite Hop in Hr.
    unfold bind at 1, get_state in Hr. rewrite Hargs in Hr.
    apply Nat.eqb_eq in Hlen. rewrite Hlen in Hr. cbn [negb] in Hr.
    unfold bind at 1, modify in Hr.
    destruct (eff_fn effect_op arg_values); cbn in Hr; by inversion Hr.
  - intros target op args s r s' Hcase Hr.
    unfold _execute_effect in Hr.
    destruct Hcase as [Hnone | [[early Hearly] | (effect_op & arg_values & Hop & Hargs & Hlen)]].
    + rewrite Hnone in Hr. by inversion Hr.
    + destruct (lookup_effect _ _); [|by inversion Hr].
      unfold bind at 1, get_state in Hr. rewrite Hearly in Hr. by inversion Hr.
    + rewrite Hop in Hr. unfold bind at 1, get_state in Hr. rewrite Hargs in Hr.
      apply Nat.eqb_neq in Hlen. rewrite Hlen in Hr. by inversion Hr.
  - intros ins s r s' Hne Hr.
    set (R := fun s0 s1 : LIRRuntimeState => effects s1 = effects s0).
    assert (Hrel : relates R (_execute_instruction registry effect_registry ins)).
    { apply relates_execute_instruction.
      - reflexivity.
      - unfold R. intros; congruence.
      - reflexivity.
      - intros target op args ->. exfalso. by eapply Hne. }
    exact (Hrel _ _ _ Hr).
Qed.

(** ** The default task scheduler *)

Lemma tasks_consistent_alter (f : Task -> Task) h s :
  tasks_consistent s ->
  (forall task,
      (status task = PENDING -> future task = FutPending) ->
      (status task = COMPLETED -> is_Some (result task)) ->
      (status task <> PENDING -> future_done (future task) = true) ->
      (status (f task) = PENDING -> future (f task) = FutPending)
      /\ (status (f task) = COMPLETED -> is_Some (result (f task)))
      /\ (status (f task) <> PENDING -> future_done (future (f task)) = true)) ->
  forall tasks,
    tasks_consistent (with_tasks tasks (alter f h (task_objects s)) s).
Proof.
  intros Hs Hf tasks h' task Hl. cbn in Hl.
  destruct (decide (h = h')) as [<-|Hne].
  - rewrite list_lookup_alter_eq in Hl.
    destruct (task_objects s !! h) as [t0|] eqn:Ht0; [|discriminate].
    injection Hl as <-. destruct (Hs h t0 Ht0) as (H1 & H2 & H3). by apply Hf.
  - rewrite list_lookup_alter_ne in Hl by exact Hne. exact (Hs _ _ Hl).
Qed.

Lemma scheduler_step_consistent s ev :
  tasks_consistent s -> tasks_consistent (scheduler_step s ev).
Proof.
  intros Hs. destruct ev as [id | h v | h | id]; cbn [scheduler_step].
  - intros h task Hl. unfold spawn in Hl. cbn in Hl.
    apply lookup_app_Some in Hl as [Hl | [_ Hl]]; [exact (Hs _ _ Hl)|].
    apply list_lookup_singleton_Some in Hl as [_ <-]. cbn.
    split; [reflexivity|]. split; [discriminate | intros Hn; by exfalso].
  - unfold task_returns. apply tasks_consistent_alter; [exact Hs|].
    intros task H1 H2 H3. cbn. split; [discriminate|]. split; [eauto|].
    intros _. destruct (future_done (future task)) eqn:Hd; [exact Hd | reflexivity].
  - unfold task_raises. apply tasks_consistent_alter; [exact Hs|].
    intros task H1 H2 H3. cbn. split; [discriminate|]. split; [discriminate|].
    intros _. destruct (future_done (future task)) eqn:Hd; [exact Hd | reflexivity].
  - unfold cancel. destruct (_tasks s !! id) as [h|]; [|exact Hs].
    apply tasks_consistent_alter; [exact Hs|].
    intros task H1 H2 H3. cbn. split; [discriminate|]. split; [discriminate|].
    intros _. destruct (future_done (future task)) eqn:Hd; [exact Hd | reflexivity].
Qed.

Lemma scheduler_run_consistent evs :
  forall s, tasks_consistent s -> tasks_consistent (scheduler_run s evs).
Proof.
  induction evs as [|ev evs IH]; intros s Hs; [exact Hs|].
  apply IH. by apply scheduler_step_consistent.
Qed.

Lemma new_scheduler_consistent g y : tasks_consistent (new_scheduler g y).
Proof. intros h task Hl. cbn in Hl. by rewrite lookup_nil in Hl. Qed.

(** X24.  In every state the default scheduler reaches from a fresh one,
    [await_task] suspends exactly for the tasks for which [is_complete] is
    false, and raises [ValueError] exactly for the ids the table does not
    hold; so a cancelled task, whose entry [cancel] removes, is awaited to
    a [ValueError] and not to a cancellation.  Once the body of a task in
    the table has returned, the task is awaited to the value returned, and
    it still counts in [active_task_count]: only [cancel] lowers the
    count. *)
Theorem await_task_spec (g y : Z) (evs : list SchedulerEvent) (id : string) :
  let s := scheduler_run (new_scheduler g y) evs in
  (await_task id s = AwaitSuspends <-> is_complete id s = false)
  /\ (await_task id s = AwaitNotFound <-> _tasks s !! id = None)
  /\ await_task id (cancel id s) = AwaitNotFound
  /\ (forall h v, _tasks s !! id = Some h ->
        await_task id (task_returns h v s) = AwaitReturns v
        /\ is_complete id (task_returns h v s) = true
        /\ active_task_count (task_returns h v s) = active_task_count s)
  /\ (forall h, _tasks s !! id = Some h ->
        active_task_count (cancel id s) = Nat.pred (active_task_count s)).
Proof.
  intros s.
  assert (Hcons : tasks_consistent s)
    by apply scheduler_run_consistent, new_scheduler_consistent.
  assert (Hvalid : table_valid s).
  { apply scheduler_run_valid. intros i h Hl. cbn in Hl. by rewrite lookup_empty in Hl. }
  split; [|split; [|split; [|split]]].
  - unfold await_task, is_complete.
    destruct (_tasks s !! id) as [h|] eqn:Hid; [|split; discriminate].
    destruct (task_objects s !! h) as [task|] eqn:Ht; [|split; discriminate].
    destruct (Hcons h task Ht) as (H1 & H2 & H3).
    destruct (status task) eqn:Hst.
    + rewrite (H1 eq_refl). split; reflexivity.
    + destruct (H2 eq_refl) as [r ->]. split; discriminate.
    + specialize (H3 ltac:(discriminate)).
      destruct (result task); destruct (future task); try discriminate;
        split; discriminate.
  - unfold await_task.
    destruct (_tasks s !! id) as [h|] eqn:Hid; [|split; reflexivity].
    destruct (lookup_lt_is_Some_2 (task_objects s) h (Hvalid id h Hid)) as [task Ht].
    rewrite Ht. split; [|discriminate].
    destruct (status task), (result task), (future task); discriminate.
  - unfold await_task, cancel.
    destruct (_tasks s !! id) as [h|] eqn:Hid.
    + cbn. by rewrite lookup_delete_eq.
    + by rewrite Hid.
  - intros h v Hid.
    destruct (lookup_lt_is_Some_2 (task_objects s) h (Hvalid id h Hid)) as [task Ht].
    unfold await_task, is_complete, task_returns, active_task_count. cbn.
    rewrite Hid, list_lookup_alter_eq, Ht. cbn. repeat split.
  - intros h Hid. unfold cancel, active_task_count. rewrite Hid. cbn.
    rewrite map_size_delete_Some by eauto. reflexivity.
Qed.

Lemma check_global_steps_fields s :
  _global_steps (check_global_steps s).2 = _global_steps s + 1
  /\ _global_max_steps (check_global_steps s).2 = _global_max_steps s
  /\ _yield_interval (check_global_steps s).2 = _yield_interval s
  /\ _tasks (check_global_steps s).2 = _tasks s
  /\ task_objects (check_global_steps s).2 = task_objects s.
Proof.
  unfold check_global_steps. cbn.
  destruct (_ >? _); [by cbn|]. destruct (_ =? _); by cbn.
Qed.

(** X25.  [check_global_steps] counts every call, also the calls that
    raise, and leaves the tasks alone.  Of calls made one after the other,
    the [k]-th raises [RuntimeError] exactly when the counter it reaches is
    beyond the limit, so that once a call has raised every later call
    raises; a call within the limit raises [ZeroDivisionError] when the
    yield interval is zero, and otherwise succeeds and yields exactly when
    the interval divides the counter. *)
Theorem check_global_steps_spec (s : DefaultTaskScheduler) (n : nat) :
  let run := check_global_steps_times n s in
  _global_steps run.2 = _global_steps s + Z.of_nat n
  /\ _tasks run.2 = _tasks s
  /\ task_objects run.2 = task_objects s
  /\ length run.1 = n
  /\ (forall k r,
        run.1 !! k = Some r ->
        r = let counter := _global_steps s + Z.of_nat (S k) in
            if counter >? _global_max_steps s then StepLimitExceeded
            else if _yield_interval s =? 0 then StepZeroDivision
            else StepCounted (counter mod _yield_interval s =? 0))
  /\ (forall k k',
        (k <= k')%nat -> (k' < n)%nat ->
        run.1 !! k = Some StepLimitExceeded ->
        run.1 !! k' = Some StepLimitExceeded).
Proof.
  cbv zeta.
  assert (Hmain : forall n s,
    _global_steps (check_global_steps_times n s).2 = _global_steps s + Z.of_nat n
    /\ _tasks (check_global_steps_times n s).2 = _tasks s
    /\ task_objects (check_global_steps_times n s).2 = task_objects s
    /\ length (check_global_steps_times n s).1 = n
    /\ (forall k r,
          (check_global_steps_times n s).1 !! k = Some r ->
          r = if _global_steps s + Z.of_nat (S k) >? _global_max_steps s
              then StepLimitExceeded
              else if _yield_interval s =? 0 then StepZeroDivision
              else StepCounted ((_global_steps s + Z.of_nat (S k))
                                mod _yield_interval s =? 0))).
  { clear. induction n as [|n IH]; intros s.
    - cbn. split; [lia|]. split; [reflexivity|]. split; [reflexivity|].
      split; [reflexivity|]. intros k r Hk. by rewrite lookup_nil in Hk.
    - cbn [check_global_steps_times].
      destruct (check_global_steps_fields s) as (Hs & Hm & Hy & Ht & Ho).
      destruct (check_global_steps s) as [r1 s1] eqn:Hc. cbn in Hs, Hm, Hy, Ht, Ho.
      destruct (IH s1) as (IHs & IHt & IHo & IHl & IHk).
      destruct (check_global_steps_times n s1) as [rs s2]. cbn in *.
      split; [lia|]. split; [congruence|]. split; [congruence|].
      split; [by rewrite IHl|].
      intros [|k] r Hk.
      + cbn in Hk. injection Hk as <-.
        unfold check_global_steps in Hc. cbn in Hc.
        replace (_global_steps s + 1) with (_global_steps s + Z.of_nat 1) in Hc by lia.
        destruct (_ >? _); [by inversion Hc|].
        destruct (_ =? _); by inversion Hc.
      + cbn in Hk. rewrite (IHk k r Hk), Hs, Hm, Hy.
        replace (_global_steps s + 1 + Z.of_nat (S k))
          with (_global_steps s + Z.of_nat (S (S k))) by lia.
        reflexivity. }
  destruct (Hmain n s) as (H1 & H2 & H3 & H4 & H5).
  split; [exact H1|]. split; [exact H2|]. split; [exact H3|]. split; [exact H4|].
  split; [exact H5|].
  intros k k' Hle Hlt Hk.
  destruct (lookup_lt_is_Some_2 (check_global_steps_times n s).1 k') as [r' Hr'];
    [lia|].
  rewrite Hr'. f_equal. rewrite (H5 k' r' Hr').
  apply H5 in Hk.
  destruct (Z.gtb_spec (_global_steps s + Z.of_nat (S k)) (_global_max_steps s))
    as [Hgt|Hng].
  - destruct (Z.gtb_spec (_global_steps s + Z.of_nat (S k')) (_global_max_steps s));
      [reflexivity | lia].
  - destruct (_yield_interval s =? 0); discriminate.
Qed.

(** ** The barrier *)

Lemma barrier_waits_suspend (k : nat) :
  forall b,
    _count b <= 0 \/ Z.of_nat k < _count b ->
    barrier_waits k b
    = (map WaitSuspends (seq (length (barrier_futures b)) k),
       mkAsyncBarrier (_count b - Z.of_nat k)
         (_waiting b ++ seq (length (barrier_futures b)) k)
         (_release_in_progress b)
         (barrier_futures b ++ replicate k false)).
Proof.
  induction k as [|k IH]; intros b Hk.
  - cbn. rewrite Z.sub_0_r, !app_nil_r. by destruct b.
  - cbn [barrier_waits]. unfold barrier_wait at 1.
    destruct (Z.eqb_spec (_count b - 1) 0) as [Hz|Hnz]; [lia|].
    rewrite IH by (cbn; lia). cbn.
    rewrite length_app. cbn. rewrite Nat.add_1_r.
    f_equal. f_equal; [lia | by rewrite <- app_assoc | by rewrite <- app_assoc].
Qed.

Lemma length_release waiters futures :
  length (release waiters futures) = length futures.
Proof.
  revert futures. induction waiters as [|w ws IH]; intros futures; [reflexivity|].
  cbn. unfold release in IH. by rewrite IH, length_insert.
Qed.

Lemma release_lookup waiters futures i :
  (i < length futures)%nat ->
  release waiters futures !! i
  = if bool_decide (i ∈ waiters) then Some true else futures !! i.
Proof.
  revert futures. induction waiters as [|w ws IH]; intros futures Hi.
  - cbn. by rewrite bool_decide_eq_false_2 by apply not_elem_of_nil.
  - cbn [release foldl]. fold (release ws (<[w := true]> futures)).
    rewrite IH by (by rewrite length_insert).
    destruct (decide (i ∈ ws)) as [Hin|Hnin].
    + rewrite !bool_decide_eq_true_2; [reflexivity | | exact Hin].
      apply elem_of_cons. by right.
    + rewrite (bool_decide_eq_false_2 _ Hnin).
      destruct (decide (i = w)) as [->|Hne].
      * rewrite bool_decide_eq_true_2 by (apply elem_of_cons; by left).
        by rewrite list_lookup_insert_eq.
      * rewrite bool_decide_eq_false_2.
        -- by rewrite list_lookup_insert_ne.
        -- intros Hin. apply elem_of_cons in Hin as [?|?]; [contradiction | contradiction].
Qed.

Lemma barrier_waits_keeps_others (k : nat) :
  forall b i,
    (i < length (barrier_futures b))%nat -> i ∉ _waiting b ->
    barrier_futures (barrier_waits k b).2 !! i = barrier_futures b !! i.
Proof.
  induction k as [|k IH]; intros b i Hi Hnin; [reflexivity|].
  cbn [barrier_waits].
  destruct (barrier_wait b) as [r b1] eqn:Hw.
  specialize (IH b1 i).
  destruct (barrier_waits k b1) as [rs b2]. cbn in *.
  unfold barrier_wait in Hw.
  destruct (_count b - 1 =? 0).
  - destruct (negb (_release_in_progress b)); injection Hw as <- <-; cbn in IH.
    + rewrite IH.
      * rewrite release_lookup by exact Hi. by rewrite bool_decide_eq_false_2.
      * by rewrite length_release.
      * apply not_elem_of_nil.
    + by apply IH.
  - injection Hw as <- <-. cbn in IH. rewrite IH.
    + by rewrite lookup_app_l.
    + rewrite length_app. lia.
    + intros Hin. apply elem_of_app in Hin as [Hin|Hin]; [contradiction|].
      apply list_elem_of_singleton in Hin. lia.
Qed.

(** X26.  A barrier for [n] tasks holds the first [n - 1] tasks that
    arrive, each on a future of its own, and lets the [n]-th go on at once;
    that arrival completes the futures of all the tasks held, and leaves no
    task waiting.  The barrier is then spent: every task that arrives later
    is held and no arrival completes its future, until the barrier is
    reset.  A reset forgets the tasks held at that moment: no later arrival
    completes their futures.  A count that is not positive is refused. *)
Theorem barrier_spec (n : nat) :
  (1 <= n)%nat ->
  (exists b,
      new_barrier (Z.of_nat n) = Some b
      /\ (barrier_waits n b).1
         = (map WaitSuspends (seq 0 (n - 1)) ++ [WaitProceeds])%list
      /\ barrier_futures (barrier_waits n b).2 = replicate (n - 1) true
      /\ _waiting (barrier_waits n b).2 = []
      /\ (forall k,
            (barrier_waits k (barrier_waits n b).2).1
            = map WaitSuspends (seq (n - 1) k)
            /\ barrier_futures (barrier_waits k (barrier_waits n b).2).2
               = (replicate (n - 1) true ++ replicate k false)%list))
  /\ (forall count, count <= 0 ->
        new_barrier count = None /\ forall b, barrier_reset count b = None)
  /\ (forall b count b' k i,
        barrier_reset count b = Some b' ->
        (i < length (barrier_futures b))%nat ->
        barrier_futures (barrier_waits k b').2 !! i = barrier_futures b !! i).
Proof.
  intros Hn. split; [|split].
  - exists (mkAsyncBarrier (Z.of_nat n) [] false []).
    assert (Hsplit : barrier_waits n (mkAsyncBarrier (Z.of_nat n) [] false [])
                     = ((map WaitSuspends (seq 0 (n - 1)) ++ [WaitProceeds])%list,
                        mkAsyncBarrier 0 [] false (replicate (n - 1) true))).
    { destruct n as [|m]; [lia|]. replace (S m - 1)%nat with m by lia.
      assert (Happ : forall k b,
                barrier_waits (k + 1) b
                = let '(rs, b1) := barrier_waits k b in
                  let '(r, b2) := barrier_wait b1 in
                  ((rs ++ [r])%list, b2)).
      { clear. induction k as [|k IH]; intros b.
        - cbn. by destruct (barrier_wait b).
        - cbn [Nat.add barrier_waits]. destruct (barrier_wait b) as [r b1].
          rewrite IH. destruct (barrier_waits k b1) as [rs b2].
          by destruct (barrier_wait b2). }
      replace (S m) with (m + 1)%nat at 1 by lia. rewrite Happ.
      rewrite barrier_waits_suspend by (cbn; lia). cbn.
      unfold barrier_wait. cbn.
      replace (Z.of_nat (S m) - Z.of_nat m - 1) with 0 by lia. cbn.
      f_equal. f_equal.
      fold (release (seq 0 m) (replicate m false)).
      apply list_eq. intros i.
      destruct (decide (i < m)%nat) as [Hi|Hi].
      - rewrite release_lookup by (by rewrite length_replicate).
        rewrite bool_decide_eq_true_2 by (apply elem_of_seq; lia).
        by rewrite lookup_replicate_2.
      - rewrite !lookup_ge_None_2; [reflexivity | | ].
        + rewrite length_replicate. lia.
        + rewrite length_release, length_replicate. lia. }
    split.
    { unfold new_barrier. destruct (Z.leb_spec (Z.of_nat n) 0); [lia | reflexivity]. }
    rewrite Hsplit. cbn [fst snd barrier_futures _waiting].
    split; [reflexivity|]. split; [reflexivity|]. split; [reflexivity|].
    intros k. rewrite barrier_waits_suspend by (cbn; lia). cbn.
    by rewrite length_replicate.
  - intros count Hc. unfold new_barrier, barrier_reset.
    destruct (Z.leb_spec count 0); [|lia]. by split.
  - intros b count b' k i Hr Hi. unfold barrier_reset in Hr.
    destruct (count <=? 0); [discriminate|]. injection Hr as <-.
    rewrite barrier_waits_keeps_others; [reflexivity | exact Hi | apply not_elem_of_nil].
Qed.

Lemma barrier_spec_witness :
  exists b,
    new_barrier 3 = Some b
    /\ (barrier_waits 3 b).1 = [WaitSuspends 0; WaitSuspends 1; WaitProceeds]
    /\ barrier_futures (barrier_waits 3 b).2 = [true; true].
Proof.
  destruct (proj1 (barrier_spec 3 ltac:(lia))) as (b & Hb & Hr & Hf & _).
  exists b. split; [exact Hb|]. split; [exact Hr | exact Hf].
Defined.

(** ** The race detector: every unordered conflict is reported *)

Lemma _has_happens_before_unordered a1 a2 :
  acc_task_id a2 ∉ happens_before a1 ->
  acc_task_id a1 ∉ happens_before a2 ->
  happens_before a1 ## happens_before a2 ->
  _has_happens_before a1 a2 = false.
Proof.
  intros H1 H2 H3. unfold _has_happens_before.
  rewrite !bool_decide_eq_false_2 by done.
  apply not_true_is_false. intros Hex.
  apply existsb_exists in Hex as (x & Hx & Hb).
  apply bool_decide_eq_true in Hb.
  apply list_elem_of_In, elem_of_elements in Hx.
  exact (H3 x Hx Hb).
Qed.

Lemma races_at_complete location accs i j a1 a2 race :
  (i < j)%nat -> accs !! i = Some a1 -> accs !! j = Some a2 ->
  _check_pair_for_race location a1 a2 = Some race ->
  race ∈ races_at location accs.
Proof.
  revert i j. induction accs as [|a accs IH]; intros i j Hij Hi Hj Hc; [done|].
  simpl. apply elem_of_app. destruct i as [|i].
  - left. injection Hi as ->. destruct j as [|j]; [lia|]. simpl in Hj.
    apply list_elem_of_omap. exists a2. split; [|exact Hc].
    by apply list_elem_of_lookup_2 in Hj.
  - right. destruct j as [|j]; [lia|]. apply (IH i j); [lia|done..].
Qed.

(** X27.  With race detection enabled, [detect_races] misses no conflict:
    for two accesses recorded for one location by different tasks, at
    least one of them a write, such that neither happens-before set
    contains the other task and the two sets share no task, the report
    for the pair (earlier access first) is in the result. *)
Theorem detect_races_complete d location accs i j a1 a2 :
  enable_race_detection (_options d) = true ->
  (location, accs) ∈ accesses d ->
  (i < j)%nat -> accs !! i = Some a1 -> accs !! j = Some a2 ->
  acc_task_id a1 <> acc_task_id a2 ->
  acc_task_id a2 ∉ happens_before a1 ->
  acc_task_id a1 ∉ happens_before a2 ->
  happens_before a1 ## happens_before a2 ->
  acc_type a1 = Write \/ acc_type a2 = Write ->
  exists race,
    race ∈ detect_races d
    /\ race_location race = location
    /\ race_tasks race = (acc_task_id a1, acc_task_id a2)
    /\ race_access_types race = (acc_type a1, acc_type a2).
Proof.
  intros Hen Hin Hij Hi Hj Hne H1 H2 H3 Hw.
  assert (Hc : exists race, _check_pair_for_race location a1 a2 = Some race).
  { unfold _check_pair_for_race.
    destruct (String.eqb_spec (acc_task_id a1) (acc_task_id a2)); [done|].
    rewrite _has_happens_before_unordered by done.
    unfold _get_conflict_type.
    destruct (acc_type a1), (acc_type a2); try (by eexists).
    by destruct Hw. }
  destruct Hc as (race & Hc). exists race.
  destruct (_check_pair_for_race_Some _ _ _ _ Hc) as (Hl & Ht & Hty & _).
  split; [|done].
  unfold detect_races. rewrite Hen. simpl.
  apply list_elem_of_In, in_concat. exists (races_at location accs). split.
  - apply in_map_iff. exists (location, accs). split; [done|].
    by apply list_elem_of_In.
  - apply list_elem_of_In. by apply (races_at_complete _ _ i j a1 a2).
Qed.

Lemma detect_races_complete_witness :
  exists race,
    race ∈ detect_races (detector_run (new_race_detector None) unordered_writes)
    /\ race_location race = "L" /\ race_tasks race = ("t1", "t2").
Proof.
  pose (a1 := mkMemoryAccess "t1" "L" Write (IntVal 1) PrimFloat.zero ∅).
  pose (a2 := mkMemoryAccess "t2" "L" Write (IntVal 2) PrimFloat.one {["t3"]}).
  destruct (detect_races_complete
              (detector_run (new_race_detector None) unordered_writes)
              "L" [a1; a2] 0 1 a1 a2) as (race & Hin & Hl & Ht & _).
  - reflexivity.
  - apply list_elem_of_singleton. vm_compute. reflexivity.
  - lia.
  - reflexivity.
  - reflexivity.
  - discriminate.
  - simpl. set_solver.
  - simpl. set_solver.
  - simpl. set_solver.
  - by left.
  - exists race. by repeat split.
Defined.

Lemma total_accesses_append location access table :
  foldr Nat.add 0%nat
    (map (fun entry : string * list MemoryAccess => length entry.2)
       (append_access location access table))
  = S (foldr Nat.add 0%nat
         (map (fun entry : string * list MemoryAccess => length entry.2) table)).
Proof.
  induction table as [|[l accs] table IH]; simpl; [done|].
  destruct (String.eqb l location); simpl.
  - rewrite length_app. simpl. lia.
  - rewrite IH. lia.
Qed.

Lemma locations_le_total table :
  Forall (fun entry : string * list MemoryAccess => entry.2 <> []) table ->
  (length table
   <= foldr Nat.add 0%nat
        (map (fun entry : string * list MemoryAccess => length entry.2) table))%nat.
Proof.
  induction 1 as [|[l accs] table Hne _ IH]; simpl; [lia|].
  destruct accs; [done|]. simpl in *. lia.
Qed.

Lemma append_access_nonempty location access table :
  Forall (fun entry : string * list MemoryAccess => entry.2 <> []) table ->
  Forall (fun entry : string * list MemoryAccess => entry.2 <> [])
    (append_access location access table).
Proof.
  induction 1 as [|[l accs] table Hne Htable IH]; simpl.
  - by repeat constructor.
  - destruct (String.eqb l location); constructor; try done.
    simpl. by destruct accs.
Qed.

Lemma detector_run_stats calls d :
  Z.of_nat (total_accesses (get_stats d)) = access_counter d ->
  Forall (fun entry : string * list MemoryAccess => entry.2 <> []) (accesses d) ->
  Z.of_nat (total_accesses (get_stats (detector_run d calls)))
  = access_counter (detector_run d calls)
  /\ Forall (fun entry : string * list MemoryAccess => entry.2 <> [])
       (accesses (detector_run d calls)).
Proof.
  revert d. induction calls as [|c calls IH]; intros d Hd Hne; simpl; [done|].
  apply IH; destruct c as [t l ty v now | t ids |]; simpl; try done;
    unfold record_access, record_sync_point;
    destruct (negb (enable_race_detection (_options d))); try done; simpl.
  - rewrite total_accesses_append. simpl in Hd. lia.
  - by apply append_access_nonempty.
Qed.

(** X28.  In a race detector driven by any sequence of calls, the number
    of accesses that [get_stats] counts in the table is the access counter
    that [record_access] and [clear] maintain, and no location of the
    table is without an access, so that there are at most as many
    locations as accesses. *)
Theorem get_stats_counts_accesses options calls :
  let d := detector_run (new_race_detector options) calls in
  Z.of_nat (total_accesses (get_stats d)) = access_counter d
  /\ (locations (get_stats d) <= total_accesses (get_stats d))%nat
  /\ forall location accs, (location, accs) ∈ accesses d -> accs <> [].
Proof.
  intros d.
  destruct (detector_run_stats calls (new_race_detector options)) as [Hc Hne];
    [done | constructor |].
  split; [exact Hc|]. split.
  - by apply locations_le_total.
  - intros location accs Hin.
    by apply (proj1 (Forall_forall _ _) Hne (location, accs)).
Qed.

(** ** Dictionaries in insertion order *)

Lemma alist_get_set_eq {A} k (v : A) l : alist_get k (alist_set k v l) = Some v.
Proof.
  induction l as [|[k' v'] l IH]; simpl.
  - by rewrite String.eqb_refl.
  - destruct (String.eqb_spec k' k) as [->|Hne]; simpl.
    + by rewrite String.eqb_refl.
    + by destruct (String.eqb_spec k' k).
Qed.

Lemma alist_get_set_ne {A} k k' (v : A) l :
  k <> k' -> alist_get k' (alist_set k v l) = alist_get k' l.
Proof.
  intros Hne. induction l as [|[k0 v0] l IH]; simpl.
  - by destruct (String.eqb_spec k k').
  - destruct (String.eqb_spec k0 k) as [->|Hne0]; simpl.
    + by destruct (String.eqb_spec k k').
    + by rewrite IH.
Qed.

Lemma alist_get_Some_elem_of {A} k (v : A) l :
  alist_get k l = Some v -> (k, v) ∈ l.
Proof.
  induction l as [|[k' v'] l IH]; simpl; [done|].
  destruct (String.eqb_spec k' k) as [->|Hne].
  - intros [= ->]. by left.
  - intros Hg. right. by apply IH.
Qed.


Lemma elem_of_alist_get {A} k (v : A) l :
  NoDup l.*1 -> (k, v) ∈ l -> alist_get k l = Some v.
Proof.
  induction l as [|[k' v'] l IH]; simpl; intros Hnd Hin.
  - by apply elem_of_nil in Hin.
  - apply NoDup_cons in Hnd as [Hk' Hnd].
    apply elem_of_cons in Hin as [[= <- <-]|Hin].
    + by rewrite String.eqb_refl.
    + destruct (String.eqb_spec k' k) as [->|Hne]; [|by apply IH].
      destruct Hk'. apply list_elem_of_fmap. by exists (k, v).
Qed.

Lemma alist_set_keys {A} k (v : A) l :
  (alist_set k v l).*1 = if bool_decide (k ∈ l.*1) then l.*1 else (l.*1 ++ [k])%list.
Proof.
  induction l as [|[k' v'] l IH]; [done|]. cbn [alist_set].
  destruct (String.eqb_spec k' k) as [->|Hne]; rewrite !fmap_cons; cbn [fst].
  - rewrite bool_decide_eq_true_2; [done | by left].
  - rewrite IH. destruct (decide (k ∈ l.*1)) as [Hin|Hin].
    + rewrite !bool_decide_eq_true_2; [done | by right | done].
    + rewrite !bool_decide_eq_false_2; [done | | done].
      rewrite not_elem_of_cons. by split.
Qed.

Lemma alist_set_NoDup {A} k (v : A) l : NoDup l.*1 -> NoDup (alist_set k v l).*1.
Proof.
  intros Hnd. rewrite alist_set_keys. case_bool_decide as Hin; [done|].
  apply NoDup_app. split; [done|]. split; [|apply NoDup_singleton].
  intros x Hx Hk. apply list_elem_of_singleton in Hk. by subst.
Qed.

Lemma alist_del_elem_of {A} k (v : A) k' l :
  (k, v) ∈ alist_del k' l -> (k, v) ∈ l.
Proof.
  induction l as [|[k0 v0] l IH]; simpl; [done|].
  destruct (String.eqb k0 k').
  - by right.
  - intros [[= -> ->]|Hin]%elem_of_cons; [by left | right; by apply IH].
Qed.

Lemma alist_del_NoDup {A} k (l : list (string * A)) :
  NoDup l.*1 -> NoDup (alist_del k l).*1.
Proof.
  induction l as [|[k0 v0] l IH]; simpl; [done|].
  intros [Hk0 Hnd]%NoDup_cons. destruct (String.eqb k0 k); [done|]. simpl.
  apply NoDup_cons. split; [|by apply IH].
  intros Hin. apply Hk0. apply list_elem_of_fmap in Hin as ([k1 v1] & -> & Hin).
  apply alist_del_elem_of in Hin. apply list_elem_of_fmap. by exists (k1, v1).
Qed.


(** ** The deadlock detector *)

Section DeadlockProperties.
Import Deadlock.
Context `{SetIteration}.

Lemma elem_of_iter o (s : gset string) x : x ∈ iter o s <-> x ∈ s.
Proof. by rewrite (iter_elements o s), elem_of_elements. Qed.

Lemma truthy_Some o s : truthy o = Some s <-> o = Some s /\ s <> "".
Proof.
  unfold truthy. destruct o as [s'|]; [|by split; [|intros [? _]]].
  destruct (String.eqb_spec s' "") as [->|Hne].
  - split; [done | by intros [[= <-] ?]].
  - split; [by intros [= <-] | by intros [[= <-] _]].
Qed.

(** *** The graph of the tasks *)

Lemma waiter_of_add_waiter lock_id task_id lock_waiters l t :
  waiter_of (add_waiter lock_id task_id lock_waiters) l t
  <-> waiter_of lock_waiters l t \/ (l = lock_id /\ t = task_id).
Proof.
  unfold waiter_of, add_waiter. destruct (decide (lock_id = l)) as [->|Hne].
  - rewrite alist_get_set_eq. split.
    + intros (ws & [= <-] & Hin). apply elem_of_app in Hin as [Hin|Hin].
      * left. destruct (alist_get l lock_waiters) as [ws|]; [by exists ws|].
        by apply elem_of_nil in Hin.
      * right. by apply list_elem_of_singleton in Hin.
    + intros [(ws & Hg & Hin)|[_ ->]]; eexists; (split; [done|]).
      * rewrite Hg. apply elem_of_app. by left.
      * apply elem_of_app. right. by apply list_elem_of_singleton.
  - rewrite alist_get_set_ne by done. split; [by left|].
    intros [?|[-> _]]; done.
Qed.

Lemma waiter_of_lock_waiters_of wait_graph l t :
  waiter_of (lock_waiters_of wait_graph) l t
  <-> exists waiting, (t, waiting) ∈ wait_graph /\ l ∈ waiting.
Proof.
  unfold lock_waiters_of.
  assert (Hgen : forall acc,
    waiter_of
      (foldl (fun lock_waiters (entry : string * gset string) =>
                foldl (fun lock_waiters lock_id =>
                         add_waiter lock_id entry.1 lock_waiters)
                  lock_waiters (iter (WaitingLocks entry.1) entry.2)) acc wait_graph) l t
    <-> waiter_of acc l t \/ exists waiting, (t, waiting) ∈ wait_graph /\ l ∈ waiting).
  { induction wait_graph as [|[task waiting] wait_graph IH]; intros acc; simpl.
    - split; [by left|]. intros [?|(? & Hin & _)]; [done|].
      by apply elem_of_nil in Hin.
    - rewrite IH.
      assert (Hin : forall lock_ids acc,
        waiter_of (foldl (fun lock_waiters lock_id =>
                            add_waiter lock_id task lock_waiters) acc lock_ids) l t
        <-> waiter_of acc l t \/ (t = task /\ l ∈ lock_ids)).
      { clear IH acc. induction lock_ids as [|lock lock_ids IH]; intros acc; simpl.
        - split; [by left|]. intros [?|[_ Hin]]; [done|].
          by apply elem_of_nil in Hin.
        - rewrite IH, waiter_of_add_waiter, elem_of_cons. naive_solver. }
      rewrite Hin, elem_of_iter. split.
      + intros [[?|[-> ?]]|(w & ? & ?)]; [by left | right..].
        * exists waiting. split; [by left | done].
        * exists w. split; [by right | done].
      + intros [?|(w & [[= -> ->]|?]%elem_of_cons & ?)].
        * by left; left.
        * by left; right.
        * right. by exists w. }
  rewrite Hgen. split; [|by right].
  intros [(ws & Hg & _)|?]; done.
Qed.

Lemma edge_add_dependency waiter holder graph x y :
  edge (add_dependency waiter holder graph) x y
  <-> edge graph x y \/ (x = waiter /\ y = holder).
Proof.
  unfold edge, add_dependency. destruct (decide (waiter = x)) as [->|Hne].
  - rewrite alist_get_set_eq. split.
    + intros (s & [= <-] & Hin). apply elem_of_union in Hin as [Hin|Hin].
      * left. destruct (alist_get x graph) as [s|]; [by exists s|].
        by apply elem_of_empty in Hin.
      * right. by apply elem_of_singleton in Hin.
    + intros [(s & Hg & Hin)|[_ ->]]; eexists; (split; [done|]).
      * rewrite Hg. apply elem_of_union. by left.
      * apply elem_of_union. right. by apply elem_of_singleton.
  - rewrite alist_get_set_ne by done. split; [by left|].
    intros [?|[-> _]]; done.
Qed.

Lemma lock_waiters_of_NoDup wait_graph : NoDup (lock_waiters_of wait_graph).*1.
Proof.
  unfold lock_waiters_of.
  assert (Hgen : forall acc, NoDup acc.*1 ->
    NoDup (foldl (fun lock_waiters (entry : string * gset string) =>
                    foldl (fun lock_waiters lock_id =>
                             add_waiter lock_id entry.1 lock_waiters)
                      lock_waiters (iter (WaitingLocks entry.1) entry.2)) acc wait_graph).*1).
  { induction wait_graph as [|[task waiting] wait_graph IH]; intros acc Hacc; simpl;
      [done|].
    apply IH. simpl. revert acc Hacc.
    induction (iter (WaitingLocks task) waiting) as [|lock lock_ids IHl]; intros acc Hacc; simpl; [done|].
    apply IHl. by apply alist_set_NoDup. }
  apply Hgen. constructor.
Qed.

Lemma edge_task_graph d x y :
  edge (_build_task_dependency_graph d) x y
  <-> y <> "" /\ exists lock_id waiting,
        (x, waiting) ∈ wait_graph d /\ lock_id ∈ waiting
        /\ lock_holders d !! lock_id = Some y.
Proof.
  unfold _build_task_dependency_graph.
  pose proof (lock_waiters_of_NoDup (wait_graph d)) as Hnd.
  assert (Hw : forall l t, (exists ws, (l, ws) ∈ lock_waiters_of (wait_graph d) /\ t ∈ ws)
                 <-> exists waiting, (t, waiting) ∈ wait_graph d /\ l ∈ waiting).
  { intros l t. rewrite <- waiter_of_lock_waiters_of. unfold waiter_of.
    split; intros (ws & Hl & Ht); exists ws; (split; [|done]).
    - by apply elem_of_alist_get.
    - by apply alist_get_Some_elem_of. }
  revert Hw. generalize (lock_waiters_of (wait_graph d)). clear Hnd.
  intros lock_waiters Hw.
  assert (Hgen : forall acc,
    edge (foldl (fun task_graph (entry : string * list string) =>
                   match truthy (lock_holders d !! entry.1) with
                   | Some holder =>
                       foldl (fun task_graph waiter =>
                                add_dependency waiter holder task_graph)
                         task_graph entry.2
                   | None => task_graph
                   end) acc lock_waiters) x y
    <-> edge acc x y
        \/ exists l ws, (l, ws) ∈ lock_waiters /\ x ∈ ws
             /\ truthy (lock_holders d !! l) = Some y).
  { clear Hw. induction lock_waiters as [|[l ws] lock_waiters IH]; intros acc; simpl.
    - split; [by left|]. intros [?|(? & ? & Hin & _)]; [done|].
      by apply elem_of_nil in Hin.
    - rewrite IH.
      assert (Hin : forall holder waiters acc,
        edge (foldl (fun task_graph waiter =>
                       add_dependency waiter holder task_graph) acc waiters) x y
        <-> edge acc x y \/ (x ∈ waiters /\ y = holder)).
      { clear IH acc. intros holder. induction waiters as [|w waiters IH]; intros acc; simpl.
        - split; [by left|]. intros [?|[Hin _]]; [done|].
          by apply elem_of_nil in Hin.
        - rewrite IH, edge_add_dependency, elem_of_cons. naive_solver. }
      destruct (truthy (lock_holders d !! l)) as [holder|] eqn:Hh.
      + rewrite Hin. split.
        * intros [[?|[? ->]]|(l' & ws' & ? & ? & ?)]; [by left | right..].
          -- exists l, ws. split; [by left | done].
          -- exists l', ws'. split; [by right | done].
        * intros [?|(l' & ws' & [[= -> ->]|?]%elem_of_cons & ? & Ht)].
          -- by left; left.
          -- left; right. split; [done|]. congruence.
          -- right. by exists l', ws'.
      + split.
        * intros [?|(l' & ws' & ? & ? & ?)]; [by left | right].
          exists l', ws'. split; [by right | done].
        * intros [?|(l' & ws' & [[= -> ->]|?]%elem_of_cons & ? & Ht)].
          -- by left.
          -- congruence.
          -- right. by exists l', ws'. }
  rewrite Hgen. split.
  - intros [(s & Hg & _)|(l & ws & Hl & Hx & Ht)]; [done|].
    apply truthy_Some in Ht as [Ht Hne]. split; [done|].
    destruct (proj1 (Hw l x)) as (waiting & ? & ?); [by exists ws|].
    by exists l, waiting.
  - intros (Hne & l & waiting & Hin & Hl & Hh). right.
    destruct (proj2 (Hw l x)) as (ws & ? & ?); [by exists waiting|].
    exists l, ws. split; [done|]. split; [done|]. by apply truthy_Some.
Qed.

End DeadlockProperties.

(** *** Loops and lists of the search *)

Lemma bind_ret {S A B} (m : St S A) (k : A -> St S B) st a st' :
  m st = (Ret a, st') -> bind m k st = k a st'.
Proof. intros Hm. unfold bind. by rewrite Hm. Qed.

Lemma for_each_inv {S A} (I : list A -> S -> Prop) (body : A -> St S unit) :
  (forall x rest st, I (x :: rest) st ->
     exists st', body x st = (Ret tt, st') /\ I rest st') ->
  forall xs st, I xs st ->
    exists st', Deadlock.for_each xs body st = (Ret tt, st') /\ I [] st'.
Proof.
  intros Hbody. induction xs as [|x xs IH]; intros st HI; simpl.
  - by exists st.
  - destruct (Hbody x xs st HI) as (st1 & Hx & HI1).
    destruct (IH st1 HI1) as (st2 & Hxs & HI2).
    exists st2. split; [|done]. by rewrite (bind_ret _ _ _ _ _ Hx).
Qed.

Lemma index_of_elem_of x l :
  x ∈ l -> exists i, Deadlock.index_of x l = Some i /\ l !! i = Some x.
Proof.
  induction l as [|y l IH]; simpl; intros Hin; [by apply elem_of_nil in Hin|].
  destruct (String.eqb_spec y x) as [->|Hne]; [by exists 0%nat|].
  apply elem_of_cons in Hin as [->|Hin]; [done|].
  destruct (IH Hin) as (i & -> & Hi). by exists (S i).
Qed.

Lemma pop_snoc l x : Deadlock.pop (l ++ [x]) = Some l.
Proof.
  unfold Deadlock.pop. rewrite removelast_last. by destruct l.
Qed.

Lemma omap_total {A B} (f : A -> option B) (l : list A) :
  (forall x, x ∈ l -> is_Some (f x)) ->
  length (omap f l) = length l /\ forall i, omap f l !! i = l !! i ≫= f.
Proof.
  induction l as [|x l IH]; intros Hf; [by split|].
  destruct (Hf x) as [y Hy]; [by left|].
  destruct IH as [IHlen IHi]; [intros z Hz; apply Hf; by right|].
  cbn. rewrite Hy. split; [by rewrite <- IHlen|].
  intros [|i]; simpl; [done | apply IHi].
Qed.

Lemma rtc_closed {A} (R : relation A) (P : A -> Prop) x y :
  (forall a b, P a -> R a b -> P b) -> rtc R x y -> P x -> P y.
Proof. intros Hcl. induction 1; eauto. Qed.

Lemma tc_mono {A} (R R' : relation A) x y :
  (forall a b, R a b -> R' a b) -> tc R x y -> tc R' x y.
Proof.
  intros Hsub. induction 1 as [x y Hxy | x y z Hxy _ IH].
  - apply tc_once. by apply Hsub.
  - eapply tc_l; [by apply Hsub | exact IH].
Qed.

Lemma tc_first_step {A} (R : relation A) x z :
  tc R x z -> exists y, R x y /\ rtc R y z.
Proof.
  destruct 1 as [x z Hxz | x y z Hxy Hyz].
  - by exists z.
  - exists y. split; [done | by apply tc_rtc].
Qed.

Lemma next_in_cycle_lt (c : list string) i :
  (S i < length c)%nat -> Deadlock.next_in_cycle c i = c !! S i.
Proof.
  intros Hlt. unfold Deadlock.next_in_cycle.
  by rewrite Nat.add_1_r, Nat.mod_small.
Qed.

Lemma next_in_cycle_last (c : list string) i :
  S i = length c -> Deadlock.next_in_cycle c i = c !! 0%nat.
Proof.
  intros Hlt. unfold Deadlock.next_in_cycle.
  by rewrite Nat.add_1_r, Hlt, Nat.Div0.mod_same.
Qed.

(** The tasks from a task of the path to its end, when the last one has an
    edge back to that task. *)
Lemma graph_cycle_drop graph p i dep task :
  NoDup p -> chain graph p -> p !! i = Some dep -> last p = Some task ->
  edge graph task dep ->
  graph_cycle graph (drop i p).
Proof.
  intros Hnd Hchain Hi Hlast Hback.
  assert (Hlt : (i < length p)%nat) by (by apply lookup_lt_Some in Hi).
  assert (Hlen : length (drop i p) = (length p - i)%nat) by apply length_drop.
  split; [|split].
  - intros Hnil. rewrite Hnil in Hlen. simpl in Hlen. lia.
  - rewrite <- (take_drop i p) in Hnd. by apply NoDup_app in Hnd as (_ & _ & ?).
  - intros k x Hk. rewrite lookup_drop in Hk.
    assert (Hk' : (i + k < length p)%nat) by (by apply lookup_lt_Some in Hk).
    destruct (decide (S k < length (drop i p))%nat) as [Hin|Hout].
    + rewrite next_in_cycle_lt by done. rewrite lookup_drop.
      destruct (lookup_lt_is_Some_2 p (i + S k)) as [y Hy]; [lia|].
      exists y. split; [done|]. apply (Hchain (i + k)%nat); [done|].
      by rewrite <- Nat.add_succ_r.
    + rewrite next_in_cycle_last by lia. rewrite lookup_drop, Nat.add_0_r.
      exists dep. split; [done|].
      rewrite last_lookup in Hlast.
      replace (Init.Nat.pred (length p)) with (i + k)%nat in Hlast by lia.
      by simplify_eq.
Qed.

(** ** The search of the deadlock detector *)

Section DeadlockSearch.
Import Deadlock.
Context `{SetIteration}.
Variable d : DeadlockDetector.
Variable graph : list (string * gset string).

Lemma edge_graph_tasks x y :
  edge graph x y -> x ∈ graph_tasks graph /\ y ∈ graph_tasks graph.
Proof.
  intros (s & Hg & Hy). apply alist_get_Some_elem_of in Hg.
  unfold graph_tasks. split; apply elem_of_union.
  - left. apply elem_of_list_to_set, list_elem_of_fmap. by exists (x, s).
  - right. apply elem_of_union_list. exists s. split; [|done].
    apply list_elem_of_fmap. by exists (x, s).
Qed.

Lemma edge_dependencies task y :
  y ∈ default ∅ (alist_get task graph) <-> edge graph task y.
Proof.
  unfold edge. destruct (alist_get task graph) as [s|]; simpl.
  - split; [by exists s | by intros (s' & [= <-] & ?)].
  - split; [by intros ?%elem_of_empty | by intros (? & ? & _)].
Qed.

Lemma path_length_bound st :
  search_invariant d graph st -> (length (path st) <= size (graph_tasks graph))%nat.
Proof.
  intros Hinv.
  rewrite <- (size_list_to_set (C := gset string) (path st))
    by apply (inv_path_nodup _ _ _ Hinv).
  apply subseteq_size. intros x Hx. apply elem_of_list_to_set in Hx.
  by apply (inv_path_tasks _ _ _ Hinv).
Qed.

Lemma pop_lock_path_all xs : forall ys st lock_path0,
  length xs = length ys ->
  lock_path st = (lock_path0 ++ ys)%list ->
  for_each xs (fun _ : string => pop_lock_path) st
  = (Ret tt, mkSearchState (visited st) (rec_stack st) (path st) lock_path0 (cycles st)).
Proof.
  induction xs as [|x xs IH]; intros ys st lock_path0 Hlen Hst.
  - destruct ys; [|done]. rewrite app_nil_r in Hst. destruct st. simpl in *.
    by subst.
  - destruct ys as [|y ys _] using rev_ind; [done|].
    rewrite length_app in Hlen. simpl in Hlen.
    rewrite app_assoc in Hst. simpl.
    assert (Hpop : pop_lock_path st
                   = (Ret tt, mkSearchState (visited st) (rec_stack st) (path st)
                                (lock_path0 ++ ys) (cycles st))).
    { unfold pop_lock_path, bind, search_get. by rewrite Hst, pop_snoc. }
    rewrite (bind_ret _ _ _ _ _ Hpop).
    by rewrite (IH ys _ lock_path0) by (simpl; lia || done).
Qed.

Lemma not_visited_not_on_stack st x :
  search_invariant d graph st -> x ∉ visited st -> x ∉ rec_stack st.
Proof.
  intros Hinv Hx Hr. apply Hx, (inv_path_visited _ _ _ Hinv).
  by apply (inv_rec_stack _ _ _ Hinv).
Qed.

Lemma search_invariant_enter task waiting_locks st :
  search_invariant d graph st ->
  task ∉ visited st ->
  task ∈ graph_tasks graph ->
  (forall x, last (path st) = Some x -> edge graph x task) ->
  search_invariant d graph (enter task waiting_locks st).
Proof.
  intros Hinv Hnv Htask Hlast.
  assert (Hfin : finished (enter task waiting_locks st) = finished st).
  { unfold finished, enter. simpl. set_solver. }
  split; simpl; try rewrite Hfin.
  - apply NoDup_app. split; [apply (inv_path_nodup _ _ _ Hinv)|].
    split; [|apply NoDup_singleton].
    intros x Hx ->%list_elem_of_singleton.
    by apply Hnv, (inv_path_visited _ _ _ Hinv).
  - intros x [Hx| ->%list_elem_of_singleton]%elem_of_app; apply elem_of_union.
    + right. by apply (inv_path_visited _ _ _ Hinv).
    + left. by apply elem_of_singleton.
  - intros x [Hx| ->%list_elem_of_singleton]%elem_of_app; [|done].
    by apply (inv_path_tasks _ _ _ Hinv).
  - intros x. rewrite elem_of_union, elem_of_singleton, elem_of_app,
      list_elem_of_singleton, (inv_rec_stack _ _ _ Hinv). tauto.
  - intros i x y Hx Hy.
    assert (Hi : (S i < length (path st ++ [task]))%nat)
      by (by apply lookup_lt_Some in Hy).
    rewrite length_app in Hi. simpl in Hi.
    rewrite lookup_app_l in Hx by lia.
    destruct (decide (S i < length (path st))%nat) as [Hin|Hout].
    + rewrite lookup_app_l in Hy by done.
      by apply (inv_chain _ _ _ Hinv i).
    + rewrite lookup_app_r in Hy by lia.
      replace (S i - length (path st))%nat with 0%nat in Hy by lia.
      injection Hy as <-. apply Hlast. rewrite last_lookup.
      by replace (Init.Nat.pred (length (path st))) with i by lia.
  - apply (inv_cycles _ _ _ Hinv).
  - apply (inv_finished_closed _ _ _ Hinv).
  - apply (inv_finished_acyclic _ _ _ Hinv).
Qed.

Lemma search_invariant_report st i dep task :
  search_invariant d graph st ->
  path st !! i = Some dep -> last (path st) = Some task -> edge graph task dep ->
  search_invariant d graph (report d i st).
Proof.
  intros Hinv Hi Hlast Hback. split; simpl.
  - apply (inv_path_nodup _ _ _ Hinv).
  - apply (inv_path_visited _ _ _ Hinv).
  - apply (inv_path_tasks _ _ _ Hinv).
  - apply (inv_rec_stack _ _ _ Hinv).
  - apply (inv_chain _ _ _ Hinv).
  - intros c [Hc| ->%list_elem_of_singleton]%elem_of_app.
    + by apply (inv_cycles _ _ _ Hinv).
    + simpl. split; [|done].
      apply (graph_cycle_drop graph (path st) i dep task); try done.
      * apply (inv_path_nodup _ _ _ Hinv).
      * apply (inv_chain _ _ _ Hinv).
  - by intros [_ ?]%app_nil.
  - by intros [_ ?]%app_nil.
Qed.

(** The search from a task that is not visited yet returns; it raises
    nothing and the recursion is never deeper than the number of tasks. *)
Lemma _detect_cycles_dfs_spec fuel : forall task st,
  search_invariant d graph st ->
  task ∉ visited st ->
  task ∈ graph_tasks graph ->
  (forall x, last (path st) = Some x -> edge graph x task) ->
  (size (graph_tasks graph) < length (path st) + fuel)%nat ->
  exists st',
    _detect_cycles_dfs fuel d graph task st = (Ret tt, st')
    /\ search_invariant d graph st'
    /\ path st' = path st /\ lock_path st' = lock_path st
    /\ rec_stack st' = rec_stack st
    /\ visited st ⊆ visited st' /\ task ∈ visited st'
    /\ cycles st `prefix_of` cycles st'.
Proof.
  induction fuel as [|fuel IH]; intros task st Hinv Hnv Htask Hlast Hfuel.
  { pose proof (path_length_bound st Hinv). lia. }
  simpl.
  set (wl := default ∅ (alist_get task (wait_graph d))).
  set (deps := default ∅ (alist_get task graph)).
  pose (st0 := enter task wl st).
  rewrite (bind_ret _ _ st tt st0) by reflexivity.
  pose (I := fun (rem : list string) (st1 : SearchState) =>
     search_invariant d graph st1
     /\ path st1 = (path st ++ [task])%list
     /\ lock_path st1 = (lock_path st ++ iter (WaitingLocks task) wl)%list
     /\ rec_stack st1 = {[task]} ∪ rec_stack st
     /\ visited st0 ⊆ visited st1
     /\ cycles st `prefix_of` cycles st1
     /\ (forall y, y ∈ rem -> edge graph task y)
     /\ (cycles st1 = [] ->
         forall y, edge graph task y -> y ∉ rem -> y ∈ finished st1)).
  match goal with |- context [for_each (iter (Dependencies task) deps) ?body] =>
    assert (Hbody : forall x rest st1, I (x :: rest) st1 ->
              exists st', body x st1 = (Ret tt, st') /\ I rest st')
  end.
  { intros x rest st1 (Hinv1 & Hp1 & Hlp1 & Hrs1 & Hv1 & Hpre1 & Hrem & Hfin).
    assert (Hx : edge graph task x) by (apply Hrem; by left).
    assert (Hlast1 : last (path st1) = Some task) by (by rewrite Hp1, last_snoc).
    rewrite (bind_ret _ _ st1 st1 st1) by reflexivity.
    destruct (decide (x ∈ visited st1)) as [Hxv|Hxv].
    - rewrite (bool_decide_eq_true_2 _ Hxv). cbn [negb].
      destruct (decide (x ∈ rec_stack st1)) as [Hxr|Hxr].
      + rewrite (bool_decide_eq_true_2 _ Hxr).
        destruct (index_of_elem_of x (path st1)) as (i & Hi & Hpi);
          [by apply (inv_rec_stack _ _ _ Hinv1)|].
        rewrite Hi. exists (report d i st1). split; [done|].
        split; [by apply (search_invariant_report st1 i x task)|].
        repeat (split; [done|]). split; [|split].
        * simpl. by apply prefix_app_r.
        * intros y Hy. apply Hrem. by right.
        * simpl. by intros [_ ?]%app_nil.
      + rewrite (bool_decide_eq_false_2 _ Hxr). exists st1. split; [done|].
        repeat (split; [done|]). split.
        * intros y Hy. apply Hrem. by right.
        * intros Hc y Hy Hnr. destruct (decide (y = x)) as [->|Hne].
          -- unfold finished. set_solver.
          -- apply Hfin; [done..|]. rewrite not_elem_of_cons. by split.
    - rewrite (bool_decide_eq_false_2 _ Hxv). cbn [negb].
      destruct (IH x st1) as (st2 & Hrun & Hinv2 & Hp2 & Hlp2 & Hrs2 & Hv2 & Hxv2 & Hpre2).
      + done.
      + done.
      + by apply edge_graph_tasks in Hx as [_ ?].
      + rewrite Hlast1. by intros ? [= <-].
      + rewrite Hp1, length_app. simpl. lia.
      + exists st2. split; [done|]. split; [done|].
        split; [congruence|]. split; [congruence|]. split; [congruence|].
        split; [set_solver|]. split; [by etransitivity|]. split.
        * intros y Hy. apply Hrem. by right.
        * intros Hc y Hy Hnr.
          assert (Hc1 : cycles st1 = []).
          { rewrite Hc in Hpre2. by apply prefix_nil_inv in Hpre2. }
          pose proof (not_visited_not_on_stack st1 x Hinv1 Hxv) as Hxr.
          unfold finished. rewrite Hrs2.
          destruct (decide (y = x)) as [->|Hne]; [set_solver|].
          assert (Hy1 : y ∈ finished st1).
          { apply Hfin; [done..|]. rewrite not_elem_of_cons. by split. }
          unfold finished in Hy1. set_solver. }
  destruct (for_each_inv I _ Hbody (iter (Dependencies task) deps) st0)
    as (st1 & Hloop & Hinv1 & Hp1 & Hlp1 & Hrs1 & Hv1 & Hpre1 & _ & Hfin).
  { split; [by apply search_invariant_enter|].
    repeat (split; [done|]). split.
    - intros y Hy. apply edge_dependencies.
      by apply (elem_of_iter (Dependencies task)).
    - intros _ y Hy Hnr. destruct Hnr.
      by apply (elem_of_iter (Dependencies task)), edge_dependencies. }
  rewrite (bind_ret _ _ _ _ _ Hloop).
  match goal with |- context [bind (search_modify ?f)] =>
    rewrite (bind_ret _ _ st1 tt (f st1)) by reflexivity
  end.
  match goal with |- context [bind pop_path _ ?sta] =>
    assert (Hpop : pop_path sta
                   = (Ret tt, mkSearchState (visited st1) (rec_stack st1 ∖ {[task]})
                                (path st) (lock_path st1) (cycles st1)))
  end.
  { unfold pop_path, bind, search_get. simpl. by rewrite Hp1, pop_snoc. }
  rewrite (bind_ret _ _ _ _ _ Hpop).
  rewrite (pop_lock_path_all _ (iter (WaitingLocks task) wl) _ (lock_path st)) by done.
  simpl. eexists. split; [reflexivity|]. simpl.
  pose proof (not_visited_not_on_stack st task Hinv Hnv) as Htr.
  assert (Hrs' : rec_stack st1 ∖ {[task]} = rec_stack st) by set_solver.
  assert (Htv : task ∈ visited st1) by (unfold st0, enter in Hv1; set_solver).
  assert (Hvv : visited st ⊆ visited st1) by (unfold st0, enter in Hv1; set_solver).
  split; [|done].
  assert (Hfin' : forall x,
            x ∈ finished (mkSearchState (visited st1) (rec_stack st1 ∖ {[task]})
                            (path st) (lock_path st) (cycles st1))
            <-> x ∈ finished st1 \/ x = task).
  { intros x. unfold finished. simpl. rewrite Hrs', Hrs1.
    destruct (decide (x = task)) as [->|Hne]; set_solver. }
  assert (Hclosed : cycles st1 = [] -> forall x y,
            x ∈ finished st1 \/ x = task -> edge graph x y -> y ∈ finished st1).
  { intros Hc x y [Hx| ->] Hxy.
    - by apply (inv_finished_closed _ _ _ Hinv1 Hc x).
    - apply Hfin; [done..|]. apply not_elem_of_nil. }
  split; simpl.
  - apply (inv_path_nodup _ _ _ Hinv).
  - intros x Hx. by apply Hvv, (inv_path_visited _ _ _ Hinv).
  - apply (inv_path_tasks _ _ _ Hinv).
  - rewrite Hrs'. apply (inv_rec_stack _ _ _ Hinv).
  - apply (inv_chain _ _ _ Hinv).
  - apply (inv_cycles _ _ _ Hinv1).
  - intros Hc x y Hx Hxy. apply Hfin'. left.
    apply (Hclosed Hc x y); [by apply Hfin' | done].
  - intros Hc x Hx Hcyc. apply Hfin' in Hx as [Hx| ->].
    + by apply (inv_finished_acyclic _ _ _ Hinv1 Hc x).
    + apply tc_first_step in Hcyc as (y & Hy & Hback).
      assert (Hyf : y ∈ finished st1) by (apply (Hclosed Hc task y); [by right | done]).
      assert (Htf : task ∈ finished st1).
      { apply (rtc_closed (edge graph) (fun z => z ∈ finished st1) y task);
          [|done..].
        intros a b Ha Hab. apply (Hclosed Hc a b); [by left | done]. }
      unfold finished in Htf. set_solver.
Qed.

End DeadlockSearch.

(** ** What [detect_deadlock] reports *)

Section DeadlockResults.
Import Deadlock.
Context `{SetIteration}.

Lemma search_invariant_initial d graph :
  search_invariant d graph (mkSearchState ∅ ∅ [] [] []).
Proof.
  split; simpl; try done;
    try (intros x Hx; by apply elem_of_nil in Hx).
  - constructor.
  - intros x. split; [by intros ?%elem_of_empty | by intros ?%elem_of_nil].
Qed.

(** The search visits every task that waits, comes back with an empty
    stack, and its reports are the result. *)
Lemma detect_deadlock_search d :
  enable_deadlock_detection (dd_options d) = true ->
  exists st,
    detect_deadlock d = Ret (cycles st)
    /\ search_invariant d (_build_task_dependency_graph d) st
    /\ rec_stack st = ∅
    /\ forall x, x ∈ (_build_task_dependency_graph d).*1 -> x ∈ visited st.
Proof.
  intros Hen. unfold detect_deadlock. rewrite Hen. cbn [negb].
  set (graph := _build_task_dependency_graph d).
  pose (J := fun (rem : list string) (st : SearchState) =>
     search_invariant d graph st
     /\ path st = [] /\ rec_stack st = ∅
     /\ (forall x, x ∈ rem -> x ∈ graph.*1)
     /\ (forall x, x ∈ graph.*1 -> x ∉ rem -> x ∈ visited st)).
  match goal with |- context [for_each graph.*1 ?body] =>
    assert (Hbody : forall x rest st, J (x :: rest) st ->
              exists st', body x st = (Ret tt, st') /\ J rest st')
  end.
  { intros x rest st (Hinv & Hp & Hrs & Hrem & Hvis).
    rewrite (bind_ret _ _ st st st) by reflexivity.
    destruct (decide (x ∈ visited st)) as [Hxv|Hxv].
    - rewrite (bool_decide_eq_true_2 _ Hxv). cbn [negb].
      exists st. split; [done|]. repeat (split; [done|]). split.
      + intros y Hy. apply Hrem. by right.
      + intros y Hy Hnr. destruct (decide (y = x)) as [->|Hne]; [done|].
        apply Hvis; [done|]. rewrite not_elem_of_cons. by split.
    - rewrite (bool_decide_eq_false_2 _ Hxv). cbn [negb].
      destruct (_detect_cycles_dfs_spec d graph (S (size (graph_tasks graph))) x st)
        as (st' & Hrun & Hinv' & Hp' & _ & Hrs' & Hv' & Hxv' & _).
      + done.
      + done.
      + unfold graph_tasks. apply elem_of_union. left.
        apply elem_of_list_to_set, Hrem. by left.
      + by rewrite Hp.
      + rewrite Hp. simpl. lia.
      + exists st'. split; [done|]. split; [done|].
        split; [congruence|]. split; [congruence|]. split.
        * intros y Hy. apply Hrem. by right.
        * intros y Hy Hnr. destruct (decide (y = x)) as [->|Hne]; [done|].
          apply Hv', Hvis; [done|]. rewrite not_elem_of_cons. by split. }
  destruct (for_each_inv J _ Hbody graph.*1 (mkSearchState ∅ ∅ [] [] []))
    as (st & Hrun & Hinv & _ & Hrs & _ & Hvis).
  { split; [apply search_invariant_initial|]. repeat (split; [done|]).
    by intros x Hx Hnx. }
  rewrite Hrun. exists st. repeat (split; [done|]).
  intros x Hx. apply Hvis; [done | apply not_elem_of_nil].
Qed.

Lemma lock_between_Some d t t' lock_id :
  lock_between d t t' = Some lock_id -> waits_for_lock d t lock_id t'.
Proof.
  unfold lock_between. intros [Hin Hp]%find_some.
  apply list_elem_of_In, elem_of_iter in Hin.
  destruct (truthy (lock_holders d !! lock_id)) as [holder|] eqn:Hh; [|done].
  apply String.eqb_eq in Hp as ->. apply truthy_Some in Hh as [Hh _].
  destruct (alist_get t (wait_graph d)) as [waiting|] eqn:Hg.
  - by exists waiting.
  - by apply elem_of_empty in Hin.
Qed.

Lemma lock_between_is_Some d t t' lock_id :
  t' <> "" -> waits_for_lock d t lock_id t' -> is_Some (lock_between d t t').
Proof.
  intros Hne (waiting & Hg & Hl & Hh). unfold lock_between. rewrite Hg. simpl.
  destruct (find _ (iter (WaitingLocks t) waiting)) as [l|] eqn:Hfind; [by exists l|].
  assert (Hin : In lock_id (iter (WaitingLocks t) waiting))
    by (by apply list_elem_of_In, elem_of_iter).
  pose proof (find_none _ _ Hfind lock_id Hin) as Hp. simpl in Hp.
  rewrite Hh in Hp. simpl in Hp.
  destruct (String.eqb_spec t' "") as [?|_]; [done|].
  by rewrite String.eqb_refl in Hp.
Qed.

(** A cycle of the graph of the tasks, with the locks that
    [_extract_locks_for_cycle] finds for it, is a circular wait. *)
Lemma graph_cycle_is_wait_cycle d c :
  NoDup (wait_graph d).*1 ->
  graph_cycle (_build_task_dependency_graph d) (cycle c) ->
  locks c = _extract_locks_for_cycle d (cycle c) ->
  is_wait_cycle d c.
Proof.
  intros Hnd (Hne & Hcnd & Hedges) Hlocks.
  assert (Hstep : forall i t, cycle c !! i = Some t ->
            exists t' lock_id,
              next_in_cycle (cycle c) i = Some t' /\ t' <> ""
              /\ waits_for_lock d t lock_id t').
  { intros i t Hi. destruct (Hedges i t Hi) as (t' & Hnext & Hedge).
    apply edge_task_graph in Hedge as (Hne' & l & waiting & Hin & Hl & Hh).
    exists t', l. split; [done|]. split; [done|].
    exists waiting. split; [by apply elem_of_alist_get | done]. }
  destruct (omap_total
              (fun i => match cycle c !! i, next_in_cycle (cycle c) i with
                        | Some current_task, Some next_task =>
                            lock_between d current_task next_task
                        | _, _ => None
                        end)
              (seq 0 (length (cycle c)))) as [Hlen Hlookup].
  { intros i Hi. apply elem_of_seq in Hi as [_ Hi].
    destruct (lookup_lt_is_Some_2 (cycle c) i) as [t Ht]; [simpl in Hi; lia|].
    destruct (Hstep i t Ht) as (t' & l & -> & Hne' & Hw). rewrite Ht.
    by apply (lock_between_is_Some d t t' l). }
  fold (_extract_locks_for_cycle d (cycle c)) in Hlen, Hlookup.
  rewrite <- Hlocks in Hlen, Hlookup. rewrite length_seq in Hlen.
  split; [done|]. split; [done|]. split; [done|].
  intros i t Hi. destruct (Hstep i t Hi) as (t' & _ & Hnext & _ & _).
  pose proof (Hlookup i) as Hli.
  rewrite lookup_seq_lt in Hli by (by apply lookup_lt_Some in Hi).
  simpl in Hli. rewrite Hi, Hnext in Hli.
  destruct (lock_between d t t') as [l|] eqn:Hb.
  - exists l, t'. split; [done|]. split; [done|]. by apply lock_between_Some.
  - destruct (Hstep i t Hi) as (t'' & l & Hnext' & Hne' & Hw).
    rewrite Hnext in Hnext'. injection Hnext' as <-.
    destruct (lock_between_is_Some d t t' l Hne' Hw) as [l' Hl'].
    rewrite Hb in Hl'. done.
Qed.

Lemma detector_run_wait_graph_NoDup calls : forall d,
  NoDup (wait_graph d).*1 -> NoDup (wait_graph (detector_run d calls)).*1.
Proof.
  induction calls as [|c calls IH]; intros d Hd; simpl; [done|].
  apply IH. destruct c as [t l now | t l | t l |]; simpl.
  - unfold track_lock_acquisition. destruct (negb _); [done|]. simpl.
    by apply alist_set_NoDup.
  - unfold track_lock_acquired. destruct (negb _); [done|]. simpl.
    destruct (alist_get t (wait_graph d)); [|done].
    case_bool_decide; [by apply alist_del_NoDup | by apply alist_set_NoDup].
  - unfold track_lock_release. destruct (negb _); [done|].
    by case_bool_decide.
  - constructor.
Qed.

(** X29.  For a deadlock detector driven by any sequence of calls, and
    whatever the order in which Python iterates a set, [detect_deadlock]
    returns (the search raises nothing and recurses no deeper than there
    are tasks), and every cycle it reports is a circular wait: its tasks
    are distinct, it lists one lock per task, and each task waits for its
    lock, which the next task of the cycle holds, the first task coming
    after the last. *)
Theorem detect_deadlock_sound options calls :
  let d := Deadlock.detector_run (Deadlock.new_deadlock_detector options) calls in
  exists found,
    Deadlock.detect_deadlock d = Ret found
    /\ forall c, c ∈ found -> is_wait_cycle d c.
Proof.
  intros d.
  destruct (enable_deadlock_detection (dd_options d)) eqn:Hen.
  - destruct (detect_deadlock_search d Hen) as (st & Hrun & Hinv & _).
    exists (cycles st). split; [done|]. intros c Hc.
    destruct (inv_cycles _ _ _ Hinv c Hc) as [Hcyc Hlocks].
    apply graph_cycle_is_wait_cycle; [|done..].
    apply detector_run_wait_graph_NoDup. constructor.
  - exists []. split.
    + unfold detect_deadlock. by rewrite Hen.
    + intros c Hc. by apply elem_of_nil in Hc.
Qed.

Lemma blocked_on_edge d t t' :
  blocked_on d t t' -> edge (_build_task_dependency_graph d) t t'.
Proof.
  intros (Hne & l & waiting & Hg & Hl & Hh). apply edge_task_graph.
  split; [done|]. exists l, waiting.
  split; [by apply alist_get_Some_elem_of | done].
Qed.

(** X30.  With deadlock detection enabled, [detect_deadlock] misses no
    deadlock: when some task is blocked on itself through a chain of
    tasks, each waiting for a lock that the next one holds, the result
    holds at least one cycle.  Holders whose id is the empty string do not
    count: the detector ignores the locks they hold. *)
Theorem detect_deadlock_complete (d : Deadlock.DeadlockDetector) t :
  enable_deadlock_detection (Deadlock.dd_options d) = true ->
  tc (blocked_on d) t t ->
  exists c found, Deadlock.detect_deadlock d = Ret (c :: found).
Proof.
  intros Hen Hcyc.
  destruct (detect_deadlock_search d Hen) as (st & Hrun & Hinv & Hrs & Hvis).
  rewrite Hrun. destruct (cycles st) as [|c found] eqn:Hc; [|by exists c, found].
  exfalso.
  apply (tc_mono _ (edge (_build_task_dependency_graph d))) in Hcyc;
    [|apply blocked_on_edge].
  apply (inv_finished_acyclic _ _ _ Hinv Hc t); [|done].
  apply tc_first_step in Hcyc as (y & (s & Hg & _) & _).
  unfold finished. rewrite Hrs.
  assert (t ∈ visited st); [|set_solver].
  apply Hvis, list_elem_of_fmap. exists (t, s).
  split; [done | by apply alist_get_Some_elem_of].
Qed.

End DeadlockResults.

Lemma detect_deadlock_complete_witness :
  exists c found,
    Deadlock.detect_deadlock
      (Deadlock.detector_run (Deadlock.new_deadlock_detector None) crossed_locks)
    = Ret (c :: found).
Proof.
  pose (d := Deadlock.detector_run (Deadlock.new_deadlock_detector None) crossed_locks).
  assert (Hab : blocked_on d "a" "b").
  { split; [done|]. exists "l2", {["l2"]}.
    split; [by vm_compute|]. split; [set_solver | by vm_compute]. }
  assert (Hba : blocked_on d "b" "a").
  { split; [done|]. exists "l1", {["l1"]}.
    split; [by vm_compute|]. split; [set_solver | by vm_compute]. }
  apply (detect_deadlock_complete d "a"); [reflexivity|].
  eapply tc_l; [exact Hab | apply tc_once, Hba].
Defined.
